(** * mcplay (play.py): playlist navigation, player supervision, remote control

    A shallow embedding of the playback core of [play.py] and the proofs of
    its specified properties.

    - Python objects are references: a [PlaylistEntry] is identified by an
      object id; its mutable attributes [active] and [tagged] are kept
      field-wise, so that the aliasing between [buffer] and the three random
      pools is the aliasing of the program.
    - Python numbers that may be floats (offsets, lengths, times) are
      rationals: arithmetic is exact, rounding is not modelled.
    - What the program asks of its surroundings (the clock, the random draw,
      the file pattern of the player, the file system) is read from an
      environment record [Env]; the system calls it makes are appended to a
      log.
    - Exceptions are results: a method of the application either returns or
      raises, and [try]/[except] is a match on the result. *)

From Stdlib Require Import ZArith QArith Qminmax String Ascii List Lia Lqa Bool.
From stdpp Require Import base decidable option list countable gmap strings.

Set Default Proof Using "Type".
Local Open Scope nat_scope.
Set Warnings "-clear-no-such-hyp".

(** ** Python list operations *)

Section PyList.
Context {A : Type} `{EqDecision A}.

(** [l.index(x)]: the position of the first element equal to [x];
    [None] stands for [ValueError]. *)
Fixpoint py_index (x : A) (l : list A) : option nat :=
  match l with
  | [] => None
  | y :: l' => if decide (x = y) then Some 0 else S <$> py_index x l'
  end.

(** [l.remove(x)]: drops the first element equal to [x]; [None] stands for
    [ValueError]. *)
Fixpoint py_remove (x : A) (l : list A) : option (list A) :=
  match l with
  | [] => None
  | y :: l' => if decide (x = y) then Some l' else (y ::.) <$> py_remove x l'
  end.

(** [try: l.remove(x) except ValueError: pass]. *)
Definition py_discard (x : A) (l : list A) : list A :=
  default l (py_remove x l).

(** [l.pop()]: the last element and the list without it; [None] stands
    for [IndexError]. *)
Definition py_pop (l : list A) : option (A * list A) :=
  match last l with
  | Some x => Some (x, removelast l)
  | None => None
  end.

(** [l[i]] for an integer [i]: negative indices count from the end;
    [None] stands for [IndexError]. *)
Definition py_getitem (l : list A) (i : Z) : option A :=
  if (0 <=? i)%Z then l !! Z.to_nat i
  else if (0 <=? Z.of_nat (length l) + i)%Z
       then l !! Z.to_nat (Z.of_nat (length l) + i)
       else None.

(** [random.choice(l)] is [l[randbelow(len(l))]]; [r] is the number the
    generator yields, brought below [len(l)]. *)
Definition random_choice (r : nat) (l : list A) : option A :=
  l !! (r mod length l).
End PyList.

(** ** Playlist entries *)

(** A [PlaylistEntry] object: its identity and the pathname it was created
    with.  [==] on entries is identity, hence equality of these records. *)
Record PlaylistEntry := Entry { oid : nat; pathname : string }.

#[global] Instance PlaylistEntry_eq_dec : EqDecision PlaylistEntry.
Proof. solve_decision. Defined.

#[global] Instance PlaylistEntry_countable : Countable PlaylistEntry.
Proof.
  apply (inj_countable' (fun e => (oid e, pathname e))
                        (fun p => Entry p.1 p.2)).
  by intros [].
Defined.

(** ** The playlist window *)

Module PlaylistWindow.

(** The attributes of [PlaylistWindow] that navigation reads and writes,
    with the [active] and [tagged] attributes of the entry objects.
    [bufptr] is a position: [ListWindow.update] keeps it at or above 0. *)
Record t := Make {
  buffer : list PlaylistEntry;
  bufptr : nat;
  repeat : bool;
  random : bool;
  random_prev : list PlaylistEntry;
  random_next : list PlaylistEntry;
  random_left : list PlaylistEntry;
  stop : bool;
  active : gset PlaylistEntry;
  tagged : gset PlaylistEntry;
}.

(** [PlaylistWindow.__init__]. *)
Definition init : t :=
  Make [] 0 false false [] [] [] false ∅ ∅.

Definition with_buffer (b : list PlaylistEntry) (w : t) : t :=
  Make b (bufptr w) (repeat w) (random w) (random_prev w) (random_next w)
       (random_left w) (stop w) (active w) (tagged w).
Definition with_bufptr (p : nat) (w : t) : t :=
  Make (buffer w) p (repeat w) (random w) (random_prev w) (random_next w)
       (random_left w) (stop w) (active w) (tagged w).
Definition with_repeat (v : bool) (w : t) : t :=
  Make (buffer w) (bufptr w) v (random w) (random_prev w) (random_next w)
       (random_left w) (stop w) (active w) (tagged w).
Definition with_random (v : bool) (w : t) : t :=
  Make (buffer w) (bufptr w) (repeat w) v (random_prev w) (random_next w)
       (random_left w) (stop w) (active w) (tagged w).
Definition with_stop (v : bool) (w : t) : t :=
  Make (buffer w) (bufptr w) (repeat w) (random w) (random_prev w)
       (random_next w) (random_left w) v (active w) (tagged w).
Definition with_pools (p n l : list PlaylistEntry) (w : t) : t :=
  Make (buffer w) (bufptr w) (repeat w) (random w) p n l (stop w)
       (active w) (tagged w).
Definition with_active (a : gset PlaylistEntry) (w : t) : t :=
  Make (buffer w) (bufptr w) (repeat w) (random w) (random_prev w)
       (random_next w) (random_left w) (stop w) a (tagged w).
Definition with_tagged (g : gset PlaylistEntry) (w : t) : t :=
  Make (buffer w) (bufptr w) (repeat w) (random w) (random_prev w)
       (random_next w) (random_left w) (stop w) (active w) g.

(** [entry.is_active()], [entry.set_active(value)]. *)
Definition is_active (w : t) (e : PlaylistEntry) : bool :=
  bool_decide (e ∈ active w).
Definition set_active (e : PlaylistEntry) (value : bool) (w : t) : t :=
  with_active (if value then active w ∪ {[ e ]} else active w ∖ {[ e ]}) w.

(** [entry.is_tagged()], [entry.set_tagged(value)]. *)
Definition is_tagged (w : t) (e : PlaylistEntry) : bool :=
  bool_decide (e ∈ tagged w).
Definition set_tagged (e : PlaylistEntry) (value : bool) (w : t) : t :=
  with_tagged (if value then tagged w ∪ {[ e ]} else tagged w ∖ {[ e ]}) w.

(** [TagListWindow.not_tagged(l)]. *)
Definition not_tagged (w : t) (l : list PlaylistEntry) : list PlaylistEntry :=
  List.filter (fun x => negb (is_tagged w x)) l.

(** [ListWindow.update]: the cursor is brought back into the buffer (the
    drawing is not modelled). *)
Definition update (w : t) : t :=
  with_bufptr (Nat.min (bufptr w) (length (buffer w) - 1)) w.

(** [ListWindow.current]. *)
Definition current (w : t) : option PlaylistEntry * t :=
  if bool_decide (length (buffer w) = 0) then (None, w)
  else
    let w1 := if bool_decide (length (buffer w) <= bufptr w)
              then with_bufptr (length (buffer w) - 1) w else w in
    (buffer w1 !! bufptr w1, w1).

(** [PlaylistWindow.append]. *)
Definition append (item : PlaylistEntry) (w : t) : t :=
  let w1 := with_buffer (buffer w ++ [item]) w in
  if random w1
  then with_pools (random_prev w1) (random_next w1) (random_left w1 ++ [item]) w1
  else w1.

(** [PlaylistWindow.get_active_entry]. *)
Definition get_active_entry (w : t) : option PlaylistEntry :=
  List.find (is_active w) (buffer w).

(** [old and old.set_active(0)]. *)
Definition clear_old (old : option PlaylistEntry) (w : t) : t :=
  match old with
  | Some o => set_active o false w
  | None => w
  end.

(** The tail of [change_active_entry]:
    [new.set_active(1); self.update(); return new]. *)
Definition activate (new : PlaylistEntry) (w : t)
  : option PlaylistEntry * t :=
  (Some new, update (set_active new true w)).

(** [PlaylistWindow.change_active_entry(direction)]; [r] is the random
    number [random.choice] draws when it is called.  A [None] in the
    result is the method's bare [return].  Where the program indexes or
    pops a list it has just found long enough ([random.choice] of a list
    that is not empty, [self.random_prev[-1]], [self.buffer.index(old)],
    [self.buffer[index % len]]) the failing case is written out for the
    function to be total; it is never taken. *)
Definition change_active_entry (direction : Z) (r : nat) (w : t)
  : option PlaylistEntry * t :=
  match buffer w with
  | [] => (None, w)
  | _ :: _ =>
    let old := get_active_entry w in
    if random w then
      if (0 <? direction)%Z then
        (* [new] after the [if/elif/elif/else], or the early [return] *)
        let sel : option (option PlaylistEntry * t) :=
          match py_pop (random_next w) with
          | Some (x, nx) =>
              Some (Some x, with_pools (random_prev w) nx (random_left w) w)
          | None =>
              match random_left w with
              | _ :: _ => Some (None, w)
              | [] =>
                  if repeat w
                  then Some (None, with_pools (random_prev w) (random_next w)
                                              (buffer w) w)
                  else None
              end
          end in
        match sel with
        | None => (None, w)
        | Some (new0, w1) =>
          (* [if not new: new = random.choice(left); left.remove(new)] *)
          let drawn : option (PlaylistEntry * t) :=
            match new0 with
            | Some x => Some (x, w1)
            | None =>
                match random_choice r (random_left w1) with
                | Some x =>
                    Some (x, with_pools (random_prev w1) (random_next w1)
                                (py_discard x (random_left w1)) w1)
                | None => None
                end
            end in
          match drawn with
          | None => (None, w1)
          | Some (new, w2) =>
            let w3 := with_pools (py_discard new (random_prev w2) ++ [new])
                                 (random_next w2) (random_left w2) w2 in
            activate new (clear_old old w3)
          end
        end
      else
        if bool_decide (1 < length (random_prev w)) then
          match py_pop (random_prev w) with
          | Some (x, pv) =>
            let w1 := with_pools pv (random_next w ++ [x]) (random_left w) w in
            match last (random_prev w1) with
            | Some new => activate new (clear_old old w1)
            | None => (None, w1)
            end
          | None => (None, w)
          end
        else (None, w)
    else
      match old with
      | Some o =>
        match py_index o (buffer w) with
        | Some i =>
          let index := (Z.of_nat i + direction)%Z in
          let len := Z.of_nat (length (buffer w)) in
          if negb (((0 <=? index)%Z && (index <? len)%Z) || repeat w)
          then (None, w)
          else
            let w1 := set_active o false w in
            match py_getitem (buffer w1) (index mod len) with
            | Some new => activate new w1
            | None => (None, w1)
            end
        | None => (None, w)
        end
      | None =>
        match py_getitem (buffer w) 0 with
        | Some new => activate new w
        | None => (None, w)
        end
      end
  end.

(** [PlaylistWindow.command_delete]. *)
Definition command_delete (w : t) : t :=
  match buffer w with
  | [] => w
  | _ :: _ =>
    let '(cur, w1) := current w in
    match cur with
    | None => w1
    | Some current_entry =>
      let n := length (buffer w1) in
      let w2 := with_buffer (not_tagged w1 (buffer w1)) w1 in
      let w3 :=
        if bool_decide (length (buffer w2) < n) then
          match py_index current_entry (buffer w2) with
          | Some i => with_bufptr i w2
          | None => w2
          end
        else
          let w' := set_tagged current_entry true w2 in
          with_buffer (delete (bufptr w') (buffer w')) w' in
      let w4 :=
        if random w3
        then with_pools (not_tagged w3 (random_prev w3))
                        (not_tagged w3 (random_next w3))
                        (not_tagged w3 (random_left w3)) w3
        else w3 in
      update w4
    end
  end.

(** What [command_toggle_repeat], [command_toggle_random] and
    [command_toggle_stop] do to the window; the status line they also
    write is added in [Application]. *)
Definition toggle_repeat (w : t) : t := with_repeat (negb (repeat w)) w.
Definition toggle_stop (w : t) : t := with_stop (negb (stop w)) w.
Definition toggle_random (w : t) : t :=
  let w1 := with_random (negb (random w)) w in
  with_pools [] [] (buffer w1) w1.

(** What [command_delete_all] does to the window. *)
Definition delete_all (w : t) : t :=
  update (with_pools [] [] [] (with_buffer [] w)).

(** [ListWindow.cursor_move(ydiff)] (the prompt it may cancel is not
    modelled).  [update_line] redraws the line of the cursor before the
    move, and the [current()] it calls brings a cursor that is past the
    end back to the last entry. *)
Definition cursor_move (ydiff : Z) (w : t) : t :=
  match buffer w with
  | [] => w
  | _ :: _ =>
    let w1 := (current w).2 in
    update (with_bufptr
              (Z.to_nat ((Z.of_nat (bufptr w1) + ydiff)
                           mod Z.of_nat (length (buffer w1)))) w1)
  end.

(** *** Sequences of playlist operations *)

Inductive Op :=
  | op_append (item : PlaylistEntry)      (* append(item) *)
  | op_tag (e : PlaylistEntry) (value : bool)  (* e.set_tagged(value) *)
  | op_cursor_move (ydiff : Z)
  | op_toggle_repeat
  | op_toggle_random
  | op_forward (r : nat)                  (* change_active_entry(1) *)
  | op_backward                           (* change_active_entry(-1) *)
  | op_delete.                            (* command_delete *)

Definition step (op : Op) (w : t) : t :=
  match op with
  | op_append item => append item w
  | op_tag e value => set_tagged e value w
  | op_cursor_move ydiff => cursor_move ydiff w
  | op_toggle_repeat => toggle_repeat w
  | op_toggle_random => toggle_random w
  | op_forward r => (change_active_entry 1 r w).2
  | op_backward => (change_active_entry (-1) 0 w).2
  | op_delete => command_delete w
  end.

Fixpoint run (ops : list Op) (w : t) : t :=
  match ops with
  | [] => w
  | op :: ops' => run ops' (step op w)
  end.

(** [op] refills [left]: a forward advance in random mode that finds
    [next] and [left] empty while repeat is on. *)
Definition refills (op : Op) (w : t) : bool :=
  match op with
  | op_forward _ =>
      random w && bool_decide (buffer w <> [])
      && bool_decide (random_next w = [])
      && bool_decide (random_left w = []) && repeat w
  | _ => false
  end.

(** An appended item is a new object: it is not in the playlist yet. *)
Definition appends_new (op : Op) (w : t) : bool :=
  match op with
  | op_append item => bool_decide (item ∉ buffer w)
  | _ => true
  end.

(** Along [ops], started in [w], every append is of a new object and
    [left] is never refilled. *)
Fixpoint no_refill (ops : list Op) (w : t) : bool :=
  match ops with
  | [] => true
  | op :: ops' =>
      appends_new op w && negb (refills op w) && no_refill ops' (step op w)
  end.

(** *** Further commands of the window *)

(** [TagListWindow.get_tagged]. *)
Definition get_tagged (w : t) : list PlaylistEntry :=
  List.filter (is_tagged w) (buffer w).

(** [ListWindow.cursor_home], [ListWindow.cursor_end]. *)
Definition cursor_home (w : t) : t :=
  cursor_move (- Z.of_nat (bufptr w)) w.
Definition cursor_end (w : t) : t :=
  cursor_move (- Z.of_nat (bufptr w) - 1) w.

(** [TagListWindow.command_tag_untag]; [None] stands for the [IndexError]
    of [self.buffer[self.bufptr]]. *)
Definition command_tag_untag (w : t) : option t :=
  match buffer w with
  | [] => Some w
  | _ :: _ =>
    match buffer w !! bufptr w with
    | Some tmp => Some (cursor_move 1 (set_tagged tmp (negb (is_tagged w tmp)) w))
    | None => None
    end
  end.

(** [TagListWindow.command_tag(value)]. *)
Definition command_tag (value : bool) (w : t) : option t :=
  match buffer w with
  | [] => Some w
  | _ :: _ =>
    match buffer w !! bufptr w with
    | Some e => Some (cursor_move 1 (set_tagged e value w))
    | None => None
    end
  end.

(** [TagListWindow.command_invert_tags]. *)
Definition command_invert_tags (w : t) : t :=
  update
    (fold_left (fun acc i => set_tagged i (negb (is_tagged acc i)) acc)
               (buffer w) w).

(** [PlaylistWindow.command_jump_to_active]; the entry found is in the
    list, so [index] does not fail. *)
Definition command_jump_to_active (w : t) : t :=
  match get_active_entry w with
  | None => w
  | Some entry =>
    match py_index entry (buffer w) with
    | Some i => update (with_bufptr i w)
    | None => w
    end
  end.

(** [PlaylistWindow.command_move(after)]: the tagged entries are taken out
    and put back together before ([after] 0) or after ([after] 1) the
    entry under the cursor.  That entry is not tagged where [index] looks
    for it among the rest, so [index] does not fail. *)
Definition command_move (after : nat) (w : t) : t :=
  match buffer w with
  | [] => w
  | _ :: _ =>
    let '(cur, w1) := current w in
    match cur with
    | None => w1
    | Some current_entry =>
      let l := get_tagged w1 in
      match l with
      | [] => w1
      | _ :: _ =>
        if is_tagged w1 current_entry then w1
        else
          let w2 := with_buffer (not_tagged w1 (buffer w1)) w1 in
          match py_index current_entry (buffer w2) with
          | None => w2
          | Some i =>
            let w3 := with_bufptr (i + after) w2 in
            update (with_buffer (take (bufptr w3) (buffer w3) ++ l ++
                                 drop (bufptr w3) (buffer w3)) w3)
          end
      end
    end
  end.

(** The loop of [command_shuffle]: [n] entries are left in [buf], [l] is
    the new order so far; [randint n] is the number [random.randint(0, n)]
    yields, brought within 0 and [n]. *)
Fixpoint shuffle_loop (randint : nat -> nat) (n : nat)
    (buf l : list PlaylistEntry) : list PlaylistEntry * list PlaylistEntry :=
  match n with
  | 0 => (buf, l)
  | S n' =>
    let r := randint n' mod S n' in
    match buf !! r with
    | Some x => shuffle_loop randint n' (delete r buf) (l ++ [x])
    | None => (buf, l)
    end
  end.

(** What [PlaylistWindow.command_shuffle] does to the window. *)
Definition command_shuffle (randint : nat -> nat) (w : t) : t :=
  let '(_, l) := shuffle_loop randint (length (buffer w)) (buffer w) [] in
  update (with_bufptr 0 (with_buffer l w)).

(** Forward advances one after the other, as at the end of each track or
    by the key for the next song, with the draws [rs]: what each one
    returns, and the window left. *)
Fixpoint forwards (rs : list nat) (w : t)
  : list (option PlaylistEntry) * t :=
  match rs with
  | [] => ([], w)
  | r :: rs' =>
    let '(e, w1) := change_active_entry 1 r w in
    let '(es, w2) := forwards rs' w1 in
    (e :: es, w2)
  end.

End PlaylistWindow.

(** ** Calls to the surroundings *)

Inductive Signal := SIGINT | SIGSTOP | SIGCONT.

(** The system calls and the calls to the display windows the core makes,
    in the order it makes them.  The windows ([app.status],
    [app.set_default_status], [app.counter], [app.progress]) and the mixer
    device are collaborators of the core: their calls are recorded, their
    drawing is not modelled. *)
Inductive Call :=
  | sys_fork
  | sys_kill (sig : Signal)
  | sys_mkfifo
  | sys_fifo_seek (offset : Q)
  | sys_mixer (cmd : string) (arg : Z)
  | ui_status (message : string) (duration : Q)
  | ui_set_default_status (message : string)
  | ui_counter (head tail : Q)
  | ui_progress (value : Q).

(** What the surroundings answer during one operation. *)
Record Env := {
  now : Q;                            (* time.time() *)
  draw : nat;                         (* the number random.choice draws *)
  which_found : bool;                 (* which(argv[0]) finds the player *)
  re_files_search : string -> bool;   (* PLAYERS[0].re_files.search *)
  mkfifo_ok : bool;                   (* the control FIFO can be created *)
  vp : PlaylistEntry -> string;       (* entry.vp(), the displayed name *)
  listing : string -> list string;    (* the songs a pathname expands to *)
  mixer_dev : string -> Z -> string + string
                                      (* _mixer: its status text, or the
                                         text of the exception it raises *)
}.

(** Truth value of a Python number. *)
Definition truthy (x : Q) : bool := negb (Qeq_bool x 0).
(** [x < y] on Python numbers. *)
Definition Qltb (x y : Q) : bool := negb (Qle_bool y x).

(** ** The player *)

Module Player.
Local Open Scope Q_scope.

(** The attributes of the one player object of [PLAYERS] (a
    [TimeOffsetPlayerMplayer]) after its first [setup] and [play], which
    assign them.  [alive] is not an attribute but the state of the child
    process [self.pid]: while it is false, [os.kill] and [os.waitpid]
    raise (the application ignores SIGCHLD, so a child that ended is
    reaped at once).  The command line ([argv]) and the output buffer with
    its parser ([buf], [tid], [parse_buf]) are not modelled. *)
Record t := Make {
  entry : option PlaylistEntry;
  stopped : bool;
  paused : bool;
  time_setup : option Q;
  offset : Q;
  length : Q;
  step : Q;
  alive : bool;
}.

(** [Player.__init__]; the numeric attributes start at 0.  In the program
    [offset] and [length] are assigned by the first [setup], [step] and
    the process by the first [play]: what is proved of [seek], of
    [toggle_pause] and of the signals [stop] sends is stated for a player
    whose process lives, which has been through both. *)
Definition init : t := Make None false false None 0 0 0 false.

Definition with_entry (e : option PlaylistEntry) (p : t) : t :=
  Make e (stopped p) (paused p) (time_setup p) (offset p) (length p)
       (step p) (alive p).
Definition with_stopped (v : bool) (p : t) : t :=
  Make (entry p) v (paused p) (time_setup p) (offset p) (length p)
       (step p) (alive p).
Definition with_paused (v : bool) (p : t) : t :=
  Make (entry p) (stopped p) v (time_setup p) (offset p) (length p)
       (step p) (alive p).
Definition with_time_setup (v : option Q) (p : t) : t :=
  Make (entry p) (stopped p) (paused p) v (offset p) (length p)
       (step p) (alive p).
Definition with_offset (v : Q) (p : t) : t :=
  Make (entry p) (stopped p) (paused p) (time_setup p) v (length p)
       (step p) (alive p).
Definition with_length (v : Q) (p : t) : t :=
  Make (entry p) (stopped p) (paused p) (time_setup p) (offset p) v
       (step p) (alive p).
Definition with_step (v : Q) (p : t) : t :=
  Make (entry p) (stopped p) (paused p) (time_setup p) (offset p)
       (length p) v (alive p).
Definition with_alive (v : bool) (p : t) : t :=
  Make (entry p) (stopped p) (paused p) (time_setup p) (offset p)
       (length p) (step p) v.

(** Every method returns the player after the call and the calls it made. *)

(** [Player.update_status]. *)
Definition update_status (env : Env) (p : t) : list Call :=
  match entry p with
  | None => [ui_set_default_status ""]
  | Some e =>
      if stopped p then [ui_set_default_status ("Stopped: " +:+ vp env e)]
      else if paused p then [ui_set_default_status ("Paused: " +:+ vp env e)]
      else [ui_set_default_status ("Playing: " +:+ vp env e)]
  end.

(** [Player.setup(entry, offset)]; the result is the truth value of
    [argv[0]], the path [which] found. *)
Definition setup (env : Env) (e : PlaylistEntry) (off : Q) (p : t)
  : bool * t * list Call :=
  let p1 := with_offset off (with_entry (Some e) p) in
  let '(p2, c) :=
    if Qeq_bool off 0
    then (with_length 0 (with_offset 0 p1), [ui_progress 0])
    else (p1, []) in
  (which_found env, with_time_setup (Some (now env)) p2, c).

(** [Player.play]: the parent's side of the fork. *)
Definition play_base (env : Env) (p : t) : t * list Call :=
  let p1 := with_step 0 (with_paused false (with_stopped false
              (with_alive true p))) in
  (p1, sys_fork :: update_status env p1).

(** [TimeOffsetPlayerMplayer.play], the [play] of the configured player:
    the control FIFO is made anew, the player is forked and told where to
    start.  An [IOError] ends the method where it occurs. *)
Definition play (env : Env) (p : t) : t * list Call :=
  if mkfifo_ok env then
    let '(p1, c) := play_base env p in
    (p1, sys_mkfifo :: c ++ [sys_fifo_seek (offset p1)])
  else (p, [sys_mkfifo]).

(** [Player.toggle_pause(quiet)]. *)
Definition toggle_pause (env : Env) (quiet : bool) (p : t) : t * list Call :=
  let sig := if paused p then SIGCONT else SIGSTOP in
  if alive p then
    let p1 := with_paused (negb (paused p)) p in
    (p1, sys_kill sig :: (if quiet then [] else update_status env p1))
  else (p, [sys_kill sig]).

(** [Player.stop(quiet)].  The loop sends SIGINT until [waitpid] raises,
    that is until the child is gone: it is recorded as one kill.  The
    kill is recorded also when it raises at once because no child is
    there. *)
Definition stop (env : Env) (quiet : bool) (p : t) : t * list Call :=
  let '(p1, c1) := if paused p then toggle_pause env quiet p else (p, []) in
  let p2 := with_stopped true (with_alive false p1) in
  (p2, c1 ++ sys_kill SIGINT :: (if quiet then [] else update_status env p2)).

(** [Player.poll]: [None] while the child lives, [Some 0] after a
    re-spawn, [Some 1] at the end of the track. *)
Definition poll (env : Env) (p : t) : option nat * t * list Call :=
  if alive p then (None, p, [])
  else
    let in_grace :=
      match time_setup p with
      | Some t0 => truthy t0 && Qltb (now env - t0) 2
      | None => false
      end in
    if in_grace then
      let '(p1, c) := play env p in (Some 0%nat, p1, c)
    else
      (Some 1%nat, p, [ui_set_default_status ""; ui_counter 0 0; ui_progress 0]).

(** [Player.show_position]. *)
Definition show_position (p : t) : list Call :=
  [ui_counter (offset p) (length p - offset p);
   ui_progress (if truthy (length p) then offset p / length p else length p)].

(** [Player.seek(offset, relative)]. *)
Definition seek (off : Q) (relative : bool) (p : t) : t * list Call :=
  let p1 :=
    if relative then
      let d := off * length p * (2 # 1000) in
      let p' := with_step (step p * (if Qltb 0 (step p * d) then 1 else 0) + d) p in
      with_offset (Qmin (length p') (Qmax 0 (offset p' + step p'))) p'
    else
      let p' := with_step 1 p in
      with_offset (if Qltb off 0
                   then if truthy (length p' + off) then length p' + off else off
                   else off) p' in
  (p1, show_position p1).

(** [Player.set_position(offset, length)]. *)
Definition set_position (off len : Q) (p : t) : t * list Call :=
  let p1 := with_length len (with_offset off p) in
  (p1, show_position p1).

End Player.

(** ** The timer queue *)

(** The callbacks the core registers: [Application.play] with its
    arguments (by [delayed_play]). *)
Inductive Callback :=
  | cb_play (entry : option PlaylistEntry) (offset : option Q).

Module Timeout.

Record t := Make {
  next : nat;
  dict : gmap nat (Callback * Q);
}.

(** [Timeout.__init__]. *)
Definition init : t := Make 0 ∅.

(** [Timeout.add(timeout, func, args)]: the new id and the queue. *)
Definition add (env : Env) (timeout : Q) (func : Callback) (q : t) : nat * t :=
  let tid := next q + 1 in
  (tid, Make tid (<[tid := (func, (now env + timeout)%Q)]> (dict q))).

(** [Timeout.remove(tid)]: [del self.dict[tid]]; [None] stands for
    [KeyError]. *)
Definition remove (tid : nat) (q : t) : option t :=
  match dict q !! tid with
  | Some _ => Some (Make (next q) (delete tid (dict q)))
  | None => None
  end.

End Timeout.

(** ** Exceptions *)

Inductive Exn :=
  | TypeError
  | ValueError
  | IndexError
  | KeyError
  | SystemExit (status : Z).

(** The outcome of a method that returns nothing: the state it leaves,
    reached by returning or by raising. *)
Inductive Result (S : Type) :=
  | Ok (s : S)
  | Raise (e : Exn) (s : S).
Arguments Ok {S} s.
Arguments Raise {S} e s.

(** ** The application *)

Module Application.

(** The global [app]: the one player of [PLAYERS], the playlist window,
    the timer queue, and the calls made so far.  [next_oid] is the id the
    next created entry object gets. *)
Record t := Make {
  player : Player.t;
  win_playlist : PlaylistWindow.t;
  timeout : Timeout.t;
  play_tid : option nat;
  kludge : bool;
  next_oid : nat;
  calls : list Call;
}.

Definition init : t :=
  Make Player.init PlaylistWindow.init Timeout.init None false 0 [].

Definition with_player (p : Player.t) (a : t) : t :=
  Make p (win_playlist a) (timeout a) (play_tid a) (kludge a) (next_oid a)
       (calls a).
Definition with_win_playlist (w : PlaylistWindow.t) (a : t) : t :=
  Make (player a) w (timeout a) (play_tid a) (kludge a) (next_oid a)
       (calls a).
Definition with_timeout (q : Timeout.t) (a : t) : t :=
  Make (player a) (win_playlist a) q (play_tid a) (kludge a) (next_oid a)
       (calls a).
Definition with_play_tid (v : option nat) (a : t) : t :=
  Make (player a) (win_playlist a) (timeout a) v (kludge a) (next_oid a)
       (calls a).
Definition with_kludge (v : bool) (a : t) : t :=
  Make (player a) (win_playlist a) (timeout a) (play_tid a) v (next_oid a)
       (calls a).
Definition with_next_oid (n : nat) (a : t) : t :=
  Make (player a) (win_playlist a) (timeout a) (play_tid a) (kludge a) n
       (calls a).
(** The calls [c] are made. *)
Definition emit (c : list Call) (a : t) : t :=
  Make (player a) (win_playlist a) (timeout a) (play_tid a) (kludge a)
       (next_oid a) (calls a ++ c).

(** A method of the player run on [app.player]. *)
Definition on_player (m : Player.t -> Player.t * list Call) (a : t) : t :=
  let '(p, c) := m (player a) in emit c (with_player p a).

(** The [else] of the loop over [PLAYERS] in [play].  The status line is
    recorded as a call; the timer that lets it expire after a second is
    not one of the play callbacks the queue of this model holds. *)
Definition player_not_found (a : t) : t :=
  with_player (Player.with_stopped false (player a))
              (emit [ui_status "Player not found!" 1] a).

(** [Application.play(entry, offset)]. *)
Definition play (env : Env) (entry : option PlaylistEntry)
    (offset : option Q) (a : t) : t :=
  let a1 := with_play_tid None (with_kludge false a) in
  match entry, offset with
  | Some e, Some off =>
    let a2 := on_player (Player.stop env true) a1 in
    if re_files_search env (pathname e) then
      let '(found, p, c) := Player.setup env e off (player a2) in
      let a3 := emit c (with_player p a2) in
      if found then on_player (Player.play env) a3
      else player_not_found a3
    else player_not_found a2
  | _, _ => a1
  end.

(** [Application.delayed_play(entry, offset)]. *)
Definition delayed_play (env : Env) (entry : option PlaylistEntry)
    (offset : option Q) (a : t) : Result t :=
  let removed : option t :=
    match play_tid a with
    | Some (S _ as tid) =>
        (fun q => with_timeout q a) <$> Timeout.remove tid (timeout a)
    | _ => Some a
    end in
  match removed with
  | None => Raise KeyError a
  | Some a1 =>
    let '(tid, q) := Timeout.add env (1 # 2) (cb_play entry offset)
                                 (timeout a1) in
    Ok (with_play_tid (Some tid) (with_timeout q a1))
  end.

(** [Application.next_song], [Application.prev_song]. *)
Definition next_song (env : Env) (a : t) : Result t :=
  let '(e, w) := PlaylistWindow.change_active_entry 1 (draw env)
                   (win_playlist a) in
  delayed_play env e (Some 0%Q) (with_win_playlist w a).
Definition prev_song (env : Env) (a : t) : Result t :=
  let '(e, w) := PlaylistWindow.change_active_entry (-1) (draw env)
                   (win_playlist a) in
  delayed_play env e (Some 0%Q) (with_win_playlist w a).

(** [Application.seek(offset, relative)]. *)
Definition seek (env : Env) (offset : Q) (relative : bool) (a : t)
  : Result t :=
  match Player.entry (player a) with
  | None => Ok a
  | Some _ =>
    let a1 := on_player (Player.seek offset relative) a in
    delayed_play env (Player.entry (player a1))
                 (Some (Player.offset (player a1))) a1
  end.

(** [Application.toggle_pause]. *)
Definition toggle_pause (env : Env) (a : t) : t :=
  match Player.entry (player a) with
  | None => a
  | Some _ =>
    if negb (Player.stopped (player a))
    then on_player (Player.toggle_pause env false) a
    else a
  end.

(** [Application.toggle_stop]. *)
Definition toggle_stop (env : Env) (a : t) : t :=
  match Player.entry (player a) with
  | None => a
  | Some _ =>
    if negb (Player.stopped (player a))
    then on_player (Player.stop env false) a
    else play env (Player.entry (player a))
              (Some (Player.offset (player a))) a
  end.

(** [Application.mixer(cmd, arg)]: what [_mixer] raises becomes a status
    line. *)
Definition mixer (env : Env) (cmd : string) (arg : Z) (a : t) : t :=
  match mixer_dev env cmd arg with
  | inl msg => emit [sys_mixer cmd arg; ui_status msg 1] a
  | inr err => emit [sys_mixer cmd arg; ui_status err 2] a
  end.

(** [Application.run_macro(c)]: [MACRO] is empty, so no key is replayed. *)
Definition run_macro (c : string) (a : t) : t := a.

(** [Application.quit(status)]: [sys.exit] raises [SystemExit]. *)
Definition quit (env : Env) (status : Z) (a : t) : Result t :=
  Raise (SystemExit status) (on_player (Player.stop env true) a).

(** [PlaylistWindow.command_play]. *)
Definition command_play (env : Env) (a : t) : t :=
  let w := win_playlist a in
  match PlaylistWindow.buffer w with
  | [] => a
  | _ :: _ =>
    let w1 := PlaylistWindow.clear_old (PlaylistWindow.get_active_entry w) w in
    let '(entry, w2) := PlaylistWindow.current w1 in
    match entry with
    | Some e =>
      let w3 := PlaylistWindow.update (PlaylistWindow.set_active e true w2) in
      play env (Some e) (Some 0%Q) (with_win_playlist w3 a)
    | None => with_win_playlist w2 a
    end
  end.

(** [PlaylistWindow.command_delete_all]. *)
Definition command_delete_all (a : t) : t :=
  emit [ui_status "Deleted playlist" 1]
       (with_win_playlist (PlaylistWindow.delete_all (win_playlist a)) a).

(** [PlaylistWindow.toggle] on the three mode attributes. *)
Definition on_off (v : bool) : string := if v then "on" else "off".
Definition command_toggle_repeat (a : t) : t :=
  let w := PlaylistWindow.toggle_repeat (win_playlist a) in
  emit [ui_status ("Repeat: " +:+ on_off (PlaylistWindow.repeat w)) 1]
       (with_win_playlist w a).
Definition command_toggle_stop (a : t) : t :=
  let w := PlaylistWindow.toggle_stop (win_playlist a) in
  emit [ui_status ("Stop playlist: " +:+ on_off (PlaylistWindow.stop w)) 1]
       (with_win_playlist w a).
(** [PlaylistWindow.command_toggle_random]. *)
Definition command_toggle_random (a : t) : t :=
  let w := PlaylistWindow.toggle_random (win_playlist a) in
  emit [ui_status ("Random: " +:+ on_off (PlaylistWindow.random w)) 1]
       (with_win_playlist w a).

(** [PlaylistWindow.add(pathname, quiet)].  The directory walk, the
    playlist reader and [fix_url], with the status lines they write, are
    summed up by [listing]: the pathnames of the entries that get
    appended, each a new object. *)
Definition add (env : Env) (pathname : string) (quiet : bool) (a : t) : t :=
  let a1 :=
    fold_left
      (fun acc path =>
         with_next_oid (S (next_oid acc))
           (with_win_playlist
              (PlaylistWindow.append (Entry (next_oid acc) path)
                                     (win_playlist acc)) acc))
      (listing env pathname) a in
  if quiet then a1
  else with_win_playlist (PlaylistWindow.update (win_playlist a1)) a1.

(** [Application.key_volume(ch)]: [self.mixer("set", (ch & 0x0f)*10)]. *)
Definition key_volume (env : Env) (ch : Z) (a : t) : t :=
  mixer env "set" (Z.land ch 15 * 10) a.

(** [PlaylistWindow.command_shuffle], with its status line. *)
Definition command_shuffle (randint : nat -> nat) (a : t) : t :=
  emit [ui_status "Shuffled playlist... Oops?" 1]
       (with_win_playlist
          (PlaylistWindow.command_shuffle randint (win_playlist a)) a).

(** The entries of [self.timeout.dict] in the order the dict holds them:
    the order they were added in, which is that of their ids. *)
Definition items (q : Timeout.t) : list (nat * (Callback * Q)) :=
  omap (fun tid => (fun v => (tid, v)) <$> Timeout.dict q !! tid)
       (seq 1 (Timeout.next q)).

(** [func( *args )] for a callback of the queue. *)
Definition fire (env : Env) (func : Callback) (a : t) : t :=
  match func with
  | cb_play entry offset => play env entry offset a
  end.

(** The loop of [Timeout.check(now)] over the entries listed when it
    starts. *)
Fixpoint check_loop (env : Env) (l : list (nat * (Callback * Q))) (a : t)
  : Result t :=
  match l with
  | [] => Ok a
  | (tid, (func, deadline)) :: l' =>
    if Qle_bool deadline (now env) then
      match Timeout.remove tid (timeout a) with
      | None => Raise KeyError a
      | Some q => check_loop env l' (fire env func (with_timeout q a))
      end
    else check_loop env l' a
  end.

(** [self.timeout.check(now)] for the play callbacks, the entries the
    queue of this model holds: the state it leaves. *)
Definition check (env : Env) (a : t) : Result t :=
  check_loop env (items (timeout a)) a.

(** The part of one turn of [Application.run] that follows a track's end:
    [if not self.player.stopped: ... if self.kludge and self.player.poll():
    ...]. *)
Definition run_poll (env : Env) (a : t) : t :=
  if negb (Player.stopped (player a)) then
    if kludge a then
      let '(res, p, c) := Player.poll env (player a) in
      let a1 := emit c (with_player p a) in
      match res with
      | Some (S _) =>
        let a2 := with_player (Player.with_stopped true (player a1)) a1 in
        if negb (PlaylistWindow.stop (win_playlist a2)) then
          let '(entry, w) := PlaylistWindow.change_active_entry 1 (draw env)
                               (win_playlist a2) in
          let a3 := with_win_playlist w a2 in
          match entry with
          | Some e => play env (Some e) (Some 0%Q) a3
          | None => a3
          end
        else a2
      | _ => a1
      end
    else a
  else a.

End Application.

(** ** Python string operations (ASCII text) *)

(** The characters [str.strip] and [str.split] take for white space. *)
Definition is_space (c : ascii) : bool :=
  let n := nat_of_ascii c in
  ((9 <=? n) && (n <=? 13)) || ((28 <=? n) && (n <=? 32)).

Definition is_digit (c : ascii) : bool :=
  let n := nat_of_ascii c in (48 <=? n) && (n <=? 57).

Fixpoint lstrip (l : list ascii) : list ascii :=
  match l with
  | c :: l' => if is_space c then lstrip l' else l
  | [] => []
  end.

(** [s.strip()]. *)
Definition py_strip (s : string) : string :=
  string_of_list_ascii
    (rev (lstrip (rev (lstrip (list_ascii_of_string s))))).

(** [s.split(" ", 1)]: cut at the first space, if there is one. *)
Fixpoint cut_at_space (s : string) : string * option string :=
  match s with
  | EmptyString => (EmptyString, None)
  | String c s' =>
      if Ascii.eqb c " " then (EmptyString, Some s')
      else let '(a, r) := cut_at_space s' in (String c a, r)
  end.
Definition py_split_space1 (s : string) : list string :=
  match cut_at_space s with
  | (a, None) => [a]
  | (a, Some b) => [a; b]
  end.

(** [s.split()]: the words between runs of white space. *)
Fixpoint words (cur : list ascii) (l : list ascii) : list string :=
  match l with
  | [] => match cur with [] => [] | _ => [string_of_list_ascii (rev cur)] end
  | c :: l' =>
      if is_space c then
        match cur with
        | [] => words [] l'
        | _ => string_of_list_ascii (rev cur) :: words [] l'
        end
      else words (c :: cur) l'
  end.
Definition py_split (s : string) : list string :=
  words [] (list_ascii_of_string s).

(** [int(s)] in base 10: white space around, a sign, digits with single
    underscores between them; [None] stands for [ValueError]. *)
Fixpoint digits (acc : Z) (after_digit : bool) (l : list ascii) : option Z :=
  match l with
  | [] => if after_digit then Some acc else None
  | c :: l' =>
      if is_digit c
      then digits (10 * acc + Z.of_nat (nat_of_ascii c - 48)) true l'
      else if Ascii.eqb c "_" && after_digit then
        match l' with
        | d :: _ => if is_digit d then digits acc false l' else None
        | [] => None
        end
      else None
  end.
Definition py_int (s : string) : option Z :=
  match list_ascii_of_string (py_strip s) with
  | "-"%char :: l => Z.opp <$> digits 0 false l
  | "+"%char :: l => digits 0 false l
  | l => digits 0 false l
  end.

(** ** Text cut to the width of a window *)

(** Where a slice bound [i] falls in a string of length [len]: a negative
    bound counts from the end, and the result is kept within the string. *)
Definition py_slice_index (len i : Z) : nat :=
  Z.to_nat (Z.min len (Z.max 0 (if (i <? 0)%Z then len + i else i))).

(** [s[i:]] and [s[:j]]. *)
Definition py_slice_from (s : string) (i : Z) : string :=
  string_of_list_ascii
    (drop (py_slice_index (Z.of_nat (String.length s)) i)
          (list_ascii_of_string s)).
Definition py_slice_to (s : string) (j : Z) : string :=
  string_of_list_ascii
    (take (py_slice_index (Z.of_nat (String.length s)) j)
          (list_ascii_of_string s)).

(** [cut(s, n, left)].  The marked string is never empty, so
    [len(s) > n and marked or s] is [marked] whenever [len(s) > n]. *)
Definition cut (s : string) (n : Z) (left : bool) : string :=
  if left then
    if (n <? Z.of_nat (String.length s))%Z
    then "<" +:+ py_slice_from s (- n + 1)
    else s
  else
    if (n <? Z.of_nat (String.length s))%Z
    then py_slice_to s (n - 1) +:+ ">"
    else s.

(** ** The remote control *)

Module FIFOControl.

(** The callables the table binds. *)
Inductive Callee :=
  | app_toggle_pause
  | app_next_song
  | app_prev_song
  | app_seek
  | app_toggle_stop
  | self_volume
  | app_run_macro
  | win_playlist_add
  | win_playlist_command_delete_all
  | app_quit.

(** The arguments the table holds, and those cut from a line. *)
Inductive PyVal :=
  | py_num (n : Z)
  | py_str (s : string).

(** [self.commands]: per verb the callable and its arguments, [None]
    where they come from the line. *)
Definition commands : gmap string (Callee * option (list PyVal)) :=
  list_to_map
    [ ("pause", (app_toggle_pause, Some []));
      ("next", (app_next_song, Some []));
      ("prev", (app_prev_song, Some []));
      ("forward", (app_seek, Some [py_num 1; py_num 1]));
      ("backward", (app_seek, Some [py_num (-1); py_num 1]));
      ("play", (app_toggle_stop, Some []));
      ("stop", (app_toggle_stop, Some []));
      ("volume", (self_volume, None));
      ("macro", (app_run_macro, None));
      ("add", (win_playlist_add, None));
      ("empty", (win_playlist_command_delete_all, Some []));
      ("quit", (app_quit, Some [])) ].

(** [FIFOControl.volume(s)]. *)
Definition volume (env : Env) (s : string) (a : Application.t)
  : Result Application.t :=
  let argv := py_split s in
  match argv !! 0 with
  | None => Raise IndexError a
  | Some cmd =>
    match argv !! 1 with
    | None => Raise IndexError a
    | Some x =>
      match py_int x with
      | None => Raise ValueError a
      | Some n => Ok (Application.mixer env cmd n a)
      end
    end
  end.

(** [f( *a )] for the argument lists the table and a line can give; any
    other number of arguments is a [TypeError]. *)
Definition call (env : Env) (f : Callee) (args : list PyVal)
    (a : Application.t) : Result Application.t :=
  match f, args with
  | app_toggle_pause, [] => Ok (Application.toggle_pause env a)
  | app_next_song, [] => Application.next_song env a
  | app_prev_song, [] => Application.prev_song env a
  | app_seek, [py_num o; py_num r] =>
      Application.seek env (inject_Z o) (negb (r =? 0)%Z) a
  | app_toggle_stop, [] => Ok (Application.toggle_stop env a)
  | self_volume, [py_str s] => volume env s a
  | app_run_macro, [py_str c] => Ok (Application.run_macro c a)
  | win_playlist_add, [py_str p] => Ok (Application.add env p false a)
  | win_playlist_command_delete_all, [] =>
      Ok (Application.command_delete_all a)
  | app_quit, [] => Application.quit env 0 a
  | _, _ => Raise TypeError a
  end.

(** What [self.fd.readline()] yields.  The FIFO is opened in binary mode,
    so under Python 3 it is a [bytes] object; the text case is the line
    as a [str]. *)
Inductive Line :=
  | line_bytes (s : string)
  | line_text (s : string).

(** [FIFOControl.handle_command], given the line read.  On [bytes],
    [split(" ", 1)] raises [TypeError]: its separator is a [str]. *)
Definition handle_command (env : Env) (line : Line) (a : Application.t)
  : Result Application.t :=
  match line with
  | line_bytes _ => Raise TypeError a
  | line_text s =>
    match py_split_space1 (py_strip s) with
    | [] => Ok a
    | verb :: rest =>
      match commands !! verb with
      | Some (f, a0) =>
          let args := match a0 with
                      | Some l => l
                      | None => py_str <$> rest
                      end in
          call env f args a
      | None => Ok a
      end
    end
  end.

End FIFOControl.

(** ** Key bindings *)

Section PySetitem.
Context {A : Type}.

(** [l[i] = v] for an integer [i]: negative indices count from the end;
    [None] stands for [IndexError]. *)
Definition py_setitem (l : list A) (i : Z) (v : A) : option (list A) :=
  if (0 <=? i)%Z then
    if (i <? Z.of_nat (length l))%Z then Some (<[Z.to_nat i := v]> l)
    else None
  else if (0 <=? Z.of_nat (length l) + i)%Z
       then Some (<[Z.to_nat (Z.of_nat (length l) + i) := v]> l)
       else None.
End PySetitem.

Module Stack.

(** [self.items], a tuple with the top first. *)
Definition t (A : Type) : Type := list A.

Section Stack.
Context {A : Type}.

Definition init : t A := [].

(** [Stack.push(item)]. *)
Definition push (item : A) (items : t A) : t A := item :: items.

(** [Stack.pop()]: the item and the stack left; [None] stands for the
    [IndexError] of [self.items[0]], raised before anything is assigned. *)
Definition pop (items : t A) : option (A * t A) :=
  match items with
  | item :: rest => Some (item, rest)
  | [] => None
  end.
End Stack.
End Stack.

(** The [key] argument of [Keymap.bind]: a one-character string, a list or
    tuple of one-character strings and integers, a range, or a bare
    integer. *)
Inductive KeyItem :=
  | item_str (c : ascii)
  | item_int (k : Z).
Inductive KeyArg :=
  | key_str (c : ascii)
  | key_seq (l : list KeyItem)
  | key_range (start stop : Z)
  | key_int (k : Z).

(** [ord(c)]. *)
Definition ord (c : ascii) : Z := Z.of_nat (nat_of_ascii c).

Module Keymap.
Section Keymap.
Context {M : Type}.

(** [self.methods]: per key code [None] or the pair [(method, args)];
    [M] is the type of the methods that get bound. *)
Definition t := list (option (M * option (list FIFOControl.PyVal))).

(** [Keymap.__init__], [KEY_MAX] being [curses.KEY_MAX]. *)
Definition init (KEY_MAX : nat) : t := replicate KEY_MAX None.

(** [self.methods[ki] = (method, args)] for each [ki] in turn. *)
Fixpoint bind_each (kis : list Z)
    (v : M * option (list FIFOControl.PyVal)) (km : t) : Result t :=
  match kis with
  | [] => Ok km
  | ki :: rest =>
    match py_setitem km ki (Some v) with
    | Some km' => bind_each rest v km'
    | None => Raise IndexError km
    end
  end.

Definition item_code (i : KeyItem) : Z :=
  match i with
  | item_str c => ord c
  | item_int k => k
  end.

(** [Keymap.bind(key, method, args)]: one [if] per type of [key]; a key
    of another type, such as a bare integer, matches none of them. *)
Definition bind (key : KeyArg) (method : M)
    (args : option (list FIFOControl.PyVal)) (km : t) : Result t :=
  match key with
  | key_str c => bind_each [ord c] (method, args) km
  | key_seq l => bind_each (item_code <$> l) (method, args) km
  | key_range start stop => bind_each (seqZ start (stop - start)) (method, args) km
  | key_int _ => Ok km
  end.

(** [Keymap.process(key)]: the call it makes, [method( *args )] with
    [(key,)] for arguments bound as [None]; [None] where it returns 0. *)
Definition process (km : t) (key : Z) : option (M * list FIFOControl.PyVal) :=
  match py_getitem km key with
  | Some (Some (method, args)) =>
      Some (method, default [FIFOControl.py_num key] args)
  | _ => None
  end.
End Keymap.
End Keymap.

Module KeymapStack.
Section KeymapStack.
Context {M : Type}.

(** [KeymapStack.process(code)]: the call made by the first keymap, from
    the top, that is not [None] and handles the code. *)
Fixpoint process (items : Stack.t (option (@Keymap.t M))) (code : Z)
  : option (M * list FIFOControl.PyVal) :=
  match items with
  | [] => None
  | keymap :: rest =>
    match keymap with
    | Some km =>
      match Keymap.process km code with
      | Some c => Some c
      | None => process rest code
      end
    | None => process rest code
    end
  end.
End KeymapStack.
End KeymapStack.

(** ** Vocabulary of the properties *)

Section Vocabulary.
Import PlaylistWindow.
Implicit Types (w : PlaylistWindow.t) (p : Player.t) (env : Env).

(** At most one entry of the playlist is active. *)
Definition at_most_one_active w : Prop :=
  forall e1 e2, e1 ∈ buffer w -> e2 ∈ buffer w ->
    is_active w e1 = true -> is_active w e2 = true -> e1 = e2.

(** [w0] has the playlist of [w] and its active flags after
    [old and old.set_active(0)]. *)
Definition cleared w w0 : Prop :=
  buffer w0 = buffer w /\
  active w0 = active (clear_old (get_active_entry w) w).

(** The result of a forward advance in random mode once [new] is chosen,
    [nx] and [lf] being what is left of [next] and [left]: [new] is taken
    out of [prev] if it is there and put at its tail, the old active entry
    is cleared and [new] made active. *)
Definition chosen w (new : PlaylistEntry) (nx lf : list PlaylistEntry)
  : option PlaylistEntry * PlaylistWindow.t :=
  (Some new,
   update (set_active new true (clear_old (get_active_entry w)
     (with_pools (py_discard new (random_prev w) ++ [new]) nx lf w)))).

(** The three pools, one after the other. *)
Definition pools w : list PlaylistEntry :=
  random_prev w ++ random_next w ++ random_left w.

(** The playlist holds no object twice and, in random mode, the pools hold
    every track of the playlist exactly once. *)
Definition pools_inv w : Prop :=
  NoDup (buffer w) /\ (random w = true -> pools w ≡ₚ buffer w).

(** [w'] is [w] with its playlist in another order: the same entries, and
    the same pools, modes and flags. *)
Definition same_but_order w w' : Prop :=
  buffer w' ≡ₚ buffer w /\
  random_prev w' = random_prev w /\ random_next w' = random_next w /\
  random_left w' = random_left w /\
  random w' = random w /\ repeat w' = repeat w /\
  active w' = active w /\ tagged w' = tagged w.

(** Every id of the queue is one that [add] has handed out. *)
Definition ids_used (q : Timeout.t) : Prop :=
  forall k, is_Some (Timeout.dict q !! k) -> 1 <= k <= Timeout.next q.

(** The queue holds the delayed play that [play_tid] names and nothing
    else. *)
Definition one_pending (a : Application.t) : Prop :=
  match Application.play_tid a with
  | Some tid =>
      1 <= tid <= Timeout.next (Application.timeout a) /\
      exists v, Timeout.dict (Application.timeout a) = {[ tid := v ]}
  | None => Timeout.dict (Application.timeout a) = ∅
  end.

(** A player is found for the track: the pattern of the player matches
    its pathname and the program is found, so [play] does not end in
    "Player not found!". *)
Definition found env (e : PlaylistEntry) : bool :=
  re_files_search env (pathname e) && which_found env.

(** The player can play the track: the pattern of the player matches its
    pathname, the program is found and the control FIFO can be made. *)
Definition playable env (e : PlaylistEntry) : bool :=
  re_files_search env (pathname e) && which_found env && mkfifo_ok env.

(** The session was set up less than 2 seconds ago: the test of [poll]. *)
Definition in_grace env p : Prop :=
  exists t0, Player.time_setup p = Some t0 /\ ~ (t0 == 0)%Q /\
             (now env - t0 < 2)%Q.

(** The number of [os.fork] calls among [cs]. *)
Definition is_fork (c : Call) : bool :=
  match c with sys_fork => true | _ => false end.
Definition forks (cs : list Call) : nat := length (List.filter is_fork cs).

End Vocabulary.

(** ** Concrete playlists, players and lines *)

Definition track_A : PlaylistEntry := Entry 0 "A".
Definition track_B : PlaylistEntry := Entry 1 "B".
Definition track_C : PlaylistEntry := Entry 2 "C".
Definition track_D : PlaylistEntry := Entry 3 "D".

(** Surroundings in which the clock reads [t], the player is installed and
    plays every file, and the mixer answers. *)
Definition env_at (t : Q) : Env :=
  {| now := t; draw := 0; which_found := true;
     re_files_search := fun _ => true; mkfifo_ok := true;
     vp := pathname; listing := fun s => [s];
     mixer_dev := fun _ _ => inl "MASTER volume 55%"%string |}.

(** A player set up at time 100 whose process is gone. *)
Definition gone_player : Player.t :=
  Player.Make (Some track_A) false false (Some 100%Q) 0 0 0 false.

(** The end of a line read from the FIFO. *)
Definition nl : string := String (ascii_of_nat 10) EmptyString.

(** Two tracks, repeat and random on, both tracks played. *)
Definition both_played : PlaylistWindow.t :=
  PlaylistWindow.run
    [PlaylistWindow.op_append track_A; PlaylistWindow.op_append track_B;
     PlaylistWindow.op_toggle_repeat; PlaylistWindow.op_toggle_random;
     PlaylistWindow.op_forward 0; PlaylistWindow.op_forward 0]
    PlaylistWindow.init.

(** As [both_played], with repeat off. *)
Definition both_played_once : PlaylistWindow.t :=
  PlaylistWindow.run
    [PlaylistWindow.op_append track_A; PlaylistWindow.op_append track_B;
     PlaylistWindow.op_toggle_random;
     PlaylistWindow.op_forward 0; PlaylistWindow.op_forward 0]
    PlaylistWindow.init.

(** Four tracks in random mode, A then B played, then C started with the
    Enter key ([command_play]) while the cursor is on it. *)
Definition played_by_hand : PlaylistWindow.t :=
  Application.win_playlist
    (Application.command_play (env_at 0)
       (Application.with_win_playlist
          (PlaylistWindow.run
             [PlaylistWindow.op_append track_A; PlaylistWindow.op_append track_B;
              PlaylistWindow.op_append track_C; PlaylistWindow.op_append track_D;
              PlaylistWindow.op_toggle_random;
              PlaylistWindow.op_forward 0; PlaylistWindow.op_forward 0;
              PlaylistWindow.op_cursor_move 2]
             PlaylistWindow.init)
          Application.init)).

(** Two tracks in random mode, none played yet. *)
Definition two_unplayed : PlaylistWindow.t :=
  PlaylistWindow.run
    [PlaylistWindow.op_append track_A; PlaylistWindow.op_append track_B;
     PlaylistWindow.op_toggle_random]
    PlaylistWindow.init.

(** Three tracks in random mode, A played. *)
Definition one_played : PlaylistWindow.t :=
  PlaylistWindow.run
    [PlaylistWindow.op_append track_A; PlaylistWindow.op_append track_B;
     PlaylistWindow.op_append track_C; PlaylistWindow.op_toggle_random;
     PlaylistWindow.op_forward 0]
    PlaylistWindow.init.

(** A session in random mode with steps forward and back and a deletion. *)
Definition partition_ops : list PlaylistWindow.Op :=
  [PlaylistWindow.op_append track_A; PlaylistWindow.op_append track_B;
   PlaylistWindow.op_append track_C; PlaylistWindow.op_toggle_random;
   PlaylistWindow.op_forward 0; PlaylistWindow.op_forward 0;
   PlaylistWindow.op_backward; PlaylistWindow.op_tag track_A true;
   PlaylistWindow.op_delete; PlaylistWindow.op_forward 5].

(** The playlist A, B, C in sequential mode with its last, or its first,
    track active. *)
Definition last_active (rep : bool) : PlaylistWindow.t :=
  PlaylistWindow.with_repeat rep
    (PlaylistWindow.run
       [PlaylistWindow.op_append track_A; PlaylistWindow.op_append track_B;
        PlaylistWindow.op_append track_C; PlaylistWindow.op_forward 0;
        PlaylistWindow.op_forward 0; PlaylistWindow.op_forward 0]
       PlaylistWindow.init).
Definition first_active (rep : bool) : PlaylistWindow.t :=
  PlaylistWindow.with_repeat rep
    (PlaylistWindow.run
       [PlaylistWindow.op_append track_A; PlaylistWindow.op_append track_B;
        PlaylistWindow.op_append track_C; PlaylistWindow.op_forward 0]
       PlaylistWindow.init).

(** A player 30 seconds into a track of 500, with a forward step of 1. *)
Definition seeking_player : Player.t :=
  Player.with_step 1
    (Player.with_offset 30 (Player.with_length 500 Player.init)).

(** The application playing track A from its start. *)
Definition playing_app : Application.t :=
  Application.play (env_at 0) (Some track_A) (Some 0%Q) Application.init.

(** * Proofs *)

(** ** Python lists *)

Section PyListFacts.
Context {A : Type} `{EqDecision A}.
Implicit Types (x y : A) (l : list A).

Lemma py_pop_snoc l x : py_pop (l ++ [x]) = Some (x, l).
Proof.
  unfold py_pop. by rewrite last_snoc, removelast_last.
Qed.

Lemma py_pop_nil : py_pop (@nil A) = None.
Proof. reflexivity. Qed.

Lemma py_pop_Some l x l' : py_pop l = Some (x, l') -> l = l' ++ [x].
Proof.
  destruct l as [|a l0] using rev_ind; [done|].
  rewrite py_pop_snoc. by intros [= -> ->].
Qed.

Lemma py_pop_None l : py_pop l = None -> l = [].
Proof.
  destruct l as [|a l0] using rev_ind; [done|]. by rewrite py_pop_snoc.
Qed.

Lemma py_remove_None x l : py_remove x l = None <-> x ∉ l.
Proof.
  induction l as [|y l IH]; simpl.
  - split; [intros _; apply not_elem_of_nil | done].
  - rewrite not_elem_of_cons. destruct (decide (x = y)) as [->|Hne].
    + split; [done | by intros [? _]].
    + rewrite fmap_None, IH. tauto.
Qed.

Lemma py_remove_Some x l l' :
  py_remove x l = Some l' ->
  exists l1 l2, l = l1 ++ x :: l2 /\ l' = l1 ++ l2 /\ x ∉ l1.
Proof.
  revert l'. induction l as [|y l IH]; simpl; intros l'; [done|].
  destruct (decide (x = y)) as [->|Hne].
  - intros [= <-]. exists [], l. split_and!; [done..|apply not_elem_of_nil].
  - intros Hr. apply fmap_Some in Hr as (l0 & Hr & ->).
    destruct (IH _ Hr) as (l1 & l2 & -> & -> & Hn).
    exists (y :: l1), l2. split_and!; [done..|].
    rewrite not_elem_of_cons. done.
Qed.

Lemma py_discard_notin x l : x ∉ l -> py_discard x l = l.
Proof.
  intros Hn. unfold py_discard. by rewrite (proj2 (py_remove_None x l) Hn).
Qed.

Lemma py_discard_elem x l :
  x ∈ l ->
  exists l1 l2, l = l1 ++ x :: l2 /\ py_discard x l = l1 ++ l2 /\ x ∉ l1.
Proof.
  intros Hin. unfold py_discard.
  destruct (py_remove x l) as [l'|] eqn:Hr.
  - destruct (py_remove_Some _ _ _ Hr) as (l1 & l2 & ? & ? & ?).
    exists l1, l2. simpl. done.
  - apply py_remove_None in Hr. done.
Qed.

Lemma py_discard_perm x l : x ∈ l -> x :: py_discard x l ≡ₚ l.
Proof.
  intros Hin. destruct (py_discard_elem x l Hin) as (l1 & l2 & -> & -> & _).
  apply Permutation_middle.
Qed.

Lemma py_discard_snoc_ne x y l :
  x <> y -> py_discard x (l ++ [y]) = py_discard x l ++ [y].
Proof.
  intros Hne. unfold py_discard.
  induction l as [|z l IH]; simpl.
  - by rewrite decide_False.
  - destruct (decide (x = z)); [done|].
    destruct (py_remove x l) as [l'|] eqn:Hr; simpl in *.
    + destruct (py_remove x (l ++ [y])); simpl in *; congruence.
    + destruct (py_remove x (l ++ [y])); simpl in *; congruence.
Qed.

Lemma py_discard_subseteq x l : py_discard x l ⊆ l.
Proof.
  destruct (decide (x ∈ l)) as [Hin|Hn].
  - destruct (py_discard_elem x l Hin) as (l1 & l2 & -> & -> & _).
    intros z. rewrite !elem_of_app, elem_of_cons. tauto.
  - by rewrite py_discard_notin.
Qed.

Lemma py_index_Some x l i :
  py_index x l = Some i -> l !! i = Some x.
Proof.
  revert i. induction l as [|y l IH]; simpl; intros i; [done|].
  destruct (decide (x = y)) as [->|Hne].
  - by intros [= <-].
  - intros Hr. apply fmap_Some in Hr as (j & Hr & ->). simpl. auto.
Qed.

Lemma py_index_NoDup x l i :
  NoDup l -> l !! i = Some x -> py_index x l = Some i.
Proof.
  intros Hnd. revert i. induction Hnd as [|y l Hy Hnd IH]; intros i; [done|].
  destruct i as [|i]; simpl.
  - intros [= ->]. by rewrite decide_True.
  - intros Hl. rewrite decide_False.
    + by rewrite (IH _ Hl).
    + intros ->. apply Hy. by eapply list_elem_of_lookup_2.
Qed.

Lemma random_choice_elem r l x : random_choice r l = Some x -> x ∈ l.
Proof. unfold random_choice. apply list_elem_of_lookup_2. Qed.

Lemma random_choice_is_Some r l : l <> [] -> is_Some (random_choice r l).
Proof.
  intros Hl. unfold random_choice. apply lookup_lt_is_Some.
  apply Nat.mod_upper_bound. destruct l; simpl; [done|lia].
Qed.

Lemma random_choice_any l x : x ∈ l -> exists r, random_choice r l = Some x.
Proof.
  intros Hin. apply list_elem_of_lookup_1 in Hin as [i Hi].
  exists i. unfold random_choice.
  rewrite Nat.mod_small; [done|]. by eapply lookup_lt_Some.
Qed.
End PyListFacts.

Section FilterFacts.
Context {A : Type}.
Implicit Types (f : A -> bool) (l : list A).

Lemma filter_perm f l k : l ≡ₚ k -> List.filter f l ≡ₚ List.filter f k.
Proof.
  induction 1 as [|x l k _ IH|x y l|l k m _ IH1 _ IH2]; simpl.
  - done.
  - destruct (f x); [by constructor | done].
  - destruct (f x), (f y); try done. apply perm_swap.
  - by etrans.
Qed.

Lemma filter_NoDup f l : NoDup l -> NoDup (List.filter f l).
Proof. rewrite !NoDup_ListNoDup. apply List.NoDup_filter. Qed.

(** Where exactly one position of a duplicate-free list fails the test,
    filtering deletes that position. *)
Lemma filter_delete f l i c :
  NoDup l -> l !! i = Some c ->
  (forall x, x ∈ l -> f x = true <-> x <> c) ->
  List.filter f l = delete i l.
Proof.
  intros Hnd. revert i. induction Hnd as [|y l Hy Hnd IH]; intros i Hi Hf; [done|].
  destruct i as [|i]; simpl in *.
  - injection Hi as ->.
    destruct (f c) eqn:Hc.
    + apply Hf in Hc; [done | apply list_elem_of_here].
    + apply forallb_filter_id, forallb_forall. intros x Hx.
      apply list_elem_of_In in Hx. apply Hf; [by apply list_elem_of_further|].
      by intros ->.
  - assert (Hne : y <> c).
    { intros ->. apply Hy. by eapply list_elem_of_lookup_2. }
    rewrite (proj2 (Hf y (list_elem_of_here _ _)) Hne). f_equal.
    apply IH; [done|]. intros x Hx. apply Hf. by apply list_elem_of_further.
Qed.
End FilterFacts.

(** ** The playlist *)

Section PlaylistFacts.
Import PlaylistWindow.
Implicit Types (w : PlaylistWindow.t) (e o new : PlaylistEntry).


Lemma is_active_set_active w e v e' :
  is_active (set_active e v w) e' =
  if decide (e' = e) then v else is_active w e'.
Proof.
  unfold is_active, set_active; destruct v; simpl;
    destruct (decide (e' = e)) as [->|Hne].
  - apply bool_decide_eq_true. set_solver.
  - apply bool_decide_ext. set_solver.
  - apply bool_decide_eq_false. set_solver.
  - apply bool_decide_ext. set_solver.
Qed.

Lemma get_active_entry_Some w o :
  get_active_entry w = Some o -> o ∈ buffer w /\ is_active w o = true.
Proof.
  unfold get_active_entry. intros Hf. apply find_some in Hf as [Hin Ha].
  split; [by apply list_elem_of_In | done].
Qed.

Lemma get_active_entry_None w e :
  get_active_entry w = None -> e ∈ buffer w -> is_active w e = false.
Proof.
  unfold get_active_entry. intros Hf Hin.
  apply (find_none _ _ Hf). by apply list_elem_of_In.
Qed.

Lemma get_active_entry_unique w e :
  at_most_one_active w -> e ∈ buffer w -> is_active w e = true ->
  get_active_entry w = Some e.
Proof.
  intros Hone Hin Ha. destruct (get_active_entry w) as [o|] eqn:Hg.
  - apply get_active_entry_Some in Hg as [Hino Hao].
    f_equal. by apply Hone.
  - rewrite (get_active_entry_None _ _ Hg Hin) in Ha. done.
Qed.

(** Clearing the active entry leaves no entry of the playlist active. *)
Lemma clear_old_none_active w e :
  at_most_one_active w -> e ∈ buffer w ->
  is_active (clear_old (get_active_entry w) w) e = false.
Proof.
  intros Hone Hin. destruct (get_active_entry w) as [o|] eqn:Hg; simpl.
  - rewrite is_active_set_active. destruct (decide (e = o)) as [|Hne]; [done|].
    apply get_active_entry_Some in Hg as [Hino Hao].
    apply not_true_is_false. intros Ha. apply Hne. by apply Hone.
  - by apply (get_active_entry_None w).
Qed.

(** The state [activate] leaves: [new] is active, and no other entry of
    the playlist is when none was before. *)
Lemma activate_single w new w' (B : list PlaylistEntry) :
  buffer w = B ->
  (forall e, e ∈ B -> is_active w e = false) ->
  activate new w = (Some new, w') ->
  buffer w' = B /\ is_active w' new = true /\
  (forall e, e ∈ B -> is_active w' e = true -> e = new).
Proof.
  intros HB Hnone [= <-]. split_and!.
  - done.
  - change (is_active (set_active new true w) new = true).
    rewrite is_active_set_active. by rewrite decide_True.
  - intros e Hin. change (is_active (set_active new true w) e = true -> e = new).
    rewrite is_active_set_active. destruct (decide (e = new)); [done|].
    by rewrite (Hnone e Hin).
Qed.


Lemma change_active_entry_Some d r w new w' :
  change_active_entry d r w = (Some new, w') ->
  exists w0, cleared w w0 /\ w' = update (set_active new true w0).
Proof.
  unfold change_active_entry, activate, cleared.
  intros Hc. repeat case_match; simplify_eq;
    (eexists; split; [|reflexivity]);
    split; unfold clear_old; repeat case_match; simplify_eq; done.
Qed.

Lemma change_active_entry_None d r w w' :
  change_active_entry d r w = (None, w') ->
  buffer w' = buffer w /\
  (active w' = active w \/ active w' = active (clear_old (get_active_entry w) w)).
Proof.
  unfold change_active_entry, activate.
  intros Hc. repeat case_match; simplify_eq; split; try done; auto.
Qed.


Lemma is_active_ext w1 w2 e : active w1 = active w2 -> is_active w1 e = is_active w2 e.
Proof. unfold is_active. by intros ->. Qed.

Lemma cleared_none_active w w0 e :
  at_most_one_active w -> cleared w w0 -> e ∈ buffer w ->
  is_active w0 e = false.
Proof.
  intros Hone [_ Ha] Hin. rewrite (is_active_ext _ _ e Ha).
  by apply clear_old_none_active.
Qed.

Lemma at_most_one_activate w w0 new :
  at_most_one_active w -> cleared w w0 ->
  at_most_one_active (update (set_active new true w0)).
Proof.
  intros Hone Hcl e1 e2. change (buffer (update (set_active new true w0))) with (buffer w0).
  destruct Hcl as [Hb Ha]. rewrite Hb. intros H1 H2.
  change (is_active (set_active new true w0) e1 = true ->
          is_active (set_active new true w0) e2 = true -> e1 = e2).
  rewrite !is_active_set_active.
  rewrite (cleared_none_active w w0 e1), (cleared_none_active w w0 e2); try done.
  repeat case_decide; congruence.
Qed.

Lemma at_most_one_same_or_cleared w w' :
  at_most_one_active w -> buffer w' = buffer w ->
  (active w' = active w \/ active w' = active (clear_old (get_active_entry w) w)) ->
  at_most_one_active w'.
Proof.
  intros Hone Hb [Ha|Ha] e1 e2; rewrite Hb; intros H1 H2;
    rewrite (is_active_ext _ _ e1 Ha), (is_active_ext _ _ e2 Ha).
  - by apply Hone.
  - by rewrite (clear_old_none_active w e1).
Qed.

Lemma play_win_playlist env entry offset a :
  Application.win_playlist (Application.play env entry offset a) =
  Application.win_playlist a.
Proof.
  unfold Application.play, Application.player_not_found, Application.on_player.
  repeat case_match; reflexivity.
Qed.

Lemma current_buffer w : buffer (current w).2 = buffer w /\ active (current w).2 = active w.
Proof. unfold current. repeat case_match; done. Qed.

Lemma current_elem w e : (current w).1 = Some e -> e ∈ buffer w.
Proof.
  unfold current. repeat case_match; simpl; try done; apply list_elem_of_lookup_2.
Qed.

(** C8.  [change_active_entry] (either direction, either mode) and
    [command_play] keep at most one entry of the playlist active: the
    active flags afterwards are those before with the previously active
    entry cleared, then the new one set. *)
Theorem at_most_one_active_preserved (env : Env) :
  (forall d r w, at_most_one_active w ->
     at_most_one_active (change_active_entry d r w).2 /\
     forall new, (change_active_entry d r w).1 = Some new ->
       active (change_active_entry d r w).2 =
         active (clear_old (get_active_entry w) w) ∪ {[ new ]} /\
       (forall o, get_active_entry w = Some o -> o <> new ->
          is_active (change_active_entry d r w).2 o = false)) /\
  (forall a, at_most_one_active (Application.win_playlist a) ->
     at_most_one_active
       (Application.win_playlist (Application.command_play env a)) /\
     forall e, (current (Application.win_playlist a)).1 = Some e ->
       active (Application.win_playlist (Application.command_play env a)) =
         active (clear_old (get_active_entry (Application.win_playlist a))
                           (Application.win_playlist a)) ∪ {[ e ]}).
Proof.
  split.
  - intros d r w Hone.
    destruct (change_active_entry d r w) as [[new|] w'] eqn:Hc; simpl.
    + destruct (change_active_entry_Some _ _ _ _ _ Hc) as (w0 & Hcl & ->).
      split; [by eapply at_most_one_activate|].
      intros ? [= <-]. destruct Hcl as [Hb Ha]. split.
      * simpl. by rewrite Ha.
      * intros o Ho Hne.
        change (is_active (set_active new true w0) o = false).
        rewrite is_active_set_active, decide_False by done.
        rewrite (is_active_ext _ _ o Ha), Ho. simpl.
        rewrite is_active_set_active. by rewrite decide_True.
    + destruct (change_active_entry_None _ _ _ _ Hc) as [Hb Ha].
      split; [by eapply at_most_one_same_or_cleared|done].
  - intros a Hone. unfold Application.command_play.
    set (w := Application.win_playlist a) in *.
    destruct (buffer w) as [|b bs] eqn:Hbuf.
    + split; [done|]. unfold current. rewrite Hbuf. done.
    + set (w1 := clear_old (get_active_entry w) w).
      assert (Hb1 : buffer w1 = buffer w).
      { subst w1. unfold clear_old. by case_match. }
      assert (Hcur : (current w).1 = (current w1).1).
      { subst w1. destruct (get_active_entry w); [|done].
        unfold current; simpl. by repeat case_match. }
      destruct (current w1) as [cur w2] eqn:Hcw.
      pose proof (current_buffer w1) as [Hb2 Ha2]. rewrite Hcw in Hb2, Ha2.
      simpl in Hb2, Ha2, Hcur. cbv beta iota. destruct cur as [e|].
      * rewrite play_win_playlist. simpl. split.
        -- apply (at_most_one_activate w w2 e Hone).
           split; [by rewrite Hb2 | exact Ha2].
        -- intros e0. rewrite Hcur. intros [= <-]. simpl. by rewrite Ha2.
      * simpl. split; [|by rewrite Hcur].
        apply (at_most_one_same_or_cleared w w2 Hone);
          [by rewrite Hb2 | right; exact Ha2].
Qed.

(** Track A of the playlist A, B, C is active.  A forward advance makes B
    active and clears A; Enter with the cursor on C makes C active and
    clears A. *)
Lemma at_most_one_active_preserved_witness :
  let w := first_active false in
  let a := Application.with_win_playlist (cursor_move 2 w) Application.init in
  at_most_one_active w /\ get_active_entry w = Some track_A /\
  (change_active_entry 1 0 w).1 = Some track_B /\
  at_most_one_active (change_active_entry 1 0 w).2 /\
  is_active (change_active_entry 1 0 w).2 track_A = false /\
  is_active (change_active_entry 1 0 w).2 track_B = true /\
  (current (Application.win_playlist a)).1 = Some track_C /\
  at_most_one_active
    (Application.win_playlist (Application.command_play (env_at 0) a)) /\
  is_active (Application.win_playlist (Application.command_play (env_at 0) a))
            track_A = false /\
  is_active (Application.win_playlist (Application.command_play (env_at 0) a))
            track_C = true.
Proof.
  intros w a.
  assert (HA : forall w', active w' = active w ->
            forall e, is_active w' e = true -> e = track_A).
  { intros w' Hw' e He. unfold is_active in He. apply bool_decide_eq_true in He.
    rewrite Hw' in He.
    replace (active w) with ({[ track_A ]} : gset PlaylistEntry) in He
      by (vm_compute; reflexivity).
    by apply elem_of_singleton in He. }
  assert (Hone : at_most_one_active w).
  { intros e1 e2 _ _ H1 H2.
    by rewrite (HA w eq_refl e1 H1), (HA w eq_refl e2 H2). }
  assert (Hone' : at_most_one_active (Application.win_playlist a)).
  { intros e1 e2 _ _ H1 H2.
    by rewrite (HA _ eq_refl e1 H1), (HA _ eq_refl e2 H2). }
  destruct (at_most_one_active_preserved (env_at 0)) as [Hcae Hplay].
  destruct (Hcae 1%Z 0 w Hone) as [H1 H2].
  destruct (H2 track_B eq_refl) as [Hact Hold].
  destruct (Hplay a Hone') as [H3 H4].
  specialize (H4 track_C eq_refl).
  split_and!.
  - exact Hone.
  - reflexivity.
  - reflexivity.
  - exact H1.
  - apply (Hold track_A eq_refl). discriminate.
  - unfold is_active. rewrite Hact. apply bool_decide_eq_true. set_solver.
  - reflexivity.
  - exact H3.
  - unfold is_active. rewrite H4. vm_compute. reflexivity.
  - unfold is_active. rewrite H4. apply bool_decide_eq_true. set_solver.
Defined.


(** Sequential mode with an active entry, as one equation. *)
Lemma sequential_step w o i d r :
  random w = false -> get_active_entry w = Some o ->
  py_index o (buffer w) = Some i ->
  change_active_entry d r w =
    let index := (Z.of_nat i + d)%Z in
    let len := Z.of_nat (length (buffer w)) in
    if negb (((0 <=? index)%Z && (index <? len)%Z) || repeat w)
    then (None, w)
    else match py_getitem (buffer w) (index mod len) with
         | Some new => activate new (set_active o false w)
         | None => (None, set_active o false w)
         end.
Proof.
  intros Hr Hg Hi. unfold change_active_entry. rewrite Hr, Hg, Hi.
  destruct (buffer w) eqn:Hb.
  2:{ change (buffer (set_active o false w)) with (buffer w). by rewrite Hb. }
  apply get_active_entry_Some in Hg as [Hin _]. rewrite Hb in Hin.
  by apply elem_of_nil in Hin.
Qed.

(** Sequential mode without an active entry. *)
Lemma sequential_first w d r :
  random w = false -> get_active_entry w = None ->
  change_active_entry d r w =
    match buffer w !! 0 with
    | Some new => activate new w
    | None => (None, w)
    end.
Proof.
  intros Hr Hg. unfold change_active_entry. rewrite Hr, Hg.
  by destruct (buffer w).
Qed.

Lemma py_getitem_nat {A} (l : list A) (n : nat) :
  py_getitem l (Z.of_nat n) = l !! n.
Proof.
  unfold py_getitem. rewrite (proj2 (Z.leb_le 0 (Z.of_nat n))) by lia.
  by rewrite Nat2Z.id.
Qed.

(** C7.  Sequential mode.  Forward from the last track: nothing is
    returned and nothing changes with repeat off, the track at index 0
    is returned and made active with repeat on.  Backward from the first
    track: the same, wrapping to the last track.  With no active track
    an advance returns the track at index 0.  On the playlist A, B, C
    with repeat off and no active track, four forward advances return A,
    B, C and then nothing. *)
Theorem sequential_advance :
  (forall w o r, random w = false -> get_active_entry w = Some o ->
     py_index o (buffer w) = Some (length (buffer w) - 1) ->
     (repeat w = false -> change_active_entry 1 r w = (None, w)) /\
     (repeat w = true -> exists new, buffer w !! 0 = Some new /\
        change_active_entry 1 r w =
          (Some new, update (set_active new true (set_active o false w))))) /\
  (forall w o r, random w = false -> get_active_entry w = Some o ->
     py_index o (buffer w) = Some 0 ->
     (repeat w = false -> change_active_entry (-1) r w = (None, w)) /\
     (repeat w = true -> exists new, last (buffer w) = Some new /\
        change_active_entry (-1) r w =
          (Some new, update (set_active new true (set_active o false w))))) /\
  (forall w d r, random w = false -> get_active_entry w = None ->
     (change_active_entry d r w).1 = buffer w !! 0 /\
     forall new, buffer w !! 0 = Some new ->
       change_active_entry d r w = (Some new, update (set_active new true w))) /\
  (forall w A B C r1 r2 r3 r4,
     buffer w = [A; B; C] -> NoDup [A; B; C] ->
     random w = false -> repeat w = false -> get_active_entry w = None ->
     let s1 := change_active_entry 1 r1 w in
     let s2 := change_active_entry 1 r2 s1.2 in
     let s3 := change_active_entry 1 r3 s2.2 in
     let s4 := change_active_entry 1 r4 s3.2 in
     (s1.1 = Some A /\ get_active_entry s1.2 = Some A) /\
     (s2.1 = Some B /\ get_active_entry s2.2 = Some B) /\
     (s3.1 = Some C /\ get_active_entry s3.2 = Some C) /\
     s4 = (None, s3.2)).
Proof.
  split_and!.
  - intros w o r Hr Hg Hi.
    assert (Hlen : 0 < length (buffer w)).
    { apply get_active_entry_Some in Hg as [Hin _].
      destruct (buffer w); [by apply elem_of_nil in Hin | simpl; lia]. }
    rewrite (sequential_step w o _ 1 r Hr Hg Hi). cbv zeta.
    replace (Z.of_nat (length (buffer w) - 1) + 1)%Z
      with (Z.of_nat (length (buffer w))) by lia.
    rewrite Z.ltb_irrefl, andb_false_r, Z_mod_same_full. simpl.
    split; intros ->; simpl; [done|].
    change 0%Z with (Z.of_nat 0). rewrite py_getitem_nat.
    destruct (buffer w) as [|new l] eqn:Hb; [simpl in Hlen; lia|].
    exists new. done.
  - intros w o r Hr Hg Hi.
    assert (Hlen : 0 < length (buffer w)).
    { apply get_active_entry_Some in Hg as [Hin _].
      destruct (buffer w); [by apply elem_of_nil in Hin | simpl; lia]. }
    rewrite (sequential_step w o _ (-1) r Hr Hg Hi). cbv zeta.
    change (Z.of_nat 0 + -1)%Z with (-1)%Z. simpl (0 <=? -1)%Z. simpl.
    split; intros ->; simpl; [done|].
    replace (-1 mod Z.of_nat (length (buffer w)))%Z
      with (Z.of_nat (length (buffer w) - 1)).
    2:{ apply Z.mod_unique with (q := (-1)%Z); lia. }
    rewrite py_getitem_nat.
    destruct (last (buffer w)) as [new|] eqn:Hl.
    + exists new. split; [done|].
      rewrite last_lookup in Hl. 
      replace (length (buffer w) - 1) with (pred (length (buffer w))) by lia.
      by rewrite Hl.
    + apply last_None in Hl. rewrite Hl in Hlen. simpl in Hlen. lia.
  - intros w d r Hr Hg. rewrite (sequential_first w d r Hr Hg).
    split; [by destruct (buffer w !! 0)|]. by intros new ->.
  - intros w A B C r1 r2 r3 r4 Hb Hnd Hr Hrep Hg.
    apply NoDup_cons in Hnd as [HA Hnd]. apply NoDup_cons in Hnd as [HB _].
    assert (HAB : A <> B) by set_solver.
    assert (HAC : A <> C) by set_solver.
    assert (HBC : B <> C) by set_solver.
    assert (HnA : is_active w A = false).
    { apply (get_active_entry_None w A Hg). rewrite Hb. set_solver. }
    assert (HnB : is_active w B = false).
    { apply (get_active_entry_None w B Hg). rewrite Hb. set_solver. }
    assert (HnC : is_active w C = false).
    { apply (get_active_entry_None w C Hg). rewrite Hb. set_solver. }
    (* first advance *)
    rewrite (sequential_first w 1 r1 Hr Hg), Hb. simpl.
    set (w1 := update (set_active A true w)).
    assert (Hg1 : get_active_entry w1 = Some A).
    { unfold get_active_entry. subst w1. simpl. rewrite Hb. simpl.
      change (is_active (update (set_active A true w)) A)
        with (is_active (set_active A true w) A).
      by rewrite is_active_set_active, decide_True. }
    (* second advance *)
    assert (H2 : change_active_entry 1 r2 w1 =
                 (Some B, update (set_active B true (set_active A false w1)))).
    { rewrite (sequential_step w1 A 0 1 r2 Hr Hg1).
      - subst w1. simpl. rewrite Hb, Hrep. reflexivity.
      - subst w1. simpl. rewrite Hb. simpl. by rewrite decide_True. }
    rewrite H2. simpl.
    set (w2 := update (set_active B true (set_active A false w1))).
    assert (Hg2 : get_active_entry w2 = Some B).
    { unfold get_active_entry. subst w2 w1. simpl. rewrite Hb. simpl.
      unfold is_active at 1. simpl.
      rewrite bool_decide_eq_false_2 by set_solver.
      unfold is_active at 1. simpl.
      by rewrite bool_decide_eq_true_2 by set_solver. }
    assert (H3 : change_active_entry 1 r3 w2 =
                 (Some C, update (set_active C true (set_active B false w2)))).
    { rewrite (sequential_step w2 B 1 1 r3 Hr Hg2).
      - subst w2 w1. simpl. rewrite Hb, Hrep. reflexivity.
      - subst w2 w1. simpl. rewrite Hb. simpl.
        rewrite decide_False by done. by rewrite decide_True. }
    rewrite H3. simpl.
    set (w3 := update (set_active C true (set_active B false w2))).
    assert (Hg3 : get_active_entry w3 = Some C).
    { unfold get_active_entry. subst w3 w2 w1. simpl. rewrite Hb. simpl.
      unfold is_active in HnA, HnB.
      apply bool_decide_eq_false in HnA, HnB.
      unfold is_active at 1. simpl.
      rewrite bool_decide_eq_false_2 by set_solver.
      unfold is_active at 1. simpl.
      rewrite bool_decide_eq_false_2 by set_solver.
      unfold is_active at 1. simpl.
      by rewrite bool_decide_eq_true_2 by set_solver. }
    assert (H4 : change_active_entry 1 r4 w3 = (None, w3)).
    { rewrite (sequential_step w3 C 2 1 r4 Hr Hg3).
      - subst w3 w2 w1. simpl. rewrite Hb, Hrep. reflexivity.
      - subst w3 w2 w1. simpl. rewrite Hb. simpl.
        rewrite !decide_False by done. by rewrite decide_True. }
    rewrite H4. done.
Qed.

(** The playlist A, B, C at its ends, and a first advance. *)
Lemma sequential_advance_witness :
  change_active_entry 1 0 (last_active false) = (None, last_active false) /\
  (change_active_entry 1 0 (last_active true)).1 = Some track_A /\
  change_active_entry (-1) 0 (first_active false) = (None, first_active false) /\
  (change_active_entry (-1) 0 (first_active true)).1 = Some track_C /\
  (change_active_entry 1 0 (append track_A init)).1 = Some track_A.
Proof.
  destruct sequential_advance as (Hfwd & Hbwd & Hfirst & _).
  split_and!.
  - apply (Hfwd (last_active false) track_C 0); reflexivity.
  - destruct (proj2 (Hfwd (last_active true) track_C 0 eq_refl eq_refl eq_refl)
                eq_refl) as (new & Hnew & ->).
    simpl. rewrite <- Hnew. reflexivity.
  - apply (Hbwd (first_active false) track_A 0); reflexivity.
  - destruct (proj2 (Hbwd (first_active true) track_A 0 eq_refl eq_refl eq_refl)
                eq_refl) as (new & Hnew & ->).
    simpl. rewrite <- Hnew. reflexivity.
  - rewrite (proj1 (Hfirst (append track_A init) 1%Z 0 eq_refl eq_refl)).
    reflexivity.
Defined.


Lemma chosen_random_prev w new nx lf :
  random_prev (chosen w new nx lf).2 =
  py_discard new (random_prev w) ++ [new].
Proof. unfold chosen. by destruct (get_active_entry w). Qed.

Lemma random_forward_next w r nx new :
  random w = true -> buffer w <> [] -> random_next w = nx ++ [new] ->
  change_active_entry 1 r w = chosen w new nx (random_left w).
Proof.
  intros Hr Hb Hn. unfold change_active_entry. rewrite Hr, Hn, py_pop_snoc.
  by destruct (buffer w).
Qed.

Lemma random_forward_left w r :
  random w = true -> buffer w <> [] ->
  random_next w = [] -> random_left w <> [] ->
  exists new, random_choice r (random_left w) = Some new /\
    change_active_entry 1 r w =
      chosen w new [] (py_discard new (random_left w)).
Proof.
  intros Hr Hb Hn Hl.
  destruct (random_choice_is_Some r (random_left w) Hl) as [new Hc].
  exists new. split; [done|].
  unfold change_active_entry. rewrite Hr, Hn. simpl.
  destruct (buffer w); [done|]. destruct (random_left w) eqn:Hleft; [done|].
  rewrite Hleft, Hc, Hn. reflexivity.
Qed.

Lemma random_forward_refill w r :
  random w = true -> buffer w <> [] ->
  random_next w = [] -> random_left w = [] -> repeat w = true ->
  exists new, random_choice r (buffer w) = Some new /\
    change_active_entry 1 r w =
      chosen w new [] (py_discard new (buffer w)).
Proof.
  intros Hr Hb Hn Hl Hrep.
  destruct (random_choice_is_Some r (buffer w) Hb) as [new Hc].
  exists new. split; [done|].
  unfold change_active_entry. rewrite Hr, Hn, Hl, Hrep. simpl.
  destruct (buffer w) eqn:Hbuf; [done|].
  rewrite Hc. reflexivity.
Qed.

Lemma random_forward_end w r :
  random w = true -> 
  random_next w = [] -> random_left w = [] -> repeat w = false ->
  change_active_entry 1 r w = (None, w).
Proof.
  intros Hr Hn Hl Hrep.
  unfold change_active_entry. rewrite Hr, Hn, Hl, Hrep. simpl.
  by destruct (buffer w).
Qed.

(** A forward advance in random mode that returns a track leaves a state
    of the form [chosen]. *)
Lemma random_forward_Some w r new w1 :
  random w = true ->
  change_active_entry 1 r w = (Some new, w1) ->
  exists nx lf, w1 = (chosen w new nx lf).2.
Proof.
  intros Hr Hc.
  assert (Hb : buffer w <> []).
  { intros Hnil. unfold change_active_entry in Hc. by rewrite Hnil in Hc. }
  destruct (random_next w) as [|x nx _] eqn:Hn using rev_ind.
  - destruct (random_left w) as [|y lf] eqn:Hl.
    + destruct (repeat w) eqn:Hrep.
      * destruct (random_forward_refill w r Hr Hb Hn Hl Hrep)
          as (n' & _ & Heq).
        rewrite Heq in Hc. injection Hc as -> <-. eauto.
      * by rewrite (random_forward_end w r Hr Hn Hl Hrep) in Hc.
    + destruct (random_forward_left w r Hr Hb Hn) as (n' & _ & Heq).
      { by rewrite Hl. }
      rewrite Heq in Hc. injection Hc as -> <-. eauto.
  - rewrite (random_forward_next w r nx x Hr Hb Hn) in Hc.
    injection Hc as -> <-. eauto.
Qed.

(** C1.  Random mode, forward, on a playlist that is not empty.  The
    track returned is the tail of [next] if there is one; else the track
    of [left] the generator draws, taken out of [left]; else, with
    repeat on, a track drawn from [left] refilled with all tracks; else
    nothing is returned and the state is unchanged.  Every track of
    [left] is the one drawn for some number.  The chosen track is
    taken out of [prev] if it is there and put at the tail of [prev]; it
    is active afterwards, and the only active track of a playlist that
    had at most one. *)
Theorem random_forward (w : PlaylistWindow.t) (r : nat) :
  random w = true -> buffer w <> [] ->
  (forall nx new, random_next w = nx ++ [new] ->
     change_active_entry 1 r w = chosen w new nx (random_left w)) /\
  (random_next w = [] -> random_left w <> [] ->
     exists new, random_choice r (random_left w) = Some new /\
       new ∈ random_left w /\
       change_active_entry 1 r w =
         chosen w new [] (py_discard new (random_left w))) /\
  (random_next w = [] -> random_left w = [] -> repeat w = true ->
     exists new, random_choice r (buffer w) = Some new /\
       new ∈ buffer w /\
       change_active_entry 1 r w =
         chosen w new [] (py_discard new (buffer w))) /\
  (random_next w = [] -> random_left w = [] -> repeat w = false ->
     change_active_entry 1 r w = (None, w)) /\
  (random_next w = [] -> forall e, e ∈ random_left w ->
     exists r', (change_active_entry 1 r' w).1 = Some e) /\
  (forall new w', change_active_entry 1 r w = (Some new, w') ->
     buffer w' = buffer w /\
     random_prev w' = py_discard new (random_prev w) ++ [new] /\
     is_active w' new = true /\
     (at_most_one_active w ->
      forall e, e ∈ buffer w' -> is_active w' e = true -> e = new)).
Proof.
  intros Hr Hb. split_and!.
  - intros nx new. by apply random_forward_next.
  - intros Hn Hl.
    destruct (random_forward_left w r Hr Hb Hn Hl) as (new & Hc & Heq).
    exists new. split_and!; [done| |done]. by eapply random_choice_elem.
  - intros Hn Hl Hrep.
    destruct (random_forward_refill w r Hr Hb Hn Hl Hrep) as (new & Hc & Heq).
    exists new. split_and!; [done| |done]. by eapply random_choice_elem.
  - by apply random_forward_end.
  - intros Hn e He.
    destruct (random_choice_any (random_left w) e He) as [r' Hr'].
    exists r'.
    destruct (random_forward_left w r' Hr Hb Hn) as (new & Hc & ->).
    { intros Hnil. rewrite Hnil in He. by apply elem_of_nil in He. }
    rewrite Hr' in Hc. by injection Hc as ->.
  - intros new w' Hc.
    assert (Hprev : random_prev w' = py_discard new (random_prev w) ++ [new]).
    { destruct (random_forward_Some w r new w' Hr Hc) as (nx & lf & ->).
      apply chosen_random_prev. }
    destruct (change_active_entry_Some _ _ _ _ _ Hc) as (w0 & Hcl & ->).
    split_and!.
    + apply Hcl.
    + done.
    + change (is_active (set_active new true w0) new = true).
      by rewrite is_active_set_active, decide_True.
    + intros Hone e. change (buffer (update (set_active new true w0)))
        with (buffer w0). destruct Hcl as [Hbuf Hact]. rewrite Hbuf.
      intros Hin. change (is_active (set_active new true w0) e = true -> e = new).
      rewrite is_active_set_active. destruct (decide (e = new)); [done|].
      by rewrite (cleared_none_active w w0 e Hone).
Qed.

(** The first forward advance over two tracks, drawing the second. *)
Lemma random_forward_witness :
  random two_unplayed = true /\ buffer two_unplayed <> [] /\
  change_active_entry 1 1 two_unplayed =
    chosen two_unplayed track_B [] [track_A] /\
  get_active_entry (change_active_entry 1 1 two_unplayed).2 = Some track_B.
Proof.
  assert (Hne : buffer two_unplayed <> []) by discriminate.
  destruct (random_forward two_unplayed 1 eq_refl Hne) as (_ & Hleft & _).
  destruct (Hleft eq_refl) as (new & Hc & _ & Heq); [discriminate|].
  vm_compute in Hc. injection Hc as <-.
  split_and!; [reflexivity | exact Hne | exact Heq | ].
  rewrite Heq. reflexivity.
Defined.

Lemma partition_NoDup w : NoDup (buffer w) -> pools w ≡ₚ buffer w -> NoDup (pools w).
Proof. intros Hnd Hp. by rewrite Hp. Qed.

Lemma pools_inv_toggle_random w :
  NoDup (buffer w) -> pools_inv (toggle_random w).
Proof. intros Hnd. split; [done|]. intros _. by unfold pools. Qed.

Lemma pools_inv_append w item :
  item ∉ buffer w -> pools_inv w -> pools_inv (append item w).
Proof.
  intros Hnew [Hnd Hp]. unfold append. simpl.
  destruct (random w) eqn:Hr; (split; simpl).
  - apply NoDup_app. split_and!; [done| |apply NoDup_singleton].
    intros x Hx ->%list_elem_of_singleton. done.
  - intros _. unfold pools. simpl.
    rewrite !app_assoc. apply Permutation_app_tail.
    rewrite <- !app_assoc. by apply Hp.
  - apply NoDup_app. split_and!; [done| |apply NoDup_singleton].
    intros x Hx ->%list_elem_of_singleton. done.
  - by rewrite Hr.
Qed.

(** A forward advance that has chosen [new] from [next] or [left]. *)
Lemma pools_inv_chosen w new nx lf :
  pools_inv w -> random w = true ->
  new :: nx ++ lf ≡ₚ random_next w ++ random_left w ->
  pools_inv (chosen w new nx lf).2.
Proof.
  intros [Hnd Hp] Hr Hperm. specialize (Hp Hr).
  assert (Hshape : buffer (chosen w new nx lf).2 = buffer w /\
                   random (chosen w new nx lf).2 = random w /\
                   pools (chosen w new nx lf).2 =
                     (py_discard new (random_prev w) ++ [new]) ++ nx ++ lf).
  { unfold chosen, pools. by destruct (get_active_entry w). }
  destruct Hshape as (Hb & Hrand & Hpools).
  split; [by rewrite Hb|]. intros _. rewrite Hpools, Hb.
  assert (Hnotin : new ∉ random_prev w).
  { pose proof (partition_NoDup w Hnd Hp) as Hndp. unfold pools in Hndp.
    apply NoDup_app in Hndp as (_ & Hdis & _). intros Hin.
    apply (Hdis new Hin). rewrite <- Hperm. apply list_elem_of_here. }
  rewrite (py_discard_notin _ _ Hnotin), <- app_assoc. simpl.
  rewrite Hperm. exact Hp.
Qed.

Lemma change_active_entry_frame d r w :
  buffer (change_active_entry d r w).2 = buffer w /\
  random (change_active_entry d r w).2 = random w /\
  repeat (change_active_entry d r w).2 = repeat w /\
  tagged (change_active_entry d r w).2 = tagged w.
Proof.
  unfold change_active_entry, activate, clear_old.
  repeat case_match; simplify_eq; simpl; split_and!; congruence.
Qed.

Lemma change_active_entry_sequential_pools d r w :
  random w = false -> pools (change_active_entry d r w).2 = pools w.
Proof.
  intros Hr. unfold change_active_entry, activate. rewrite Hr.
  repeat case_match; done.
Qed.

Lemma pools_inv_frame w w' :
  buffer w' = buffer w -> random w' = random w -> pools w' = pools w ->
  pools_inv w -> pools_inv w'.
Proof.
  unfold pools_inv. intros -> -> ->. done.
Qed.

Lemma pools_inv_forward w r :
  pools_inv w -> refills (op_forward r) w = false ->
  pools_inv (change_active_entry 1 r w).2.
Proof.
  intros Hinv Href.
  destruct (change_active_entry_frame 1 r w) as (Hb & Hrand & _).
  destruct (random w) eqn:Hr.
  2:{ split; [rewrite Hb; apply Hinv | by rewrite Hrand]. }
  destruct (decide (buffer w = [])) as [Hnil|Hne].
  { unfold change_active_entry. by rewrite Hnil. }
  destruct (random_next w) as [|x nx _] eqn:Hn using rev_ind.
  - destruct (random_left w) as [|y lf] eqn:Hl.
    + destruct (repeat w) eqn:Hrep.
      * simpl in Href. rewrite Hr, Hn, Hl, Hrep in Href.
        rewrite bool_decide_eq_true_2 in Href by done.
        by rewrite !bool_decide_eq_true_2 in Href by done.
      * by rewrite (random_forward_end w r Hr Hn Hl Hrep).
    + destruct (random_forward_left w r Hr Hne Hn) as (new & Hc & ->).
      { by rewrite Hl. }
      apply pools_inv_chosen; [done..|].
      rewrite Hn. simpl. apply py_discard_perm.
      by eapply random_choice_elem.
  - rewrite (random_forward_next w r nx x Hr Hne Hn).
    apply pools_inv_chosen; [done..|].
    rewrite Hn. rewrite <- app_assoc. simpl. apply Permutation_middle.
Qed.

Lemma random_backward w r pv x :
  random w = true -> buffer w <> [] ->
  random_prev w = pv ++ [x] -> pv <> [] ->
  exists new, last pv = Some new /\
    change_active_entry (-1) r w =
      (Some new,
       update (set_active new true (clear_old (get_active_entry w)
         (with_pools pv (random_next w ++ [x]) (random_left w) w)))).
Proof.
  intros Hr Hb Hp Hpv.
  destruct (last pv) as [new|] eqn:Hl.
  2:{ by apply last_None in Hl. }
  exists new. split; [done|].
  unfold change_active_entry. rewrite Hr, Hp, py_pop_snoc.
  destruct (buffer w); [done|]. simpl.
  rewrite bool_decide_eq_true_2.
  - simpl. by rewrite Hl.
  - rewrite length_app. simpl. destruct pv; [done|simpl; lia].
Qed.

Lemma random_backward_refused w r :
  random w = true -> length (random_prev w) <= 1 ->
  change_active_entry (-1) r w = (None, w).
Proof.
  intros Hr Hlen. unfold change_active_entry. rewrite Hr. simpl.
  rewrite bool_decide_eq_false_2 by lia. by destruct (buffer w).
Qed.

Lemma pools_inv_backward w r :
  pools_inv w -> pools_inv (change_active_entry (-1) r w).2.
Proof.
  intros Hinv.
  destruct (change_active_entry_frame (-1) r w) as (Hb & Hrand & _).
  destruct (random w) eqn:Hr.
  2:{ split; [rewrite Hb; apply Hinv | by rewrite Hrand]. }
  destruct (decide (buffer w = [])) as [Hnil|Hne].
  { unfold change_active_entry. by rewrite Hnil. }
  destruct (random_prev w) as [|x pv _] eqn:Hp using rev_ind.
  { rewrite random_backward_refused; [done..|]. rewrite Hp. simpl. lia. }
  destruct (decide (pv = [])) as [->|Hpv].
  { rewrite random_backward_refused; [done..|]. rewrite Hp. simpl. lia. }
  destruct (random_backward w r pv x Hr Hne Hp Hpv) as (new & _ & ->).
  simpl. destruct Hinv as [Hnd Hpart]. specialize (Hpart Hr).
  split.
  - by destruct (get_active_entry w).
  - intros _.
    replace (buffer _) with (buffer w) by by destruct (get_active_entry w).
    replace (pools _) with (pv ++ (random_next w ++ [x]) ++ random_left w)
      by by destruct (get_active_entry w).
    rewrite <- Hpart. unfold pools. rewrite Hp.
    rewrite <- !app_assoc. simpl. apply Permutation_app_head.
    symmetry. apply Permutation_middle.
Qed.


Lemma current_Some w :
  buffer w <> [] ->
  exists i cur, buffer w !! i = Some cur /\
    current w = (Some cur, with_bufptr i w).
Proof.
  intros Hne. unfold current.
  rewrite bool_decide_eq_false_2 by (by destruct (buffer w)).
  case_bool_decide as Hlt; simpl.
  - destruct (buffer w !! (length (buffer w) - 1)) as [cur|] eqn:Hc.
    + by exists (length (buffer w) - 1), cur.
    + apply lookup_ge_None in Hc. destruct (buffer w); [done|simpl in Hc; lia].
  - destruct (buffer w !! bufptr w) as [cur|] eqn:Hc.
    + exists (bufptr w), cur. split; [done|]. by destruct w.
    + apply lookup_ge_None in Hc. lia.
Qed.

Lemma not_tagged_pools w' w :
  not_tagged w' (random_prev w) ++ not_tagged w' (random_next w) ++
    not_tagged w' (random_left w) = not_tagged w' (pools w).
Proof. unfold not_tagged, pools. by rewrite !List.filter_app. Qed.

Lemma pools_inv_delete w : pools_inv w -> pools_inv (command_delete w).
Proof.
  intros [Hnd Hpart]. unfold command_delete.
  destruct (decide (buffer w = [])) as [Hnil|Hne].
  { rewrite Hnil. done. }
  destruct (current_Some w Hne) as (i & cur & Hi & ->).
  destruct (buffer w) as [|b bs] eqn:Hbuf; [done|]. rewrite <- Hbuf in *.
  cbv zeta. simpl buffer. 
  set (f := fun x => negb (is_tagged (with_bufptr i w) x)).
  change (not_tagged (with_bufptr i w) (buffer w)) with (List.filter f (buffer w)).
  case_bool_decide as Hlen.
  - (* some entries were tagged *)
    set (w3 := match py_index cur (List.filter f (buffer w)) with
               | Some i0 => _ | None => _ end).
    assert (Hw3 : buffer w3 = List.filter f (buffer w) /\
                  random w3 = random w /\ pools w3 = pools w /\
                  tagged w3 = tagged w).
    { subst w3. by case_match. }
    destruct Hw3 as (Hb3 & Hr3 & Hp3 & Ht3).
    destruct (random w3) eqn:Hr; (split; simpl).
    + rewrite Hb3. by apply filter_NoDup.
    + intros _. unfold pools. simpl. rewrite not_tagged_pools.
      rewrite Hb3, Hp3. unfold not_tagged.
      rewrite (filter_ext _ f).
      * apply filter_perm, Hpart. congruence.
      * intros x. unfold f, is_tagged. simpl. by rewrite Ht3.
    + rewrite Hb3. by apply filter_NoDup.
    + by rewrite Hr.
  - (* none was: the current entry goes *)
    assert (Hall : List.filter f (buffer w) = buffer w).
    { apply forallb_filter_id, filter_length_forallb.
      pose proof (filter_length_le f (buffer w)). simpl in Hlen. lia. }
    rewrite Hall. simpl.
    set (g := fun x => negb (bool_decide (x ∈ tagged w ∪ {[ cur ]}))).
    assert (Hdel : List.filter g (buffer w) = delete i (buffer w)).
    { apply (filter_delete g (buffer w) i cur Hnd Hi). intros x Hx.
      assert (Hfx : f x = true).
      { apply (proj1 (forallb_forall f (buffer w))).
        - by apply filter_length_forallb; rewrite Hall.
        - by apply list_elem_of_In. }
      unfold f, is_tagged in Hfx. simpl in Hfx.
      apply negb_true_iff, bool_decide_eq_false in Hfx.
      unfold g. rewrite negb_true_iff, bool_decide_eq_false. set_solver. }
    destruct (random w) eqn:Hr; (split; simpl).
    + rewrite <- Hdel. by apply filter_NoDup.
    + intros _. unfold pools. simpl. rewrite not_tagged_pools.
      rewrite <- Hdel. apply filter_perm, Hpart. done.
    + rewrite <- Hdel. by apply filter_NoDup.
    + by rewrite Hr.
Qed.

Lemma pools_inv_step op w :
  pools_inv w -> appends_new op w = true -> refills op w = false ->
  pools_inv (step op w).
Proof.
  intros Hinv Hnew Href. destruct op; simpl.
  - apply pools_inv_append; [|done]. simpl in Hnew.
    by apply bool_decide_eq_true in Hnew.
  - done.
  - unfold cursor_move, current. by repeat case_match.
  - done.
  - apply pools_inv_toggle_random, Hinv.
  - by apply pools_inv_forward.
  - by apply pools_inv_backward.
  - by apply pools_inv_delete.
Qed.

Lemma pools_inv_run ops w :
  pools_inv w -> no_refill ops w = true -> pools_inv (run ops w).
Proof.
  revert w. induction ops as [|op ops IH]; intros w Hinv Hok; [done|].
  simpl in *. apply andb_true_iff in Hok as [Hok Hrest].
  apply andb_true_iff in Hok as [Hnew Href].
  apply negb_true_iff in Href. apply IH; [|done].
  by apply pools_inv_step.
Qed.

(** C3, amended.  Along every sequence of playlist operations (append
    of a new object, tagging, cursor moves, repeat and random toggles,
    forward, backward, delete) in which [left] is never refilled, the
    playlist holds no object twice and in random mode the three pools
    hold every track of the playlist exactly once. *)
Theorem pools_partition_without_refill (ops : list Op) (w : PlaylistWindow.t) :
  NoDup (buffer w) ->
  (random w = true -> pools w ≡ₚ buffer w) ->
  no_refill ops w = true ->
  NoDup (buffer (run ops w)) /\
  (random (run ops w) = true -> pools (run ops w) ≡ₚ buffer (run ops w)).
Proof.
  intros Hnd Hp Hok. by apply (pools_inv_run ops w).
Qed.

(** A session without refill. *)
Lemma pools_partition_witness :
  NoDup (buffer init) /\
  no_refill partition_ops init = true /\
  random (run partition_ops init) = true /\
  NoDup (buffer (run partition_ops init)) /\
  pools (run partition_ops init) ≡ₚ buffer (run partition_ops init).
Proof.
  assert (Hnd : NoDup (buffer init)) by apply NoDup_nil_2.
  assert (Hok : no_refill partition_ops init = true) by (vm_compute; reflexivity).
  assert (Hr : random (run partition_ops init) = true) by (vm_compute; reflexivity).
  destruct (pools_partition_without_refill partition_ops init Hnd) as [H1 H2].
  - intros Hrand. discriminate Hrand.
  - exact Hok.
  - split_and!; [exact Hnd | exact Hok | exact Hr | exact H1 | exact (H2 Hr)].
Defined.

(** After both of two tracks are played with repeat on, the next forward
    advance refills [left]: track B is then in [prev] and in [left]. *)
Lemma pools_not_partition_after_refill :
  let w := (change_active_entry 1 0 both_played).2 in
  refills (op_forward 0) both_played = true /\
  random w = true /\ buffer w = [track_A; track_B] /\
  random_prev w = [track_B; track_A] /\ random_next w = [] /\
  random_left w = [track_B] /\
  ~ (pools w ≡ₚ buffer w).
Proof.
  cbv zeta. split_and!; try (vm_compute; reflexivity).
  intros Hperm. apply Permutation_length in Hperm. vm_compute in Hperm. done.
Qed.

(** While the pools partition the playlist and [left] is not refilled, the
    track a forward advance returns is not in [prev]: it is another track
    than the active one at the tail of [prev]. *)
Lemma forward_returns_unvisited w r new w1 :
  pools_inv w -> random w = true -> refills (op_forward r) w = false ->
  change_active_entry 1 r w = (Some new, w1) ->
  new ∉ random_prev w.
Proof.
  intros [Hnd Hp] Hr Href Hc. specialize (Hp Hr).
  assert (Hb : buffer w <> []).
  { intros Hnil. unfold change_active_entry in Hc. by rewrite Hnil in Hc. }
  assert (Hin : new ∈ random_next w ++ random_left w).
  { destruct (random_next w) as [|x nx _] eqn:Hn using rev_ind.
    - destruct (random_left w) as [|y lf] eqn:Hl.
      + destruct (repeat w) eqn:Hrep.
        * simpl in Href. rewrite Hr, Hn, Hl, Hrep in Href.
          by rewrite !bool_decide_eq_true_2 in Href by done.
        * by rewrite (random_forward_end w r Hr Hn Hl Hrep) in Hc.
      + destruct (random_forward_left w r Hr Hb Hn) as (n' & Hch & Heq).
        { by rewrite Hl. }
        rewrite Heq in Hc. injection Hc as <- _. simpl. rewrite <- Hl.
        by eapply random_choice_elem.
    - rewrite (random_forward_next w r nx x Hr Hb Hn) in Hc.
      injection Hc as <- _. set_solver. }
  pose proof (partition_NoDup w Hnd Hp) as Hndp. unfold pools in Hndp.
  apply NoDup_app in Hndp as (_ & Hdis & _). intros Hprev.
  by apply (Hdis new Hprev).
Qed.

(** C2, amended.  Random mode.  If the active track is the tail of
    [prev] and a forward advance returns another track, a backward
    advance right after it returns the track that was active and makes
    it the active one again. *)
Theorem forward_then_backward (w w1 : PlaylistWindow.t) (r r' : nat)
    (o new : PlaylistEntry) :
  random w = true ->
  at_most_one_active w ->
  get_active_entry w = Some o ->
  last (random_prev w) = Some o ->
  change_active_entry 1 r w = (Some new, w1) ->
  new <> o ->
  (change_active_entry (-1) r' w1).1 = Some o /\
  get_active_entry (change_active_entry (-1) r' w1).2 = Some o.
Proof.
  intros Hr Hone Hg Hlast Hc Hne.
  destruct (random_forward_Some w r new w1 Hr Hc) as (nx & lf & ->).
  apply last_Some in Hlast as [pv Hpv].
  pose proof (get_active_entry_Some w o Hg) as [Hin Hact].
  set (w1 := (chosen w new nx lf).2) in *.
  assert (Hb1 : buffer w1 = buffer w /\ random w1 = true /\
                random_prev w1 = (py_discard new pv ++ [o]) ++ [new]).
  { subst w1. unfold chosen. rewrite Hpv, (py_discard_snoc_ne new o pv Hne).
    by destruct (get_active_entry w). }
  destruct Hb1 as (Hb1 & Hr1 & Hp1).
  assert (Hone1 : at_most_one_active w1).
  { destruct (change_active_entry_Some _ _ _ _ _ Hc) as (w0 & Hcl & Heq).
    rewrite Heq. by eapply at_most_one_activate. }
  destruct (random_backward w1 r' (py_discard new pv ++ [o]) new)
    as (n' & Hl' & Hback); [done| |done| |].
  { rewrite Hb1. intros Hnil. rewrite Hnil in Hin. by apply elem_of_nil in Hin. }
  { by destruct (py_discard new pv). }
  rewrite last_snoc in Hl'. injection Hl' as <-.
  rewrite Hback. simpl. split; [done|].
  apply get_active_entry_unique.
  - apply (at_most_one_activate w1); [done|].
    by split; destruct (get_active_entry w1).
  - simpl. replace (buffer _) with (buffer w1)
      by by destruct (get_active_entry w1).
    by rewrite Hb1.
  - change (is_active (set_active o true (clear_old (get_active_entry w1)
      (with_pools (py_discard new pv ++ [o]) (random_next w1 ++ [new])
         (random_left w1) w1))) o = true).
    by rewrite is_active_set_active, decide_True.
Qed.

(** Forward from A to C, then back, over three tracks. *)
Lemma forward_then_backward_witness :
  get_active_entry one_played = Some track_A /\
  (change_active_entry 1 1 one_played).1 = Some track_C /\
  (change_active_entry (-1) 0 (change_active_entry 1 1 one_played).2).1 =
    Some track_A /\
  get_active_entry
    (change_active_entry (-1) 0 (change_active_entry 1 1 one_played).2).2 =
    Some track_A.
Proof.
  assert (Hone : at_most_one_active one_played).
  { intros e1 e2 H1 H2 Ha1 Ha2.
    assert (He : forall e, is_active one_played e = true -> e = track_A).
    { intros e He. unfold is_active in He. apply bool_decide_eq_true in He.
      replace (active one_played) with ({[ track_A ]} : gset PlaylistEntry) in He
        by (vm_compute; reflexivity).
      by apply elem_of_singleton in He. }
    by rewrite (He e1 Ha1), (He e2 Ha2). }
  split; [reflexivity|]. split; [reflexivity|].
  apply (forward_then_backward one_played
           (change_active_entry 1 1 one_played).2 1 0 track_A track_C).
  - reflexivity.
  - exact Hone.
  - reflexivity.
  - reflexivity.
  - reflexivity.
  - discriminate.
Defined.

(** Forward then backward does not restore the active track: when the
    draw after a refill is the active track itself, when forward is
    refused at the end of the cycle, and when the active track was set by
    [command_play] and is not the tail of [prev]. *)
Lemma forward_backward_moves_active :
  (let w := both_played in
   let w1 := (change_active_entry 1 1 w).2 in
   let w2 := (change_active_entry (-1) 0 w1).2 in
   random w = true /\ random_prev w = [track_A; track_B] /\
   get_active_entry w = Some track_B /\
   (change_active_entry 1 1 w).1 = Some track_B /\
   get_active_entry w2 = Some track_A) /\
  (let w := both_played_once in
   let w1 := (change_active_entry 1 0 w).2 in
   let w2 := (change_active_entry (-1) 0 w1).2 in
   random w = true /\ random_prev w = [track_A; track_B] /\
   get_active_entry w = Some track_B /\
   (change_active_entry 1 0 w).1 = None /\
   get_active_entry w2 = Some track_A) /\
  (let w := played_by_hand in
   let w1 := (change_active_entry 1 1 w).2 in
   let w2 := (change_active_entry (-1) 0 w1).2 in
   random w = true /\ random_prev w = [track_A; track_B] /\
   get_active_entry w = Some track_C /\
   (change_active_entry 1 1 w).1 = Some track_D /\
   get_active_entry w2 = Some track_B).
Proof. vm_compute. repeat split. Qed.
End PlaylistFacts.

(** ** The player *)

Section PlayerFacts.
Local Open Scope Q_scope.
Implicit Types (p : Player.t) (env : Env).

Lemma Qltb_true x y : Qltb x y = true <-> x < y.
Proof.
  unfold Qltb. rewrite negb_true_iff. split.
  - intros H. apply Qnot_le_lt. intros Hle. apply Qle_bool_iff in Hle. congruence.
  - intros H. apply not_true_is_false. intros Hle. apply Qle_bool_iff in Hle.
    by apply (Qlt_not_le x y).
Qed.

Lemma Qltb_false x y : Qltb x y = false <-> y <= x.
Proof.
  unfold Qltb. rewrite negb_false_iff. apply Qle_bool_iff.
Qed.

(** The step after a relative seek, as the code computes it. *)
Lemma seek_relative_step p d :
  Player.step (Player.seek d true p).1 =
    Player.step p *
      (if Qltb 0 (Player.step p * (d * Player.length p * (2 # 1000)))
       then 1 else 0) + d * Player.length p * (2 # 1000).
Proof. reflexivity. Qed.

Lemma seek_relative_offset p d :
  Player.offset (Player.seek d true p).1 =
    Qmin (Player.length p)
         (Qmax 0 (Player.offset p + Player.step (Player.seek d true p).1)).
Proof. reflexivity. Qed.

Lemma seek_relative_length p d :
  Player.length (Player.seek d true p).1 = Player.length p.
Proof. reflexivity. Qed.

Lemma seek_relative_same p d :
  0 < Player.step p * (d * Player.length p * (2 # 1000)) ->
  Player.step (Player.seek d true p).1 ==
    Player.step p + d * Player.length p * (2 # 1000).
Proof.
  intros H. rewrite seek_relative_step.
  rewrite (proj2 (Qltb_true _ _) H). ring.
Qed.

Lemma seek_relative_reset p d :
  Player.step p * (d * Player.length p * (2 # 1000)) <= 0 ->
  Player.step (Player.seek d true p).1 ==
    d * Player.length p * (2 # 1000).
Proof.
  intros H. rewrite seek_relative_step.
  rewrite (proj2 (Qltb_false _ _) H). ring.
Qed.

Lemma step_delta_assoc (s d L : Q) :
  s * (d * L * (2 # 1000)) == (s * d) * (L * (2 # 1000)).
Proof. ring. Qed.

(** C4.  A relative seek of direction [d] on a track of length [L]: the
    test the code makes is that the product of the accumulated step and
    the request [d * L * 0.002] is positive.  The request is then added
    to the step, and else it becomes the step.  On a track of positive
    length the test is that [d] has the sign of the step, so the step
    grows in the same direction and is reset when the direction is
    reversed.  On a track of length 0 every request is 0 and the step
    becomes 0, whatever it was.  The offset is the old offset plus the
    new step, kept within 0 and [L].  Two seeks forward and one backward
    leave the step of the backward seek alone, from every step. *)
Theorem relative_seek (p : Player.t) (d : Q) :
  let L := Player.length p in
  let delta := d * L * (2 # 1000) in
  let p' := (Player.seek d true p).1 in
  (0 < Player.step p * delta -> Player.step p' == Player.step p + delta) /\
  (0 < L -> 0 < Player.step p * d ->
     Player.step p' == Player.step p + delta) /\
  (Player.step p * delta <= 0 -> Player.step p' == delta) /\
  (0 <= L -> Player.step p * d < 0 -> Player.step p' == delta) /\
  (L == 0 -> Player.step p' == 0) /\
  Player.offset p' == Qmin L (Qmax 0 (Player.offset p + Player.step p')) /\
  (0 <= L -> 0 <= Player.offset p' /\ Player.offset p' <= L) /\
  (let p3 := (Player.seek (-1) true
                (Player.seek 1 true (Player.seek 1 true p).1).1).1 in
   Player.step p3 == (-1) * L * (2 # 1000)).
Proof.
  cbv zeta. split_and!.
  - apply seek_relative_same.
  - intros HL Hd. apply seek_relative_same. rewrite step_delta_assoc.
    apply Qmult_lt_0_compat; [done|]. by apply Qmult_lt_0_compat.
  - apply seek_relative_reset.
  - intros HL Hd. apply seek_relative_reset. rewrite step_delta_assoc.
    assert (0 <= Player.length p * (2 # 1000)).
    { apply Qmult_le_0_compat; [done|discriminate]. }
    nra.
  - intros HL. rewrite seek_relative_reset; rewrite HL; lra.
  - by rewrite seek_relative_offset.
  - intros HL. rewrite seek_relative_offset. split.
    + apply Q.min_glb; [done|]. apply Q.le_max_l.
    + apply Q.le_min_l.
  - set (p1 := (Player.seek 1 true p).1).
    set (p2 := (Player.seek 1 true p1).1).
    (* after a forward seek the step has the sign of the request *)
    assert (H2 : 0 <= Player.step p2 * (Player.length p * (2 # 1000))).
    { subst p2. rewrite seek_relative_step.
      change (Player.length p1) with (Player.length p).
      destruct (Qltb 0 _) eqn:Ht; [apply Qltb_true in Ht|]; nra. }
    rewrite seek_relative_reset.
    + change (Player.length p2) with (Player.length p). reflexivity.
    + change (Player.length p2) with (Player.length p). nra.
Qed.

(** Seeks on a track of 500 seconds with an accumulated step of 1. *)
Lemma relative_seek_witness :
  Player.step (Player.seek 1 true seeking_player).1 == 2 /\
  Player.step (Player.seek (-1) true seeking_player).1 == -1 /\
  Player.offset (Player.seek 1 true seeking_player).1 == 32 /\
  Player.offset (Player.seek (-1) true (Player.with_offset (1 # 2) seeking_player)).1 == 0 /\
  Player.step (Player.seek (-1) true
                 (Player.seek 1 true (Player.seek 1 true seeking_player).1).1).1
    == -1.
Proof.
  destruct (relative_seek seeking_player 1)
    as (_ & Hsame & _ & _ & _ & Hoff & _ & H3).
  destruct (relative_seek seeking_player (-1)) as (_ & _ & _ & Hrev & _).
  destruct (relative_seek (Player.with_offset (1 # 2) seeking_player) (-1))
    as (_ & _ & _ & _ & _ & Hoff0 & _).
  assert (HL : 0 <= Player.length seeking_player) by discriminate.
  split_and!.
  - rewrite Hsame; [vm_compute; reflexivity | reflexivity | reflexivity].
  - rewrite (Hrev HL eq_refl). vm_compute. reflexivity.
  - rewrite Hoff. vm_compute. reflexivity.
  - rewrite Hoff0. vm_compute. reflexivity.
  - rewrite H3. vm_compute. reflexivity.
Defined.

(** A forward seek that has the sign of the step and does not add to it:
    track A is played from its start, its length not yet read from the
    player (0); the key for the start of the track (an absolute seek to
    0) sets the step to 1; the forward seek that follows leaves the step
    0, where the sum of the step and the request is 1. *)
Lemma relative_seek_length_zero :
  let p := (Player.seek 0 false (Application.player playing_app)).1 in
  Player.length p == 0 /\ Player.step p == 1 /\ 0 < Player.step p * 1 /\
  Player.step (Player.seek 1 true p).1 == 0 /\
  ~ Player.step (Player.seek 1 true p).1 ==
      Player.step p + 1 * Player.length p * (2 # 1000).
Proof.
  cbv zeta. split_and!; try (vm_compute; reflexivity).
  vm_compute. discriminate.
Qed.

Lemma truthy_true x : truthy x = true <-> ~ x == 0.
Proof.
  unfold truthy. rewrite negb_true_iff. split.
  - intros H Heq. apply Qeq_bool_iff in Heq. congruence.
  - intros H. apply not_true_is_false. intros Heq. by apply Qeq_bool_iff in Heq.
Qed.

Lemma truthy_false x : truthy x = false <-> x == 0.
Proof. unfold truthy. rewrite negb_false_iff. apply Qeq_bool_iff. Qed.

(** The offset after an absolute seek, as the code computes it. *)
Lemma seek_absolute_offset p o :
  Player.offset (Player.seek o false p).1 =
    if Qltb o 0
    then if truthy (Player.length p + o) then Player.length p + o else o
    else o.
Proof. reflexivity. Qed.

Lemma seek_absolute_nonneg p o :
  0 <= o -> Player.offset (Player.seek o false p).1 = o.
Proof.
  intros Ho. rewrite seek_absolute_offset.
  by rewrite (proj2 (Qltb_false _ _) Ho).
Qed.

Lemma seek_absolute_before_end p o :
  o < 0 -> ~ Player.length p + o == 0 ->
  Player.offset (Player.seek o false p).1 = Player.length p + o.
Proof.
  intros Ho Hne. rewrite seek_absolute_offset.
  by rewrite (proj2 (Qltb_true _ _) Ho), (proj2 (truthy_true _) Hne).
Qed.

Lemma seek_absolute_at_start p o :
  o < 0 -> Player.length p + o == 0 ->
  Player.offset (Player.seek o false p).1 = o.
Proof.
  intros Ho Hne. rewrite seek_absolute_offset.
  by rewrite (proj2 (Qltb_true _ _) Ho), (proj2 (truthy_false _) Hne).
Qed.

(** C9, at the failing input.  An absolute seek to -1 (the key [$]) on a
    track one second long leaves the offset -1, not [L + o = 0]. *)
Theorem absolute_seek_whole_length_back (p : Player.t) :
  let p1 := Player.with_length 1 p in
  Player.offset (Player.seek (-1) false p1).1 = -1 /\
  ~ Player.offset (Player.seek (-1) false p1).1 == Player.length p1 + -1.
Proof. split; [reflexivity | discriminate]. Qed.

Lemma poll_in_grace env p :
  Player.alive p = false -> in_grace env p ->
  Player.poll env p = (Some 0%nat, (Player.play env p).1, (Player.play env p).2).
Proof.
  intros Ha (t0 & Ht & Hnz & Hlt). unfold Player.poll. rewrite Ha, Ht.
  rewrite (proj2 (truthy_true _) Hnz), (proj2 (Qltb_true _ _) Hlt). simpl.
  by destruct (Player.play env p).
Qed.

Lemma poll_out_of_grace env p :
  Player.alive p = false -> ~ in_grace env p ->
  Player.poll env p =
    (Some 1%nat, p, [ui_set_default_status ""; ui_counter 0 0; ui_progress 0]).
Proof.
  intros Ha Hng. unfold Player.poll. rewrite Ha.
  destruct (Player.time_setup p) as [t0|] eqn:Ht; [|done].
  destruct (truthy t0) eqn:Hz; [|done].
  destruct (Qltb (now env - t0) 2) eqn:Hlt; [|done].
  exfalso. apply Hng. exists t0. split_and!; [done| |].
  - by apply truthy_true.
  - by apply Qltb_true.
Qed.

Lemma play_time_setup env p :
  Player.time_setup (Player.play env p).1 = Player.time_setup p.
Proof. unfold Player.play. by destruct (mkfifo_ok env). Qed.

Lemma update_status_forks env p : forks (Player.update_status env p) = 0%nat.
Proof. unfold Player.update_status. by repeat case_match. Qed.

Lemma play_forks env p :
  mkfifo_ok env = true ->
  Player.alive (Player.play env p).1 = true /\
  forks (Player.play env p).2 = 1%nat.
Proof.
  intros Hok. unfold Player.play, Player.play_base. rewrite Hok. simpl.
  split; [done|]. unfold forks. simpl. rewrite List.filter_app, length_app.
  simpl. fold (forks (Player.update_status env
    (Player.with_step 0 (Player.with_paused false (Player.with_stopped false
       (Player.with_alive true p)))))).
  by rewrite update_status_forks.
Qed.

Lemma in_grace_time_setup env p p' :
  Player.time_setup p' = Player.time_setup p ->
  in_grace env p' <-> in_grace env p.
Proof. unfold in_grace. by intros ->. Qed.

(** C5, amended.  [poll] when the process is gone.  Within 2 seconds of
    setup it calls [play] once (one fork when the control FIFO can be
    made) and returns 0; [play] leaves the setup time as it is, so when
    the process is gone again the next [poll] re-spawns again if it is
    still within 2 seconds of setup, and handles the end of the track if
    it is not.  Otherwise it resets the default status, the counter and
    the progress bar to zero and returns 1. *)
Theorem poll_process_gone (env : Env) (p : Player.t) :
  Player.alive p = false ->
  (in_grace env p ->
     Player.poll env p =
       (Some 0%nat, (Player.play env p).1, (Player.play env p).2) /\
     (mkfifo_ok env = true -> forks (Player.play env p).2 = 1%nat) /\
     forall env',
       let p1 := Player.with_alive false (Player.poll env p).1.2 in
       (in_grace env' p -> (Player.poll env' p1).1.1 = Some 0%nat) /\
       (~ in_grace env' p -> (Player.poll env' p1).1.1 = Some 1%nat)) /\
  (~ in_grace env p ->
     Player.poll env p =
       (Some 1%nat, p,
        [ui_set_default_status ""; ui_counter 0 0; ui_progress 0])).
Proof.
  intros Ha. split.
  - intros Hg. split_and!.
    + by apply poll_in_grace.
    + intros Hok. by apply play_forks.
    + intros env'. cbv zeta. rewrite (poll_in_grace env p Ha Hg). simpl.
      set (p1 := Player.with_alive false (Player.play env p).1).
      assert (Ht : Player.time_setup p1 = Player.time_setup p).
      { subst p1. simpl. apply play_time_setup. }
      split; intros Hg'.
      * rewrite poll_in_grace; [done..|]. by apply (in_grace_time_setup env' p p1).
      * rewrite poll_out_of_grace; [done..|].
        by rewrite (in_grace_time_setup env' p p1).
  - by apply poll_out_of_grace.
Qed.

(** Set up at 100, the process gone: [poll] at 100.1 re-spawns; the process
    gone again, [poll] at 100.6 re-spawns a second time and does not report
    the end of the track. *)
Lemma poll_respawns_twice :
  let r1 := Player.poll (env_at (1001 # 10)) gone_player in
  let r2 := Player.poll (env_at (1006 # 10))
                        (Player.with_alive false r1.1.2) in
  Player.alive gone_player = false /\
  r1.1.1 = Some 0%nat /\ forks r1.2 = 1%nat /\
  r2.1.1 = Some 0%nat /\ forks r2.2 = 1%nat.
Proof. vm_compute. done. Qed.

(** The same player polled 0.1 and 3 seconds after setup. *)
Lemma poll_process_gone_witness :
  Player.alive gone_player = false /\
  in_grace (env_at (1001 # 10)) gone_player /\
  ~ in_grace (env_at 103) gone_player /\
  Player.poll (env_at (1001 # 10)) gone_player =
    (Some 0%nat, (Player.play (env_at (1001 # 10)) gone_player).1,
     (Player.play (env_at (1001 # 10)) gone_player).2) /\
  Player.poll (env_at 103) gone_player =
    (Some 1%nat, gone_player,
     [ui_set_default_status ""; ui_counter 0 0; ui_progress 0]).
Proof.
  assert (Hin : in_grace (env_at (1001 # 10)) gone_player).
  { exists 100. split_and!; [reflexivity|discriminate|reflexivity]. }
  assert (Hout : ~ in_grace (env_at 103) gone_player).
  { intros (t0 & [= <-] & _ & Hlt). vm_compute in Hlt. discriminate. }
  pose proof (poll_process_gone (env_at (1001 # 10)) gone_player eq_refl) as [H1 _].
  pose proof (poll_process_gone (env_at 103) gone_player eq_refl) as [_ H2].
  split_and!; [reflexivity|exact Hin|exact Hout|apply (H1 Hin)|apply (H2 Hout)].
Defined.
End PlayerFacts.

(** ** The remote control *)

Section RemoteFacts.
Import FIFOControl.
Implicit Types (env : Env) (a : Application.t).

(** C6, at the failing input.  The line [volume 0 abc] makes
    [handle_command] raise: [ValueError] from [int] when the line is
    text, [TypeError] from [split] when it is the bytes the FIFO
    yields.  The state is as before the call. *)
Theorem volume_malformed_raises (env : Env) (a : Application.t) :
  handle_command env (line_text ("volume 0 abc" +:+ nl)) a = Raise ValueError a /\
  handle_command env (line_bytes ("volume 0 abc" +:+ nl)) a = Raise TypeError a.
Proof. split; reflexivity. Qed.

Lemma handle_volume_ok env a :
  handle_command env (line_text ("volume 0 55" +:+ nl)) a =
    Ok (Application.mixer env "0" 55 a).
Proof. reflexivity. Qed.

Lemma on_player_player m a :
  Application.player (Application.on_player m a) = (m (Application.player a)).1.
Proof. unfold Application.on_player. by destruct (m (Application.player a)). Qed.

Lemma stop_stopped env quiet p :
  Player.stopped (Player.stop env quiet p).1 = true /\
  Player.alive (Player.stop env quiet p).1 = false.
Proof.
  unfold Player.stop, Player.toggle_pause.
  by destruct (Player.paused p), (Player.alive p).
Qed.

End RemoteFacts.

(** ** The cursor *)

Section CursorFacts.
Import PlaylistWindow.
Implicit Types (w : PlaylistWindow.t) (e : PlaylistEntry).

Lemma cursor_move_bufptr y w :
  buffer w <> [] ->
  cursor_move y w =
  with_bufptr
    (Z.to_nat ((Z.of_nat (Nat.min (bufptr w) (length (buffer w) - 1)) + y)
                 mod Z.of_nat (length (buffer w)))) w.
Proof.
  intros Hne. unfold cursor_move, current.
  destruct (buffer w) as [|b bs] eqn:Hb; [done|]. rewrite <- Hb.
  assert (Hlen : 0 < length (buffer w)) by (rewrite Hb; simpl; lia).
  rewrite bool_decide_eq_false_2 by lia.
  assert (Hin : forall c, c < length (buffer w) ->
            update (with_bufptr
              (Z.to_nat ((Z.of_nat c + y) mod Z.of_nat (length (buffer w))))
              (with_bufptr c w)) =
            with_bufptr
              (Z.to_nat ((Z.of_nat c + y) mod Z.of_nat (length (buffer w)))) w).
  { intros c Hc. unfold update, with_bufptr. simpl. f_equal.
    apply Nat.min_l.
    pose proof (Z.mod_pos_bound (Z.of_nat c + y)
                  (Z.of_nat (length (buffer w))) ltac:(lia)). lia. }
  case_bool_decide as Hpast; cbn [snd].
  - rewrite Nat.min_r by lia. apply Hin. lia.
  - rewrite Nat.min_l by lia.
    replace w with (with_bufptr (bufptr w) w) at 1 2 3 by (by destruct w).
    apply Hin. lia.
Qed.

Lemma cursor_move_in_range y w :
  bufptr w < length (buffer w) ->
  cursor_move y w =
  with_bufptr (Z.to_nat ((Z.of_nat (bufptr w) + y)
                           mod Z.of_nat (length (buffer w)))) w.
Proof.
  intros Hlt. rewrite cursor_move_bufptr.
  - by rewrite Nat.min_l by lia.
  - intros Hnil. rewrite Hnil in Hlt. simpl in Hlt. lia.
Qed.

Lemma cursor_move_nil y w : buffer w = [] -> cursor_move y w = w.
Proof. intros Hb. unfold cursor_move. by rewrite Hb. Qed.

(** X1.  Two cursor moves one after the other are the move by the sum of
    the two distances, for every distance (negative ones go up, and the
    cursor wraps around at both ends) and every state of the window. *)
Theorem cursor_move_compose (a b : Z) w :
  cursor_move a (cursor_move b w) = cursor_move (b + a) w.
Proof.
  destruct (decide (buffer w = [])) as [Hnil|Hne].
  { by rewrite !cursor_move_nil; rewrite ?cursor_move_nil. }
  assert (Hlen : (0 < Z.of_nat (length (buffer w)))%Z).
  { destruct (buffer w); [done | simpl; lia]. }
  rewrite (cursor_move_bufptr b w Hne), (cursor_move_bufptr (b + a) w Hne).
  set (c := Nat.min (bufptr w) (length (buffer w) - 1)).
  pose proof (Z.mod_pos_bound (Z.of_nat c + b)
                (Z.of_nat (length (buffer w))) Hlen) as Hm.
  rewrite cursor_move_in_range by (simpl; lia). simpl.
  unfold with_bufptr. simpl. f_equal. f_equal.
  rewrite Z2Nat.id by lia.
  rewrite Zplus_mod_idemp_l. f_equal. lia.
Qed.

(** X2.  With the cursor on an entry of the list, [cursor_home] puts it
    on the first entry and [cursor_end] on the last one.  (Both compute
    the distance from the cursor as it is; a cursor past the end is
    brought back to the last entry before the move, so the distance is
    then too long and the cursor lands elsewhere.) *)
Theorem cursor_home_end w :
  bufptr w < length (buffer w) ->
  (current (cursor_home w)).1 = head (buffer w) /\
  (current (cursor_end w)).1 = last (buffer w).
Proof.
  intros Hlen. unfold cursor_home, cursor_end.
  rewrite !cursor_move_in_range by done.
  replace (Z.of_nat (bufptr w) + - Z.of_nat (bufptr w))%Z with 0%Z by lia.
  replace (Z.of_nat (bufptr w) + (- Z.of_nat (bufptr w) - 1))%Z
    with (-1)%Z by lia.
  rewrite Z.mod_0_l by lia.
  replace ((-1) mod Z.of_nat (length (buffer w)))%Z
    with (Z.of_nat (length (buffer w) - 1)).
  2:{ apply (Z.mod_unique _ _ (-1)%Z); lia. }
  rewrite Nat2Z.id. unfold current. simpl.
  rewrite !bool_decide_eq_false_2 by lia. simpl.
  split; [by rewrite head_lookup|].
  rewrite last_lookup. f_equal. lia.
Qed.

Lemma cursor_home_end_witness :
  let w := with_bufptr 1 (with_buffer [track_A; track_B; track_C] init) in
  bufptr w < length (buffer w) /\
  (current (cursor_home w)).1 = Some track_A /\
  (current (cursor_end w)).1 = Some track_C.
Proof.
  intros w. assert (H : bufptr w < length (buffer w)) by (simpl; lia).
  destruct (cursor_home_end w H) as [Hh He].
  split_and!; [exact H | by rewrite Hh | by rewrite He].
Defined.

(** From a cursor past the end the distance is taken from where the
    cursor was, the move from the last entry: with the cursor at 7 on a
    list of three, [cursor_home] lands on the second entry and
    [cursor_end] on the first. *)
Lemma cursor_home_past_the_end :
  let w := with_bufptr 7 (with_buffer [track_A; track_B; track_C] init) in
  (current (cursor_home w)).1 = Some track_B /\
  (current (cursor_end w)).1 = Some track_A.
Proof. split; reflexivity. Qed.

End CursorFacts.


(** ** Tags *)

Section TagFacts.
Import PlaylistWindow.
Implicit Types (w : PlaylistWindow.t) (e : PlaylistEntry).

Lemma is_tagged_set_tagged w e v e' :
  is_tagged (set_tagged e v w) e' =
  if decide (e' = e) then v else is_tagged w e'.
Proof.
  unfold is_tagged, set_tagged; destruct v; simpl;
    destruct (decide (e' = e)) as [->|Hne].
  - apply bool_decide_eq_true. set_solver.
  - apply bool_decide_ext. set_solver.
  - apply bool_decide_eq_false. set_solver.
  - apply bool_decide_ext. set_solver.
Qed.

(** The loop of [command_invert_tags] over a list without duplicates. *)
Lemma invert_loop l w :
  NoDup l ->
  let w' := fold_left (fun acc i => set_tagged i (negb (is_tagged acc i)) acc)
                      l w in
  buffer w' = buffer w /\ bufptr w' = bufptr w /\
  forall e, is_tagged w' e =
            if bool_decide (e ∈ l) then negb (is_tagged w e) else is_tagged w e.
Proof.
  intros Hnd. revert w. induction Hnd as [|x l Hx Hnd IH]; intros w; simpl.
  - done.
  - destruct (IH (set_tagged x (negb (is_tagged w x)) w)) as (Hb & Hp & Ht).
    split_and!; [by rewrite Hb | by rewrite Hp |].
    intros e. rewrite Ht, !is_tagged_set_tagged.
    destruct (decide (e = x)) as [->|Hne].
    + rewrite bool_decide_eq_false_2 by done.
      rewrite bool_decide_eq_true_2 by apply list_elem_of_here. done.
    + rewrite (bool_decide_ext (e ∈ x :: l) (e ∈ l)); [done|].
      rewrite elem_of_cons. naive_solver.
Qed.

(** X3.  On a playlist that holds no entry twice, [command_invert_tags]
    flips the tag of every entry of the list and of no other entry: the
    tagged entries afterwards are the entries that were not tagged, and
    the other way round; the list itself is unchanged. *)
Theorem command_invert_tags_flips w :
  NoDup (buffer w) ->
  buffer (command_invert_tags w) = buffer w /\
  (forall e, is_tagged (command_invert_tags w) e =
             if bool_decide (e ∈ buffer w) then negb (is_tagged w e)
             else is_tagged w e) /\
  get_tagged (command_invert_tags w) = not_tagged w (buffer w) /\
  not_tagged (command_invert_tags w) (buffer (command_invert_tags w)) =
    get_tagged w.
Proof.
  intros Hnd. destruct (invert_loop (buffer w) w Hnd) as (Hb & _ & Ht).
  unfold command_invert_tags.
  set (w' := fold_left _ (buffer w) w) in *.
  assert (Hbu : buffer (update w') = buffer w) by done.
  assert (Htu : forall e, is_tagged (update w') e =
            if bool_decide (e ∈ buffer w) then negb (is_tagged w e)
            else is_tagged w e) by exact Ht.
  split_and!; [done | done | |].
  - unfold get_tagged, not_tagged. rewrite Hbu.
    apply List.filter_ext_in. intros e He. rewrite Htu.
    rewrite bool_decide_eq_true_2; [done|]. by apply list_elem_of_In.
  - unfold get_tagged, not_tagged. rewrite Hbu.
    apply List.filter_ext_in. intros e He. rewrite Htu.
    rewrite bool_decide_eq_true_2; [|by apply list_elem_of_In].
    by rewrite negb_involutive.
Qed.

Lemma NoDup_ABC : NoDup [track_A; track_B; track_C].
Proof. apply NoDup_ListNoDup. repeat constructor; simpl; intuition discriminate. Qed.

Lemma command_invert_tags_flips_witness :
  let w := set_tagged track_B true
             (with_buffer [track_A; track_B; track_C] init) in
  NoDup (buffer w) /\
  get_tagged (command_invert_tags w) = [track_A; track_C].
Proof.
  intros w. assert (Hnd : NoDup (buffer w)) by exact NoDup_ABC.
  split; [exact Hnd|].
  destruct (command_invert_tags_flips w Hnd) as (_ & _ & -> & _).
  vm_compute. reflexivity.
Defined.

(** X4.  [command_tag_untag] flips the tag of the entry under the cursor,
    [command_tag(value)] sets it to [value]; the tags of all other entries
    stay, and the cursor goes one entry down, to the first one after the
    last.  With the cursor past the end of a list that is not empty both
    raise [IndexError]. *)
Theorem tag_under_cursor w e (value : bool) :
  buffer w !! bufptr w = Some e ->
  exists w1 w2,
    command_tag_untag w = Some w1 /\ command_tag value w = Some w2 /\
    (forall x, is_tagged w1 x =
               if decide (x = e) then negb (is_tagged w e) else is_tagged w x) /\
    (forall x, is_tagged w2 x =
               if decide (x = e) then value else is_tagged w x) /\
    buffer w1 = buffer w /\ buffer w2 = buffer w /\
    bufptr w1 = (bufptr w + 1) mod length (buffer w) /\
    bufptr w2 = bufptr w1.
Proof.
  intros He.
  assert (Hne : buffer w <> []) by (intros Hn; by rewrite Hn in He).
  assert (Hlt : bufptr w < length (buffer w)) by (by eapply lookup_lt_Some).
  unfold command_tag_untag, command_tag. rewrite He.
  destruct (buffer w) as [|b bs] eqn:Hb; [done|]. rewrite <- Hb in *.
  eexists _, _. split_and!; [reflexivity | reflexivity | ..].
  - intros x. rewrite cursor_move_in_range by done. apply is_tagged_set_tagged.
  - intros x. rewrite cursor_move_in_range by done. apply is_tagged_set_tagged.
  - by rewrite cursor_move_in_range.
  - by rewrite cursor_move_in_range.
  - rewrite cursor_move_in_range by done. simpl.
    rewrite <- (Nat2Z.inj_add _ 1), <- Nat2Z.inj_mod, Nat2Z.id. done.
  - rewrite !cursor_move_in_range by done. done.
Qed.

Lemma tag_under_cursor_witness :
  let w := with_bufptr 2 (with_buffer [track_A; track_B; track_C] init) in
  buffer w !! bufptr w = Some track_C /\
  exists w1, command_tag_untag w = Some w1 /\
             is_tagged w1 track_C = true /\ bufptr w1 = 0.
Proof.
  intros w. assert (He : buffer w !! bufptr w = Some track_C) by reflexivity.
  split; [exact He|].
  destruct (tag_under_cursor w track_C true He)
    as (w1 & w2 & H1 & _ & Ht & _ & _ & _ & Hp & _).
  exists w1. split_and!; [exact H1 | | ].
  - rewrite Ht. rewrite decide_True by reflexivity. reflexivity.
  - rewrite Hp. reflexivity.
Defined.

End TagFacts.

(** ** Jumping and reordering *)

Section ReorderFacts.
Import PlaylistWindow.
Implicit Types (w : PlaylistWindow.t) (e : PlaylistEntry).

Lemma py_index_elem (x : PlaylistEntry) l :
  x ∈ l -> exists i, py_index x l = Some i.
Proof.
  induction l as [|y l IH]; [by intros ?%elem_of_nil|].
  intros Hin. simpl. destruct (decide (x = y)) as [->|Hne]; [by eexists|].
  apply elem_of_cons in Hin as [->|Hin]; [done|].
  destruct (IH Hin) as [i ->]. by eexists.
Qed.

Lemma current_in_range w :
  bufptr w < length (buffer w) -> current w = (buffer w !! bufptr w, w).
Proof.
  intros Hlt. unfold current.
  rewrite !bool_decide_eq_false_2 by lia. done.
Qed.

(** X5.  [command_jump_to_active] puts the cursor on the active entry:
    the entry under the cursor is then the one [get_active_entry] finds;
    without an active entry nothing changes. *)
Theorem command_jump_to_active_current w :
  match get_active_entry w with
  | Some e => (current (command_jump_to_active w)).1 = Some e /\
              buffer (command_jump_to_active w) = buffer w
  | None => command_jump_to_active w = w
  end.
Proof.
  unfold command_jump_to_active.
  destruct (get_active_entry w) as [e|] eqn:Hg; [|done].
  apply get_active_entry_Some in Hg as [Hin _].
  destruct (py_index_elem e (buffer w) Hin) as [i Hi]. rewrite Hi.
  apply py_index_Some in Hi.
  assert (Hlt : i < length (buffer w)) by (by eapply lookup_lt_Some).
  split; [|done].
  unfold update. simpl. rewrite Nat.min_l by lia.
  rewrite current_in_range by (simpl; lia). done.
Qed.

Lemma filter_split {A} (f : A -> bool) (l : list A) :
  List.filter f l ++ List.filter (fun x => negb (f x)) l ≡ₚ l.
Proof.
  induction l as [|x l IH]; [done|]. simpl. destruct (f x); simpl.
  - by constructor.
  - rewrite <- Permutation_middle. by constructor.
Qed.

Lemma insert_block_perm {A} (p : nat) (u l : list A) :
  take p u ++ l ++ drop p u ≡ₚ l ++ u.
Proof.
  rewrite app_assoc, (Permutation_app_comm (take p u) l), <- app_assoc.
  by rewrite take_drop.
Qed.

Lemma current_same_but_order w : same_but_order w (current w).2.
Proof. unfold current, same_but_order. repeat case_match; done. Qed.

Lemma command_move_same after w : same_but_order w (command_move after w).
Proof.
  unfold command_move.
  destruct (buffer w) as [|b bs] eqn:Hb; [by unfold same_but_order|].
  clear Hb b bs.
  pose proof (current_same_but_order w) as Hc.
  pose proof (current_elem w) as Hel.
  pose proof (current_buffer w) as [Hcb _].
  destruct (current w) as [cur w1]. simpl in Hc, Hel, Hcb.
  destruct cur as [cur|]; [|done].
  destruct (get_tagged w1) as [|t ts] eqn:Ht; [done|]. rewrite <- Ht.
  destruct (is_tagged w1 cur) eqn:Hcur; [done|].
  destruct Hc as (Hbuf & Hrest). simpl.
  destruct (py_index_elem cur (not_tagged w1 (buffer w1))) as [i Hi].
  { unfold not_tagged. apply list_elem_of_In, filter_In. split.
    - apply list_elem_of_In. rewrite Hcb. by apply Hel.
    - by rewrite Hcur. }
  rewrite Hi. split; [|exact Hrest]. simpl.
  rewrite insert_block_perm, <- Hbuf. unfold get_tagged, not_tagged.
  apply filter_split.
Qed.

Lemma py_index_split (x : PlaylistEntry) l i :
  py_index x l = Some i ->
  l = take i l ++ x :: drop (S i) l /\ (x ∉ take i l) /\ length (take i l) = i.
Proof.
  revert i. induction l as [|y l IH]; intros i; simpl; [done|].
  destruct (decide (x = y)) as [->|Hne].
  - intros [= <-]. simpl. rewrite drop_0. split_and!; [done| apply not_elem_of_nil |done].
  - intros Hr. apply fmap_Some in Hr as (j & Hr & ->).
    destruct (IH j Hr) as (Hl & Hnot & Hlen). simpl.
    split_and!; [by rewrite <- Hl | | by rewrite Hlen].
    rewrite not_elem_of_cons. done.
Qed.

(** X6.  [command_move]: with the cursor on an untagged entry and some
    entries tagged, the tagged entries are taken out of the list and put
    back as one block, in their order, right before ([after] 0) or right
    after ([after] 1) the entry the cursor was on; the untagged entries
    keep their order, and the cursor ends on the first entry of the
    block. *)
Theorem command_move_block w cur :
  buffer w !! bufptr w = Some cur ->
  is_tagged w cur = false ->
  get_tagged w <> [] ->
  exists pre post,
    not_tagged w (buffer w) = pre ++ cur :: post /\ (cur ∉ pre) /\
    buffer (command_move 0 w) = pre ++ get_tagged w ++ cur :: post /\
    buffer (command_move 1 w) = pre ++ cur :: get_tagged w ++ post /\
    (current (command_move 0 w)).1 = head (get_tagged w) /\
    (current (command_move 1 w)).1 = head (get_tagged w).
Proof.
  intros Hc Hcur Ht.
  assert (Hlt : bufptr w < length (buffer w)) by (by eapply lookup_lt_Some).
  assert (Hin : cur ∈ not_tagged w (buffer w)).
  { unfold not_tagged. apply list_elem_of_In, filter_In. split.
    - apply list_elem_of_In. by eapply list_elem_of_lookup_2.
    - by rewrite Hcur. }
  destruct (py_index_elem cur _ Hin) as [i Hi].
  assert (Hmove : forall after,
    command_move after w =
    update (with_buffer (take (i + after) (not_tagged w (buffer w)) ++
                         get_tagged w ++
                         drop (i + after) (not_tagged w (buffer w)))
              (with_bufptr (i + after) w))).
  { intros after. unfold command_move.
    rewrite current_in_range by done. rewrite Hc.
    destruct (buffer w) as [|b bs] eqn:Hb; [simpl in Hlt; lia|].
    rewrite <- Hb in *.
    destruct (get_tagged w) as [|t ts] eqn:Hg; [done|]. rewrite <- Hg.
    rewrite Hcur. simpl. rewrite Hi. done. }
  destruct (py_index_split cur _ i Hi) as (Hsplit & Hnot & Hlen).
  set (U := not_tagged w (buffer w)) in *.
  set (pre := take i U) in *. set (post := drop (S i) U) in *.
  exists pre, post.
  assert (Ht0 : take (i + 0) U = pre /\ drop (i + 0) U = cur :: post).
  { rewrite Nat.add_0_r. split; [done|]. rewrite Hsplit at 1.
    rewrite drop_app_length'; done. }
  assert (Ht1 : take (i + 1) U = pre ++ [cur] /\ drop (i + 1) U = post).
  { rewrite Nat.add_1_r. split; [|done]. rewrite Hsplit at 1.
    rewrite take_app_ge by lia. rewrite Hlen.
    replace (S i - i) with 1 by lia. done. }
  destruct Ht0 as [Ht0 Hd0], Ht1 as [Ht1 Hd1].
  assert (Hgl : 0 < length (get_tagged w)).
  { destruct (get_tagged w); [done | simpl; lia]. }
  split_and!; [done | done | | | |].
  - rewrite Hmove. simpl. by rewrite Ht0, Hd0.
  - rewrite Hmove. simpl. rewrite Ht1, Hd1. by rewrite <- app_assoc.
  - rewrite Hmove. unfold update. simpl. rewrite Ht0, Hd0.
    rewrite !length_app, Hlen. simpl length.
    rewrite Nat.min_l by lia. rewrite current_in_range; simpl.
    + rewrite Nat.add_0_r. rewrite lookup_app_r by lia.
      rewrite Hlen, Nat.sub_diag. by destruct (get_tagged w).
    + rewrite !length_app, Hlen. simpl. lia.
  - rewrite Hmove. unfold update. simpl. rewrite Ht1, Hd1.
    rewrite !length_app, Hlen. simpl length.
    rewrite Nat.min_l by lia. rewrite current_in_range; simpl.
    + rewrite lookup_app_r by (rewrite length_app, Hlen; simpl; lia).
      rewrite length_app, Hlen. simpl. rewrite Nat.sub_diag.
      by destruct (get_tagged w).
    + rewrite !length_app, Hlen. simpl. lia.
Qed.

Lemma command_move_block_witness :
  let w := with_bufptr 1 (set_tagged track_C true (set_tagged track_A true
             (with_buffer [track_A; track_B; track_C; track_D] init))) in
  buffer w !! bufptr w = Some track_B /\
  is_tagged w track_B = false /\
  (get_tagged w <> []) /\
  buffer (command_move 1 w) = [track_B; track_A; track_C; track_D] /\
  buffer (command_move 0 w) = [track_A; track_C; track_B; track_D].
Proof.
  intros w.
  assert (H1 : buffer w !! bufptr w = Some track_B) by reflexivity.
  assert (H2 : is_tagged w track_B = false) by (vm_compute; reflexivity).
  assert (H3 : get_tagged w <> []) by (vm_compute; discriminate).
  split_and!; [exact H1 | exact H2 | exact H3 | |];
    destruct (command_move_block w track_B H1 H2 H3)
      as (pre & post & _ & _ & _ & _ & _ & _);
    vm_compute; reflexivity.
Defined.

Lemma shuffle_loop_S randint n buf l :
  shuffle_loop randint (S n) buf l =
  match buf !! (randint n mod S n) with
  | Some x => shuffle_loop randint n (delete (randint n mod S n) buf) (l ++ [x])
  | None => (buf, l)
  end.
Proof. reflexivity. Qed.

Lemma shuffle_loop_perm randint n buf l :
  length buf = n ->
  exists l', shuffle_loop randint n buf l = ([], l') /\ l' ≡ₚ l ++ buf.
Proof.
  revert buf l. induction n as [|n IH]; intros buf l Hlen.
  - destruct buf; [|done]. exists l. by rewrite app_nil_r.
  - rewrite shuffle_loop_S.
    assert (Hr : randint n mod S n < length buf).
    { rewrite Hlen. apply Nat.mod_upper_bound. lia. }
    destruct (lookup_lt_is_Some_2 buf _ Hr) as [x Hx]. rewrite Hx.
    destruct (IH (delete (randint n mod S n) buf) (l ++ [x])) as (l' & -> & Hp).
    { rewrite length_delete by (by eexists). lia. }
    exists l'. split; [done|]. rewrite Hp, <- app_assoc. simpl.
    by rewrite <- (delete_Permutation buf _ x Hx).
Qed.

Lemma command_shuffle_same randint w :
  same_but_order w (command_shuffle randint w) /\
  bufptr (command_shuffle randint w) = 0.
Proof.
  unfold command_shuffle.
  destruct (shuffle_loop_perm randint (length (buffer w)) (buffer w) [] eq_refl)
    as (l' & -> & Hp).
  split; [|done]. by split.
Qed.

(** X7.  [command_shuffle] leaves a permutation of the playlist, whatever
    numbers the generator yields: no entry is lost and none is doubled.
    The cursor goes to the top; the pools of random mode, the mode flags,
    the tags and the active flags are not touched. *)
Theorem command_shuffle_perm randint w :
  buffer (command_shuffle randint w) ≡ₚ buffer w /\
  bufptr (command_shuffle randint w) = 0 /\
  pools (command_shuffle randint w) = pools w /\
  active (command_shuffle randint w) = active w /\
  tagged (command_shuffle randint w) = tagged w.
Proof.
  destruct (command_shuffle_same randint w)
    as ((Hb & Hp & Hn & Hl & _ & _ & Ha & Ht) & Hptr).
  unfold pools. rewrite Hp, Hn, Hl. done.
Qed.

Lemma find_perm_unique {A} (f : A -> bool) (l k : list A) :
  l ≡ₚ k ->
  (forall x y, x ∈ l -> y ∈ l -> f x = true -> f y = true -> x = y) ->
  find f k = find f l.
Proof.
  intros Hp Hu. destruct (find f l) as [x|] eqn:Hl.
  - apply find_some in Hl as [Hin Hfx].
    destruct (find f k) as [y|] eqn:Hk.
    + apply find_some in Hk as [Hiny Hfy]. f_equal.
      apply Hu; [|by apply list_elem_of_In|done..].
      rewrite Hp. by apply list_elem_of_In.
    + exfalso. pose proof (find_none _ _ Hk x) as Hn.
      rewrite Hn in Hfx; [done|].
      apply list_elem_of_In. rewrite <- Hp. by apply list_elem_of_In.
  - destruct (find f k) as [y|] eqn:Hk; [|done].
    apply find_some in Hk as [Hiny Hfy].
    pose proof (find_none _ _ Hl y) as Hn. rewrite Hn in Hfy; [done|].
    apply list_elem_of_In. rewrite Hp. by apply list_elem_of_In.
Qed.

Lemma find_pointwise {A} (f g : A -> bool) (l : list A) :
  (forall x, f x = g x) -> find f l = find g l.
Proof. intros H. induction l as [|x l IH]; simpl; [done|]. by rewrite H, IH. Qed.

Lemma same_but_order_invariants w w' :
  same_but_order w w' -> pools_inv w -> at_most_one_active w ->
  pools_inv w' /\ at_most_one_active w' /\
  get_active_entry w' = get_active_entry w.
Proof.
  intros (Hb & Hp & Hn & Hl & Hr & _ & Ha & _) [Hnd Hpart] Hone.
  assert (Hact : forall e, is_active w' e = is_active w e).
  { intros e. unfold is_active. by rewrite Ha. }
  split_and!.
  - split; [by rewrite Hb|]. unfold pools. rewrite Hp, Hn, Hl, Hr, Hb.
    exact Hpart.
  - intros e1 e2. rewrite !Hb, !Hact. apply Hone.
  - unfold get_active_entry.
    rewrite (find_pointwise (is_active w') (is_active w)) by exact Hact.
    apply find_perm_unique; [by symmetry|]. exact Hone.
Qed.

(** X8.  The two commands that reorder the playlist, [command_move] and
    [command_shuffle], keep what navigation relies on: the playlist still
    holds no entry twice, in random mode the pools still hold each of its
    tracks once, at most one entry is active, and the active entry is the
    same one. *)
Theorem reorder_keeps_invariants after randint w :
  pools_inv w -> at_most_one_active w ->
  (pools_inv (command_move after w) /\
   at_most_one_active (command_move after w) /\
   get_active_entry (command_move after w) = get_active_entry w) /\
  (pools_inv (command_shuffle randint w) /\
   at_most_one_active (command_shuffle randint w) /\
   get_active_entry (command_shuffle randint w) = get_active_entry w).
Proof.
  intros Hinv Hone. split.
  - by apply same_but_order_invariants; [apply command_move_same|..].
  - by apply same_but_order_invariants; [apply command_shuffle_same|..].
Qed.

Lemma reorder_keeps_invariants_witness :
  let w := set_tagged track_C true
             (set_active track_B true
                (with_buffer [track_A; track_B; track_C] init)) in
  pools_inv w /\ at_most_one_active w /\
  get_active_entry (command_move 0 w) = Some track_B /\
  get_active_entry (command_shuffle (fun _ => 1) w) = Some track_B.
Proof.
  intros w.
  assert (Hinv : pools_inv w).
  { split; [exact NoDup_ABC | intros Hr; discriminate Hr]. }
  assert (Hone : at_most_one_active w).
  { intros e1 e2 _ _ H1 H2. unfold is_active in *.
    apply bool_decide_eq_true in H1, H2.
    replace (active w) with ({[ track_B ]} : gset PlaylistEntry) in H1, H2
      by (vm_compute; reflexivity).
    apply elem_of_singleton in H1, H2. congruence. }
  destruct (reorder_keeps_invariants 0 (fun _ => 1) w Hinv Hone)
    as ((_ & _ & Hm) & (_ & _ & Hs)).
  split_and!; [exact Hinv | exact Hone | |].
  - rewrite Hm. reflexivity.
  - rewrite Hs. reflexivity.
Defined.

End ReorderFacts.

(** ** Deleting *)

Section DeleteFacts.
Import PlaylistWindow.
Implicit Types (w : PlaylistWindow.t) (e : PlaylistEntry).

Lemma update_fields w :
  buffer (update w) = buffer w /\ tagged (update w) = tagged w /\
  (bufptr (update w) < length (buffer w) \/ buffer w = []).
Proof.
  unfold update. simpl. split_and!; [done..|].
  destruct (buffer w) as [|b bs]; [by right|left]. simpl. lia.
Qed.

(** The two ways of [command_delete]: the tagged entries go, or, when no
    entry of the list is tagged, the one under the cursor. *)
Lemma command_delete_shape w :
  buffer w <> [] ->
  exists i cur, buffer w !! i = Some cur /\
    (bufptr (command_delete w) < length (buffer (command_delete w))
     \/ buffer (command_delete w) = []) /\
    ((length (not_tagged w (buffer w)) < length (buffer w) /\
      buffer (command_delete w) = not_tagged w (buffer w) /\
      tagged (command_delete w) = tagged w) \/
     (not_tagged w (buffer w) = buffer w /\
      buffer (command_delete w) = delete i (buffer w) /\
      tagged (command_delete w) = tagged w ∪ {[ cur ]})).
Proof.
  intros Hne. unfold command_delete.
  destruct (current_Some w Hne) as (i & cur & Hi & ->).
  destruct (buffer w) as [|b bs] eqn:Hbuf; [done|]. rewrite <- Hbuf in *.
  exists i, cur. split; [done|].
  cbv zeta. simpl buffer.
  change (not_tagged (with_bufptr i w) (buffer w))
    with (not_tagged w (buffer w)).
  case_bool_decide as Hlen.
  - set (w3 := match py_index cur (not_tagged w (buffer w)) with
               | Some i0 => _ | None => _ end).
    assert (Hw3 : buffer w3 = not_tagged w (buffer w) /\ tagged w3 = tagged w).
    { subst w3. by case_match. }
    destruct Hw3 as (Hb3 & Ht3).
    set (w4 := if random w3 then _ else w3).
    assert (Hw4 : buffer w4 = not_tagged w (buffer w) /\ tagged w4 = tagged w).
    { subst w4. by case_match. }
    destruct Hw4 as (Hb4 & Ht4).
    destruct (update_fields w4) as (Hbu & Htu & Hpu).
    split; [exact Hpu|]. rewrite ?Hbu, ?Htu, ?Hb4, ?Ht4.
    left. simpl in Hlen. done.
  - assert (Hall : not_tagged w (buffer w) = buffer w).
    { apply forallb_filter_id, filter_length_forallb.
      pose proof (filter_length_le (fun x => negb (is_tagged w x)) (buffer w)).
      unfold not_tagged in Hlen. simpl in Hlen. lia. }
    rewrite Hall. simpl.
    set (w3 := with_buffer _ _).
    set (w4 := if random w then _ else w3).
    assert (Hw4 : buffer w4 = delete i (buffer w) /\
                  tagged w4 = tagged w ∪ {[ cur ]}).
    { subst w4 w3. by case_match. }
    destruct Hw4 as (Hb4 & Ht4).
    destruct (update_fields w4) as (Hbu & Htu & Hpu).
    split; [exact Hpu|]. rewrite ?Hbu, ?Htu, ?Hb4, ?Ht4.
    by right.
Qed.

Lemma filter_none {A} (f : A -> bool) (l : list A) :
  (forall x, x ∈ l -> f x = false) -> List.filter f l = [].
Proof.
  induction l as [|x l IH]; intros H; simpl; [done|].
  rewrite (H x) by apply list_elem_of_here.
  apply IH. intros y Hy. apply H. by apply list_elem_of_further.
Qed.

(** X9.  [command_delete] on a playlist that holds no entry twice and is
    not empty: afterwards no entry of the playlist is tagged, the playlist
    is shorter, every entry left was in it before and was not tagged, and
    the cursor is on an entry of the list unless the list is empty. *)
Theorem command_delete_untagged w :
  NoDup (buffer w) -> buffer w <> [] ->
  get_tagged (command_delete w) = [] /\
  length (buffer (command_delete w)) < length (buffer w) /\
  (forall e, e ∈ buffer (command_delete w) ->
             e ∈ buffer w /\ is_tagged w e = false) /\
  (bufptr (command_delete w) < length (buffer (command_delete w)) \/
   buffer (command_delete w) = []).
Proof.
  intros Hnd Hne.
  destruct (command_delete_shape w Hne) as (i & cur & Hi & Hptr & Hcase).
  assert (Hsurv : forall e, e ∈ buffer (command_delete w) ->
            e ∈ buffer w /\ is_tagged w e = false /\
            is_tagged (command_delete w) e = false).
  { intros e He. destruct Hcase as [(_ & Hb & Ht)|(Hall & Hb & Ht)].
    - rewrite Hb in He. unfold not_tagged in He.
      apply list_elem_of_In, filter_In in He as [Hin Hf].
      apply negb_true_iff in Hf.
      split_and!; [by apply list_elem_of_In | done |].
      unfold is_tagged in *. by rewrite Ht.
    - rewrite Hb in He.
      assert (Hin : e ∈ buffer w).
      { by eapply list_elem_of_delete_inv. }
      assert (Hunt : is_tagged w e = false).
      { rewrite <- Hall in Hin. unfold not_tagged in Hin.
        apply list_elem_of_In, filter_In in Hin as [_ Hf].
        by apply negb_true_iff in Hf. }
      split_and!; [done..|].
      assert (Hnecur : e <> cur).
      { intros ->. pose proof (delete_Permutation _ _ _ Hi) as Hp.
        rewrite Hp in Hnd. by apply NoDup_cons in Hnd as [Hnot _]. }
      unfold is_tagged in *. rewrite Ht.
      apply bool_decide_eq_false. apply bool_decide_eq_false in Hunt.
      set_solver. }
  split_and!.
  - unfold get_tagged. apply filter_none. intros e He. by apply Hsurv.
  - destruct Hcase as [(Hlen & -> & _)|(_ & -> & _)]; [done|].
    rewrite length_delete by (by eexists).
    apply lookup_lt_Some in Hi. lia.
  - intros e He. destruct (Hsurv e He) as (? & ? & _). done.
  - exact Hptr.
Qed.

Lemma command_delete_untagged_witness :
  let w := with_buffer [track_A; track_B; track_C] init in
  NoDup (buffer w) /\ (buffer w <> []) /\
  buffer (command_delete w) = [track_B; track_C] /\
  get_tagged (command_delete w) = [].
Proof.
  intros w. assert (Hnd : NoDup (buffer w)) by exact NoDup_ABC.
  assert (Hne : buffer w <> []) by discriminate.
  destruct (command_delete_untagged w Hnd Hne) as (Hg & _).
  split_and!; [exact Hnd | exact Hne | reflexivity | exact Hg].
Defined.

End DeleteFacts.

(** ** A whole cycle of random mode *)

Section CycleFacts.
Import PlaylistWindow.
Implicit Types (w : PlaylistWindow.t) (e : PlaylistEntry).

Lemma chosen_fields w new nx lf :
  buffer (chosen w new nx lf).2 = buffer w /\
  random (chosen w new nx lf).2 = random w /\
  repeat (chosen w new nx lf).2 = repeat w /\
  random_next (chosen w new nx lf).2 = nx /\
  random_left (chosen w new nx lf).2 = lf /\
  is_active (chosen w new nx lf).2 new = true.
Proof.
  unfold chosen, clear_old. destruct (get_active_entry w); simpl;
    (split_and!; try done);
    unfold is_active; simpl; apply bool_decide_eq_true; set_solver.
Qed.

Lemma forwards_cons r rs w :
  forwards (r :: rs) w =
  ((change_active_entry 1 r w).1 :: (forwards rs (change_active_entry 1 r w).2).1,
   (forwards rs (change_active_entry 1 r w).2).2).
Proof.
  simpl. destruct (change_active_entry 1 r w) as [e w1]. simpl.
  by destruct (forwards rs w1).
Qed.

Lemma forwards_left rs w :
  random w = true -> repeat w = false -> random_next w = [] ->
  NoDup (random_left w) -> (random_left w <> [] -> buffer w <> []) ->
  length rs = length (random_left w) ->
  exists l, (forwards rs w).1 = Some <$> l /\ l ≡ₚ random_left w /\
    random (forwards rs w).2 = true /\ repeat (forwards rs w).2 = false /\
    random_next (forwards rs w).2 = [] /\ random_left (forwards rs w).2 = [].
Proof.
  revert w. induction rs as [|r rs IH]; intros w Hr Hrep Hn Hnd Hb Hlen.
  - exists []. simpl in *. symmetry in Hlen. apply nil_length_inv in Hlen.
    rewrite Hlen. done.
  - assert (Hl : random_left w <> []).
    { intros Hnil. rewrite Hnil in Hlen. done. }
    destruct (random_forward_left w r Hr (Hb Hl) Hn Hl) as (new & Hc & Hstep).
    rewrite forwards_cons, Hstep.
    destruct (chosen_fields w new [] (py_discard new (random_left w)))
      as (Hb1 & Hr1 & Hrep1 & Hn1 & Hl1 & _).
    apply random_choice_elem in Hc.
    pose proof (py_discard_perm new _ Hc) as Hperm.
    destruct (IH (chosen w new [] (py_discard new (random_left w))).2)
      as (l & Ho & Hp & Hrest).
    + by rewrite Hr1.
    + by rewrite Hrep1.
    + done.
    + rewrite Hl1. rewrite <- Hperm in Hnd. by apply NoDup_cons in Hnd as [_ ?].
    + rewrite Hb1. intros _. by apply Hb.
    + rewrite Hl1. apply Permutation_length in Hperm. simpl in *. lia.
    + exists (new :: l). cbn [fst snd]. rewrite Ho.
      split_and!; [done| |apply Hrest..].
      rewrite Hp, Hl1. exact Hperm.
Qed.

(** X10.  A cycle of random mode with repeat off: once random mode is
    switched on for a playlist of n tracks that holds no track twice, the
    next n forward advances return n tracks, whatever the generator draws:
    every track of the playlist exactly once.  Every forward advance after
    that returns nothing and changes nothing. *)
Theorem random_cycle_plays_each_once w rs :
  NoDup (buffer w) -> random w = false -> repeat w = false ->
  length rs = length (buffer w) ->
  exists l,
    (forwards rs (toggle_random w)).1 = Some <$> l /\
    l ≡ₚ buffer w /\
    forall r, change_active_entry 1 r (forwards rs (toggle_random w)).2 =
              (None, (forwards rs (toggle_random w)).2).
Proof.
  intros Hnd Hr Hrep Hlen.
  destruct (forwards_left rs (toggle_random w)) as (l & Ho & Hp & H1 & H2 & H3 & H4).
  - unfold toggle_random. simpl. by rewrite Hr.
  - done.
  - done.
  - done.
  - done.
  - done.
  - exists l. split_and!; [done | done |].
    intros r. by apply random_forward_end.
Qed.

Lemma random_cycle_plays_each_once_witness :
  let w := with_buffer [track_A; track_B; track_C] init in
  NoDup (buffer w) /\ random w = false /\ repeat w = false /\
  (forwards [0; 4; 2] (toggle_random w)).1 =
    [Some track_A; Some track_B; Some track_C] /\
  (change_active_entry 1 7 (forwards [0; 4; 2] (toggle_random w)).2).1 = None.
Proof.
  intros w. assert (Hnd : NoDup (buffer w)) by exact NoDup_ABC.
  destruct (random_cycle_plays_each_once w [0; 4; 2] Hnd eq_refl eq_refl eq_refl)
    as (l & _ & _ & Hend).
  split_and!; [exact Hnd | reflexivity | reflexivity | vm_compute; reflexivity |].
  by rewrite Hend.
Defined.

(** X11.  With repeat on, playback never runs out of tracks: on a playlist
    that is not empty, an advance in sequential mode (either direction)
    and a forward advance in random mode always return a track, and that
    track is active afterwards. *)
Theorem repeat_always_advances (d : Z) (r : nat) w :
  repeat w = true -> buffer w <> [] ->
  (random w = true -> (0 < d)%Z) ->
  exists e, (change_active_entry d r w).1 = Some e /\
            is_active (change_active_entry d r w).2 e = true.
Proof.
  intros Hrep Hb Hdir. destruct (random w) eqn:Hr.
  - (* random mode, forward *)
    specialize (Hdir eq_refl).
    assert (Hd : change_active_entry d r w = change_active_entry 1 r w).
    { unfold change_active_entry. rewrite Hr.
      by rewrite (proj2 (Z.ltb_lt 0 d) Hdir). }
    rewrite Hd.
    assert (Hch : exists new nx lf,
              change_active_entry 1 r w = chosen w new nx lf).
    { destruct (random_next w) as [|x nx _] eqn:Hn using rev_ind.
      - destruct (decide (random_left w = [])) as [Hl|Hl].
        + destruct (random_forward_refill w r Hr Hb Hn Hl Hrep) as (new & _ & ->).
          by eexists _, _, _.
        + destruct (random_forward_left w r Hr Hb Hn Hl) as (new & _ & ->).
          by eexists _, _, _.
      - rewrite (random_forward_next w r nx x Hr Hb Hn). by eexists _, _, _. }
    destruct Hch as (new & nx & lf & ->). exists new. split; [done|].
    apply chosen_fields.
  - (* sequential mode *)
    destruct (get_active_entry w) as [o|] eqn:Hg.
    + pose proof (get_active_entry_Some _ _ Hg) as [Hin _].
      destruct (py_index_elem o _ Hin) as [i Hi].
      rewrite (sequential_step w o i d r Hr Hg Hi). cbv zeta.
      rewrite Hrep, orb_true_r. simpl negb. cbv iota.
      assert (Hlen : (0 < Z.of_nat (length (buffer w)))%Z).
      { destruct (buffer w); [done | simpl; lia]. }
      pose proof (Z.mod_pos_bound (Z.of_nat i + d) _ Hlen) as Hm.
      rewrite <- (Z2Nat.id ((Z.of_nat i + d) mod Z.of_nat (length (buffer w))))
        by lia.
      rewrite py_getitem_nat.
      destruct (lookup_lt_is_Some_2 (buffer w)
                  (Z.to_nat ((Z.of_nat i + d) mod Z.of_nat (length (buffer w)))))
        as [new Hnew]; [lia|].
      rewrite Hnew. exists new. split; [done|].
      unfold activate, update, is_active. simpl.
      apply bool_decide_eq_true. set_solver.
    + rewrite (sequential_first w d r Hr Hg).
      destruct (buffer w) as [|b bs] eqn:Hbuf; [done|]. simpl.
      exists b. split; [done|].
      unfold is_active. simpl. apply bool_decide_eq_true. set_solver.
Qed.

Lemma repeat_always_advances_witness :
  repeat (last_active true) = true /\ (buffer (last_active true) <> []) /\
  (change_active_entry 1 0 (last_active true)).1 = Some track_A.
Proof.
  destruct (repeat_always_advances 1 0 (last_active true))
    as (e & He & _); [reflexivity | discriminate | lia |].
  split_and!; [reflexivity | discriminate | reflexivity].
Defined.

End CycleFacts.

(** ** Timers and delayed play *)

Section TimerFacts.
Import Application.
Implicit Types (a : Application.t) (q : Timeout.t) (env : Env).

(** X12.  [Timeout.add] hands out an id that is not 0 and was not in the
    queue: the new entry is found under it with its deadline, the other
    entries are those of before, and removing it again gives back the
    entries of before. *)
Theorem timeout_add_fresh env (timeout : Q) func q :
  ids_used q ->
  let tid := (Timeout.add env timeout func q).1 in
  let q' := (Timeout.add env timeout func q).2 in
  tid <> 0 /\ Timeout.dict q !! tid = None /\
  Timeout.dict q' !! tid = Some (func, (now env + timeout)%Q) /\
  (forall k, k <> tid -> Timeout.dict q' !! k = Timeout.dict q !! k) /\
  ids_used q' /\
  (Timeout.dict <$> Timeout.remove tid q') = Some (Timeout.dict q).
Proof.
  intros Hids. unfold Timeout.add. simpl.
  assert (Hfresh : Timeout.dict q !! (Timeout.next q + 1) = None).
  { destruct (Timeout.dict q !! (Timeout.next q + 1)) eqn:Hk; [|done].
    pose proof (Hids _ (mk_is_Some _ _ Hk)). lia. }
  split_and!.
  - lia.
  - done.
  - by rewrite lookup_insert_eq.
  - intros k Hk. by rewrite lookup_insert_ne.
  - intros k Hk. simpl in *.
    destruct (decide (k = Timeout.next q + 1)) as [->|Hne]; [lia|].
    rewrite lookup_insert_ne in Hk by done.
    pose proof (Hids k Hk). lia.
  - unfold Timeout.remove. simpl. rewrite lookup_insert_eq. simpl.
    by rewrite delete_insert_id.
Qed.

Lemma timeout_add_fresh_witness :
  ids_used Timeout.init /\
  (Timeout.add (env_at 0) 1 (cb_play None None) Timeout.init).1 = 1.
Proof.
  assert (H : ids_used Timeout.init).
  { intros k [v Hk]. simpl in Hk. by rewrite lookup_empty in Hk. }
  split; [exact H|].
  destruct (timeout_add_fresh (env_at 0) 1 (cb_play None None) _ H) as (_ & _).
  reflexivity.
Defined.

Lemma one_pending_init : one_pending Application.init.
Proof. reflexivity. Qed.

Lemma delayed_play_pending env entry offset a :
  one_pending a ->
  let tid := Timeout.next (timeout a) + 1 in
  delayed_play env entry offset a =
    Ok (with_play_tid (Some tid)
          (with_timeout
             (Timeout.Make tid
                {[ tid := (cb_play entry offset, (now env + (1 # 2))%Q) ]})
             a)) /\
  one_pending
    (with_play_tid (Some tid)
       (with_timeout
          (Timeout.Make tid
             {[ tid := (cb_play entry offset, (now env + (1 # 2))%Q) ]})
          a)).
Proof.
  intros Hone. split.
  - unfold delayed_play, one_pending in *.
    destruct (play_tid a) as [[|t]|] eqn:Hp.
    + destruct Hone as [? _]. lia.
    + destruct Hone as [Hr [v Hd]].
      unfold Timeout.remove. rewrite Hd, lookup_singleton_eq. simpl.
      unfold Timeout.add. simpl. rewrite delete_singleton_eq.
      by rewrite insert_empty.
    + unfold Timeout.add. simpl. rewrite Hone. by rewrite insert_empty.
  - unfold one_pending. simpl. split; [lia|]. by eexists.
Qed.

(** X13.  [delayed_play] while the queue holds at most the delayed play
    that [play_tid] names: it does not raise, the request of before is
    dropped, and the queue holds the new request alone, due half a second
    from now. *)
Theorem delayed_play_replaces env entry offset a :
  one_pending a ->
  let tid := Timeout.next (timeout a) + 1 in
  delayed_play env entry offset a =
    Ok (with_play_tid (Some tid)
          (with_timeout
             (Timeout.Make tid
                {[ tid := (cb_play entry offset, (now env + (1 # 2))%Q) ]})
             a)) /\
  one_pending
    (with_play_tid (Some tid)
       (with_timeout
          (Timeout.Make tid
             {[ tid := (cb_play entry offset, (now env + (1 # 2))%Q) ]})
          a)).
Proof. apply delayed_play_pending. Qed.

Lemma delayed_play_replaces_witness :
  one_pending Application.init /\
  delayed_play (env_at 0) (Some track_A) (Some 0%Q) Application.init =
    Ok (with_play_tid (Some 1)
          (with_timeout
             (Timeout.Make 1
                {[ 1 := (cb_play (Some track_A) (Some 0%Q), (0 + (1 # 2))%Q) ]})
             Application.init)).
Proof.
  split; [exact one_pending_init|].
  exact (proj1 (delayed_play_replaces (env_at 0) (Some track_A) (Some 0%Q)
                  Application.init one_pending_init)).
Defined.

Lemma omap_singleton_lookup (tid : nat) (v : Callback * Q) (l : list nat) :
  NoDup l ->
  omap (fun k => (fun x => (k, x)) <$> ({[ tid := v ]} : gmap nat _) !! k) l =
  if bool_decide (tid ∈ l) then [(tid, v)] else [].
Proof.
  induction 1 as [|k l Hk Hnd IH]; [done|]. csimpl.
  destruct (decide (k = tid)) as [->|Hne].
  - rewrite lookup_singleton_eq. csimpl. rewrite IH.
    rewrite bool_decide_eq_false_2 by done.
    rewrite bool_decide_eq_true_2 by apply list_elem_of_here. done.
  - rewrite lookup_singleton_ne by done. csimpl. rewrite IH.
    apply (f_equal (fun b : bool => if b then [(tid, v)] else [])).
    apply bool_decide_ext. rewrite elem_of_cons. naive_solver.
Qed.

Lemma items_singleton tid v n :
  1 <= tid <= n -> items (Timeout.Make n {[ tid := v ]}) = [(tid, v)].
Proof.
  intros Hr. unfold items. simpl.
  rewrite omap_singleton_lookup by apply NoDup_seq.
  rewrite bool_decide_eq_true_2; [done|]. apply elem_of_seq. lia.
Qed.

(** [check] on a queue that holds one entry. *)
Lemma check_singleton env a tid func deadline :
  1 <= tid <= Timeout.next (timeout a) ->
  Timeout.dict (timeout a) = {[ tid := (func, deadline) ]} ->
  check env a =
  Ok (if Qle_bool deadline (now env)
      then fire env func
             (with_timeout (Timeout.Make (Timeout.next (timeout a)) ∅) a)
      else a).
Proof.
  intros Hr Hd. unfold check.
  destruct (timeout a) as [n d] eqn:Hq. simpl in *. subst d.
  rewrite items_singleton by done. simpl.
  destruct (Qle_bool deadline (now env)); [|done].
  unfold Timeout.remove. rewrite Hq. simpl. rewrite lookup_singleton_eq.
  by rewrite delete_singleton_eq.
Qed.

(** X14.  Requests for a delayed play made in a row: a check of the
    timers before half a second has passed since the last request changes
    nothing, and the first check after that plays what the last request
    asked for, and only that; the request before it is never played.
    (The queue is the one of the play callbacks.) *)
Theorem delayed_play_last_wins env1 env2 env3 e1 o1 e2 o2 a :
  one_pending a ->
  exists a1 a2,
    delayed_play env1 e1 o1 a = Ok a1 /\
    delayed_play env2 e2 o2 a1 = Ok a2 /\
    play_tid a2 = Some (Timeout.next (timeout a) + 2) /\
    check env3 a2 =
      Ok (if Qle_bool (now env2 + (1 # 2)) (now env3)
          then play env3 e2 o2
                 (with_timeout
                    (Timeout.Make (Timeout.next (timeout a) + 2) ∅) a2)
          else a2).
Proof.
  intros Hone.
  destruct (delayed_play_pending env1 e1 o1 a Hone) as [H1 Hone1].
  eexists. 
  destruct (delayed_play_pending env2 e2 o2 _ Hone1) as [H2 Hone2].
  eexists. split_and!; [exact H1 | exact H2 | |].
  - simpl. f_equal. lia.
  - rewrite (check_singleton env3 _ (Timeout.next (timeout a) + 1 + 1)
               (cb_play e2 o2) (now env2 + (1 # 2))%Q); simpl.
    + replace (Timeout.next (timeout a) + 1 + 1)
        with (Timeout.next (timeout a) + 2) by lia. done.
    + lia.
    + done.
Qed.

Lemma delayed_play_last_wins_witness :
  one_pending Application.init /\
  exists a2,
    play_tid a2 = Some 2 /\
    check (env_at 1) a2 =
      Ok (play (env_at 1) (Some track_B) (Some 0%Q)
            (with_timeout (Timeout.Make 2 ∅) a2)).
Proof.
  split; [exact one_pending_init|].
  destruct (delayed_play_last_wins (env_at 0) (env_at (1 # 4)) (env_at 1)
              (Some track_A) (Some 0%Q) (Some track_B) (Some 0%Q)
              Application.init one_pending_init)
    as (a1 & a2 & _ & _ & Htid & Hcheck).
  exists a2. split; [exact Htid | exact Hcheck].
Defined.

End TimerFacts.

(** ** Starting, stopping and pausing *)

Section PlaybackFacts.
Import Application.
Implicit Types (a : Application.t) (p : Player.t) (env : Env).

Lemma forks_app c1 c2 : forks (c1 ++ c2) = forks c1 + forks c2.
Proof. unfold forks. by rewrite List.filter_app, length_app. Qed.

Lemma stop_forks env quiet p : forks (Player.stop env quiet p).2 = 0.
Proof.
  unfold Player.stop, Player.toggle_pause, Player.update_status.
  repeat case_match; simplify_eq; reflexivity.
Qed.

(** X16.  [Player.stop]: afterwards the player is stopped and its process
    is gone, and no process is forked; stopping again changes nothing in
    the player.  While its process lives, a paused player is first
    resumed (SIGCONT) and then interrupted (SIGINT, sent until the
    process is gone: the log has it once). *)
Theorem stop_resumes_then_interrupts env (quiet quiet' : bool) p :
  Player.stopped (Player.stop env quiet p).1 = true /\
  Player.alive (Player.stop env quiet p).1 = false /\
  (Player.alive p = true ->
   (Player.stop env true p).2 =
     (if Player.paused p then [sys_kill SIGCONT] else []) ++
     [sys_kill SIGINT] /\
   Player.paused (Player.stop env true p).1 = false) /\
  forks (Player.stop env quiet p).2 = 0 /\
  (Player.stop env quiet' (Player.stop env quiet p).1).1 =
    (Player.stop env quiet p).1.
Proof.
  split_and!.
  - apply stop_stopped.
  - apply stop_stopped.
  - intros Ha. unfold Player.stop, Player.toggle_pause. rewrite Ha.
    destruct (Player.paused p) eqn:Hp; simpl; rewrite ?Hp; done.
  - apply stop_forks.
  - unfold Player.stop, Player.toggle_pause.
    destruct (Player.paused p) eqn:Hp, (Player.alive p) eqn:Ha;
      simpl; rewrite ?Hp, ?Ha; done.
Qed.

(** Track A is playing and paused, then stopped. *)
Lemma stop_resumes_then_interrupts_witness :
  let p := (Player.toggle_pause (env_at 1) false (player playing_app)).1 in
  Player.alive p = true /\ Player.paused p = true /\
  (Player.stop (env_at 2) true p).2 = [sys_kill SIGCONT; sys_kill SIGINT] /\
  Player.stopped (Player.stop (env_at 2) true p).1 = true.
Proof.
  intros p.
  destruct (stop_resumes_then_interrupts (env_at 2) true true p)
    as (Hs & _ & Hsig & _).
  destruct (Hsig eq_refl) as [Hc _].
  split_and!; [reflexivity | reflexivity | exact Hc | exact Hs].
Defined.

Lemma calls_on_player m a :
  calls (on_player m a) = calls a ++ (m (player a)).2.
Proof. unfold on_player. by destruct (m (player a)). Qed.

Lemma toggle_pause_live env a e :
  Player.entry (player a) = Some e ->
  Player.stopped (player a) = false ->
  Player.alive (player a) = true ->
  player (toggle_pause env a) =
    Player.with_paused (negb (Player.paused (player a))) (player a) /\
  calls (toggle_pause env a) =
    calls a ++
      [sys_kill (if Player.paused (player a) then SIGCONT else SIGSTOP);
       ui_set_default_status
         ((if Player.paused (player a) then "Playing: " else "Paused: ")
          +:+ vp env e)].
Proof.
  intros He Hs Ha. unfold toggle_pause. rewrite He, Hs. simpl.
  rewrite on_player_player, calls_on_player.
  unfold Player.toggle_pause, Player.update_status. rewrite Ha. simpl.
  rewrite He, Hs. by destruct (Player.paused (player a)).
Qed.

(** X17.  [Application.toggle_pause] twice on a playing track whose
    process lives: the process gets SIGSTOP and then SIGCONT (the other
    way round when it was paused), and the player is as before. *)
Theorem toggle_pause_twice env a e :
  Player.entry (player a) = Some e ->
  Player.stopped (player a) = false ->
  Player.alive (player a) = true ->
  player (toggle_pause env (toggle_pause env a)) = player a /\
  exists m1 m2,
    calls (toggle_pause env (toggle_pause env a)) =
    calls a ++
      [sys_kill (if Player.paused (player a) then SIGCONT else SIGSTOP);
       ui_set_default_status m1;
       sys_kill (if Player.paused (player a) then SIGSTOP else SIGCONT);
       ui_set_default_status m2].
Proof.
  intros He Hs Ha.
  destruct (toggle_pause_live env a e He Hs Ha) as [Hp1 Hc1].
  destruct (toggle_pause_live env (toggle_pause env a) e) as [Hp2 Hc2].
  { by rewrite Hp1. }
  { by rewrite Hp1. }
  { by rewrite Hp1. }
  split.
  - rewrite Hp2, Hp1. destruct (player a). simpl.
    unfold Player.with_paused. simpl. by rewrite negb_involutive.
  - rewrite Hc2, Hc1, Hp1, <- app_assoc. simpl.
    destruct (Player.paused (player a)); simpl; by eexists _, _.
Qed.

Lemma toggle_pause_twice_witness :
  Player.entry (player playing_app) = Some track_A /\
  player (toggle_pause (env_at 1) (toggle_pause (env_at 1) playing_app)) =
    player playing_app.
Proof.
  split; [reflexivity|].
  exact (proj1 (toggle_pause_twice (env_at 1) playing_app track_A
                  eq_refl eq_refl eq_refl)).
Defined.

Lemma play_outcome env e (off : Q) a :
  let a' := play env (Some e) (Some off) a in
  (exists c,
     calls a' = calls a ++ (Player.stop env true (player a)).2 ++ c /\
     forks c = if playable env e then 1 else 0) /\
  (if playable env e
   then Player.entry (player a') = Some e /\
        Player.alive (player a') = true /\
        Player.stopped (player a') = false /\
        Player.paused (player a') = false /\
        Player.step (player a') = 0%Q /\
        Player.time_setup (player a') = Some (now env)
   else Player.alive (player a') = false) /\
  (found env e = true ->
   Player.entry (player a') = Some e /\
   (Player.offset (player a') == off)%Q /\
   timeout a' = timeout a) /\
  win_playlist a' = win_playlist a /\
  play_tid a' = None /\ kludge a' = false.
Proof.
  cbv zeta. unfold playable, found, play, on_player.
  simpl (player (with_play_tid _ _)).
  pose proof (stop_stopped env true (player a)) as [_ Hal].
  destruct (Player.stop env true (player a)) as [p1 c1].
  cbn [fst snd] in *.
  unfold player_not_found, Player.setup, Player.play, Player.play_base, emit.
  destruct (re_files_search env (pathname e)),
           (which_found env), (mkfifo_ok env),
           (Qeq_bool off 0) eqn:Hz;
    cbn [andb]; simpl;
    (split_and!;
     first
       [ done
       | eexists; split;
         [ rewrite <- ?app_assoc; simpl; reflexivity
         | rewrite ?forks_app; unfold forks at 1; simpl;
           rewrite ?forks_app, ?update_status_forks; reflexivity ]
       | intros _; split_and!;
         first [ done
               | by (apply Qeq_bool_iff in Hz; rewrite Hz)
               | reflexivity ] ]).
Qed.

(** X18.  [Application.play] of a track: whatever was playing is stopped
    first, without a fork (a process that lives gets SIGCONT if it is
    paused, then SIGINT), and only then, and only if the player can play
    the track, one process is forked for it.  The player then holds the
    track, is neither stopped nor paused, and its step is reset; if the
    track cannot be played no process runs.  When a player is found for
    the track the player holds it at the offset asked for and the timer
    queue is as before.  The playlist is not touched, and [play_tid] and
    [kludge] are reset. *)
Theorem play_stops_before_fork env e (off : Q) a :
  let a' := play env (Some e) (Some off) a in
  (exists c,
     calls a' = calls a ++ (Player.stop env true (player a)).2 ++ c /\
     forks (Player.stop env true (player a)).2 = 0 /\
     forks c = if playable env e then 1 else 0) /\
  (Player.alive (player a) = true ->
   (Player.stop env true (player a)).2 =
     (if Player.paused (player a) then [sys_kill SIGCONT] else []) ++
     [sys_kill SIGINT]) /\
  (if playable env e
   then Player.entry (player a') = Some e /\
        Player.alive (player a') = true /\
        Player.stopped (player a') = false /\
        Player.paused (player a') = false /\
        Player.step (player a') = 0%Q /\
        Player.time_setup (player a') = Some (now env)
   else Player.alive (player a') = false) /\
  (found env e = true ->
   Player.entry (player a') = Some e /\
   (Player.offset (player a') == off)%Q /\
   timeout a' = timeout a) /\
  win_playlist a' = win_playlist a /\
  play_tid a' = None /\ kludge a' = false.
Proof.
  cbv zeta.
  destruct (play_outcome env e off a) as ((c & Hc & Hf) & Hrest).
  split; [|split; [|exact Hrest]].
  - exists c. split_and!; [exact Hc | apply stop_forks | exact Hf].
  - intros Ha. unfold Player.stop, Player.toggle_pause. rewrite Ha.
    by destruct (Player.paused (player a)).
Qed.

(** Track B is started while track A plays. *)
Lemma play_stops_before_fork_witness :
  Player.alive (player playing_app) = true /\
  found (env_at 5) track_B = true /\
  forks (calls (play (env_at 5) (Some track_B) (Some 0%Q) playing_app)) = 2 /\
  Player.entry (player (play (env_at 5) (Some track_B) (Some 0%Q) playing_app))
    = Some track_B.
Proof.
  destruct (play_stops_before_fork (env_at 5) track_B 0 playing_app)
    as (_ & _ & _ & Hfound & _).
  destruct (Hfound eq_refl) as (He & _).
  split_and!; [reflexivity | reflexivity | reflexivity | exact He].
Defined.

(** [run_poll] when the process is gone and the time for a re-spawn is
    over. *)
Lemma run_poll_gone env a :
  Player.stopped (player a) = false -> kludge a = true ->
  Player.alive (player a) = false -> ~ in_grace env (player a) ->
  run_poll env a =
  let a2 := with_player (Player.with_stopped true (player a))
              (emit [ui_set_default_status ""; ui_counter 0 0; ui_progress 0]
                    a) in
  if PlaylistWindow.stop (win_playlist a) then a2
  else
    match PlaylistWindow.change_active_entry 1 (draw env) (win_playlist a) with
    | (Some e, w) => play env (Some e) (Some 0%Q) (with_win_playlist w a2)
    | (None, w) => with_win_playlist w a2
    end.
Proof.
  intros Hs Hk Ha Hng. unfold run_poll.
  rewrite Hs, Hk. cbn [negb]. rewrite (poll_out_of_grace env _ Ha Hng).
  cbv beta iota zeta.
  replace (with_player (player a) a) with a by (by destruct a).
  simpl (win_playlist _). simpl (player (emit _ _)).
  destruct (PlaylistWindow.stop (win_playlist a)); [reflexivity|].
  cbn [negb].
  by destruct (PlaylistWindow.change_active_entry 1 (draw env) (win_playlist a))
    as [[e|] w].
Qed.

(** X19.  The end of a track in the main loop.  Nothing happens while
    the player is stopped, before the loop has waited once since the last
    [play] ([kludge]), or while the process lives.  When the process is
    gone and the 2 seconds after [setup] are over, the player is marked
    stopped; with "stop after track" on the playlist is left alone; else
    the playlist advances: the track it returns is made active and is the
    one played, from its start, and when it returns none the player stays
    stopped and no process is forked. *)
Theorem run_poll_end_of_track env a :
  (Player.stopped (player a) = true \/ kludge a = false \/
   Player.alive (player a) = true -> run_poll env a = a) /\
  (Player.stopped (player a) = false -> kludge a = true ->
   Player.alive (player a) = false -> ~ in_grace env (player a) ->
   at_most_one_active (win_playlist a) ->
   let a' := run_poll env a in
   if PlaylistWindow.stop (win_playlist a)
   then Player.stopped (player a') = true /\
        win_playlist a' = win_playlist a
   else
     match (PlaylistWindow.change_active_entry 1 (draw env)
              (win_playlist a)).1 with
     | Some e =>
         PlaylistWindow.is_active (win_playlist a') e = true /\
         at_most_one_active (win_playlist a') /\
         (playable env e = true ->
          Player.entry (player a') = Some e /\
          Player.alive (player a') = true /\
          Player.stopped (player a') = false /\
          Player.offset (player a') = 0%Q)
     | None =>
         Player.stopped (player a') = true /\
         Player.alive (player a') = false /\
         PlaylistWindow.buffer (win_playlist a') =
           PlaylistWindow.buffer (win_playlist a) /\
         forks (calls a') = forks (calls a)
     end).
Proof.
  split.
  - intros H. unfold run_poll.
    destruct (Player.stopped (player a)) eqn:Hs; [done|]. simpl.
    destruct (kludge a) eqn:Hk; [|done].
    destruct H as [H|[H|H]]; [done..|].
    unfold Player.poll. rewrite H. unfold emit. destruct a. simpl.
    by rewrite app_nil_r.
  - intros Hs Hk Ha Hng Hone. cbv zeta.
    rewrite (run_poll_gone env a Hs Hk Ha Hng).
    set (a2 := with_player _ _).
    destruct (PlaylistWindow.stop (win_playlist a)) eqn:Hstop; [done|].
    destruct (PlaylistWindow.change_active_entry 1 (draw env) (win_playlist a))
      as [[e|] w] eqn:Hc; cbn [fst snd].
    + destruct (change_active_entry_Some _ _ _ _ _ Hc) as (w0 & Hcl & ->).
      rewrite play_win_playlist.
      split_and!.
      * change (PlaylistWindow.is_active
                  (PlaylistWindow.set_active e true w0) e = true).
        rewrite is_active_set_active. by rewrite decide_True.
      * by eapply at_most_one_activate.
      * intros Hplay.
        match goal with |- context [play env (Some e) (Some 0%Q) ?x] =>
          pose proof (play_outcome env e 0%Q x) as (_ & Hout & _);
          set (a3 := x) in * end.
        rewrite Hplay in Hout. destruct Hout as (He & Hal & Hst & _).
        split_and!; [done..|].
        unfold playable in Hplay.
        apply andb_true_iff in Hplay as [Hplay Hm].
        apply andb_true_iff in Hplay as [Hre Hw].
        unfold play, player_not_found, on_player, Player.setup.
        rewrite Hre, Hw. simpl.
        unfold Player.play, Player.play_base, Player.stop, Player.toggle_pause.
        rewrite Hm. by repeat case_match.
    + destruct (change_active_entry_None _ _ _ _ Hc) as [Hb _].
      split_and!; [done | done | done |].
      subst a2. unfold emit. simpl. rewrite forks_app.
      change (forks [ui_set_default_status ""; ui_counter 0 0; ui_progress 0])
        with 0. lia.
Qed.

(** [toggle_stop] on a player that holds a track. *)
Lemma toggle_stop_outcome env a e :
  Player.entry (player a) = Some e ->
  (Player.stopped (player a) = false ->
   Player.stopped (player (toggle_stop env a)) = true /\
   Player.alive (player (toggle_stop env a)) = false /\
   Player.entry (player (toggle_stop env a)) = Some e /\
   forks (calls (toggle_stop env a)) = forks (calls a)) /\
  (Player.stopped (player a) = true -> playable env e = true ->
   Player.entry (player (toggle_stop env a)) = Some e /\
   Player.alive (player (toggle_stop env a)) = true /\
   Player.stopped (player (toggle_stop env a)) = false /\
   (Player.offset (player (toggle_stop env a)) == Player.offset (player a))%Q /\
   forks (calls (toggle_stop env a)) = forks (calls a) + 1).
Proof.
  intros He. unfold toggle_stop. rewrite He.
  split; intros Hs; rewrite Hs; cbn [negb].
  - rewrite on_player_player, calls_on_player, forks_app, stop_forks.
    pose proof (stop_stopped env false (player a)) as [H1 H2].
    split_and!; [done | done | | lia].
    unfold Player.stop, Player.toggle_pause.
    by destruct (Player.paused (player a)), (Player.alive (player a)).
  - intros Hplay.
    destruct (play_outcome env e (Player.offset (player a)) a)
      as ((c & Hc & Hf) & Hout & Hfound & _).
    rewrite Hplay in Hout, Hf. destruct Hout as (H1 & H2 & H3 & _).
    assert (Hfd : found env e = true).
    { unfold playable in Hplay. unfold found.
      by apply andb_true_iff in Hplay as [? _]. }
    destruct (Hfound Hfd) as (_ & Hoff & _).
    split_and!; [done..|].
    rewrite Hc, !forks_app, stop_forks, Hf. lia.
Qed.

(** C10.  The verbs [play] and [stop] are bound to the same callable,
    [Application.toggle_stop], with no arguments.  The program reads the
    line from the FIFO as bytes: [split] then raises [TypeError] for
    either line, before the verb is looked up, and the state is as
    before: the player is neither stopped nor started.  Given as text,
    either line is the call of [toggle_stop]: nothing without an entry;
    a player that is not stopped is stopped and its process gone, with
    no fork; a stopped player that can play its entry plays it again,
    in a new process, from the offset it had. *)
Theorem play_and_stop_raise (env : Env) (a : Application.t) :
  FIFOControl.handle_command env (FIFOControl.line_bytes ("play" +:+ nl)) a =
    Raise TypeError a /\
  FIFOControl.handle_command env (FIFOControl.line_bytes ("stop" +:+ nl)) a =
    Raise TypeError a /\
  FIFOControl.commands !! "play"%string =
    Some (FIFOControl.app_toggle_stop, Some []) /\
  FIFOControl.commands !! "stop"%string =
    FIFOControl.commands !! "play"%string /\
  FIFOControl.handle_command env (FIFOControl.line_text ("play" +:+ nl)) a =
    Ok (toggle_stop env a) /\
  FIFOControl.handle_command env (FIFOControl.line_text ("stop" +:+ nl)) a =
    Ok (toggle_stop env a) /\
  (Player.entry (player a) = None -> toggle_stop env a = a) /\
  (forall e, Player.entry (player a) = Some e ->
     (Player.stopped (player a) = false ->
      Player.stopped (player (toggle_stop env a)) = true /\
      Player.alive (player (toggle_stop env a)) = false /\
      Player.entry (player (toggle_stop env a)) = Some e /\
      forks (calls (toggle_stop env a)) = forks (calls a)) /\
     (Player.stopped (player a) = true -> playable env e = true ->
      Player.entry (player (toggle_stop env a)) = Some e /\
      Player.alive (player (toggle_stop env a)) = true /\
      Player.stopped (player (toggle_stop env a)) = false /\
      (Player.offset (player (toggle_stop env a))
         == Player.offset (player a))%Q /\
      forks (calls (toggle_stop env a)) = forks (calls a) + 1)).
Proof.
  split_and!; try reflexivity.
  - intros He. unfold toggle_stop. by rewrite He.
  - intros e He. by apply toggle_stop_outcome.
Qed.

(** While track A plays, the line [stop] as the FIFO yields it raises
    and leaves the player playing; as text it would stop the player,
    and the line [play] after it would start track A again. *)
Lemma play_and_stop_raise_witness :
  Player.stopped (player playing_app) = false /\
  Player.alive (player playing_app) = true /\
  FIFOControl.handle_command (env_at 1)
    (FIFOControl.line_bytes ("stop" +:+ nl)) playing_app =
    Raise TypeError playing_app /\
  Player.stopped (player (toggle_stop (env_at 1) playing_app)) = true /\
  Player.alive
    (player (toggle_stop (env_at 2) (toggle_stop (env_at 1) playing_app)))
    = true.
Proof.
  destruct (play_and_stop_raise (env_at 1) playing_app)
    as (_ & Hraise & _ & _ & _ & _ & _ & Hts).
  destruct (Hts track_A eq_refl) as [Hstop _].
  destruct (Hstop eq_refl) as (Hstopped & _ & Hentry & _).
  destruct (play_and_stop_raise (env_at 2) (toggle_stop (env_at 1) playing_app))
    as (_ & _ & _ & _ & _ & _ & _ & Hts2).
  destruct (Hts2 track_A Hentry) as [_ Hrestart].
  destruct (Hrestart Hstopped eq_refl) as (_ & Halive & _).
  split_and!; [reflexivity | reflexivity | exact Hraise | exact Hstopped
               | exact Halive].
Defined.

End PlaybackFacts.

(** ** Text cut to a width *)

Section CutFacts.
Local Open Scope Z_scope.

Lemma length_string_of_list_ascii l :
  String.length (string_of_list_ascii l) = length l.
Proof. induction l as [|c l IH]; simpl; [done | by rewrite IH]. Qed.

Lemma length_list_ascii_of_string s :
  length (list_ascii_of_string s) = String.length s.
Proof. induction s as [|c s IH]; simpl; [done | by rewrite IH]. Qed.

Lemma length_string_app s t :
  String.length (s +:+ t) = (String.length s + String.length t)%nat.
Proof. induction s as [|c s IH]; simpl; [done | by rewrite IH]. Qed.

Lemma string_of_list_ascii_app l k :
  string_of_list_ascii (l ++ k) =
  string_of_list_ascii l +:+ string_of_list_ascii k.
Proof. induction l as [|c l IH]; simpl; [done | by rewrite IH]. Qed.

Lemma slice_to_from s k :
  s = string_of_list_ascii (take k (list_ascii_of_string s)) +:+
      string_of_list_ascii (drop k (list_ascii_of_string s)).
Proof.
  by rewrite <- string_of_list_ascii_app, take_drop,
    string_of_list_ascii_of_string.
Qed.

(** X20.  [cut(s, n, left)] for a width [n] of at least 1 (at least 2 when
    cutting on the left): the result is [min(len(s), n)] characters long;
    a string that fits is returned as it is; a longer one keeps its first
    [n - 1] characters followed by [>], or, cutting on the left, its last
    [n - 1] characters after [<]. *)
Theorem cut_fits (s : string) (n : Z) (left : bool) :
  (if left then 2 <= n else 1 <= n) ->
  Z.of_nat (String.length (cut s n left)) =
    Z.min (Z.of_nat (String.length s)) n /\
  (Z.of_nat (String.length s) <= n -> cut s n left = s) /\
  (n < Z.of_nat (String.length s) ->
   exists t u, s = t +:+ u /\
     cut s n left = (if left then "<" +:+ u else t +:+ ">") /\
     Z.of_nat (String.length (if left then u else t)) = n - 1).
Proof.
  intros Hn. unfold cut.
  set (len := Z.of_nat (String.length s)).
  destruct (Z.ltb_spec n len) as [Hlt|Hge].
  - assert (Hcut : forall k : nat,
      length (take k (list_ascii_of_string s)) = Nat.min k (String.length s) /\
      length (drop k (list_ascii_of_string s)) = (String.length s - k)%nat).
    { intros k. by rewrite length_take, length_drop, length_list_ascii_of_string. }
    destruct left.
    + unfold py_slice_from, py_slice_index. fold len.
      destruct (Z.ltb_spec (- n + 1) 0) as [_|?]; [|lia].
      set (k := Z.to_nat (Z.min len (Z.max 0 (len + (- n + 1))))).
      assert (Hk : Z.of_nat k = len - n + 1) by (subst k; lia).
      destruct (Hcut k) as [_ Hd].
      split_and!.
      * change ("<" +:+ ?x) with (String "<" x). simpl String.length.
        rewrite length_string_of_list_ascii, Hd. subst len. lia.
      * lia.
      * intros _. eexists _, _. split; [apply (slice_to_from s k)|].
        split; [done|]. rewrite length_string_of_list_ascii, Hd.
        subst len. lia.
    + unfold py_slice_to, py_slice_index. fold len.
      destruct (Z.ltb_spec (n - 1) 0) as [?|_]; [lia|].
      set (k := Z.to_nat (Z.min len (Z.max 0 (n - 1)))).
      assert (Hk : Z.of_nat k = n - 1) by (subst k; lia).
      destruct (Hcut k) as [Ht _].
      split_and!.
      * rewrite length_string_app, length_string_of_list_ascii, Ht.
        simpl. subst len. lia.
      * lia.
      * intros _. eexists _, _. split; [apply (slice_to_from s k)|].
        split; [done|]. rewrite length_string_of_list_ascii, Ht.
        subst len. lia.
  - subst len. destruct left; (split_and!; [lia | done | lia]).
Qed.

Lemma cut_fits_witness :
  (1 <= 4) /\ cut "playlist" 4 false = "pla>" /\
  cut "playlist" 4 true = "<ist".
Proof.
  destruct (cut_fits "playlist" 4 false) as (_ & _ & _); [lia|].
  split_and!; [lia | reflexivity | reflexivity].
Defined.

(** X21.  [cut] on the left with width 1: a string of two characters or
    more comes back whole behind the mark [<], one character longer than
    it was and wider than the width asked for. *)
Theorem cut_left_width_one (s : string) :
  (1 < String.length s)%nat -> cut s 1 true = "<" +:+ s.
Proof.
  intros Hlen. unfold cut.
  rewrite (proj2 (Z.ltb_lt 1 _)) by lia.
  unfold py_slice_from, py_slice_index. simpl (- 1 + 1).
  rewrite Z.ltb_irrefl.
  replace (Z.to_nat _) with 0%nat by lia.
  by rewrite drop_0, string_of_list_ascii_of_string.
Qed.

Lemma cut_left_width_one_witness :
  (1 < String.length "song")%nat /\ cut "song" 1 true = "<song".
Proof.
  split; [simpl; lia|]. apply (cut_left_width_one "song"). simpl. lia.
Defined.

End CutFacts.

(** ** Key bindings *)

Section KeymapFacts.
Context {M : Type}.
Implicit Types (km : list (option (M * option (list FIFOControl.PyVal))))
  (k : Z) (m : M) (args : option (list FIFOControl.PyVal)).
Local Open Scope Z_scope.

Lemma py_setitem_in_range {A} (l : list A) k (v : A) :
  0 <= k < Z.of_nat (length l) ->
  py_setitem l k v = Some (<[Z.to_nat k := v]> l).
Proof.
  intros Hk. unfold py_setitem.
  rewrite (proj2 (Z.leb_le 0 k)) by lia.
  by rewrite (proj2 (Z.ltb_lt k _)) by lia.
Qed.

Lemma process_lookup km k :
  0 <= k ->
  Keymap.process km k =
  match km !! Z.to_nat k with
  | Some (Some (method, args)) =>
      Some (method, default [FIFOControl.py_num k] args)
  | _ => None
  end.
Proof.
  intros Hk. unfold Keymap.process, py_getitem.
  by rewrite (proj2 (Z.leb_le 0 k)) by lia.
Qed.

(** Binding a list of codes that are all within the table. *)
Lemma bind_each_in_range (kis : list Z) v km :
  (forall k, k ∈ kis -> 0 <= k < Z.of_nat (length km)) ->
  exists km',
    Keymap.bind_each kis v km = Ok km' /\ length km' = length km /\
    forall k, 0 <= k ->
      km' !! Z.to_nat k =
      if bool_decide (k ∈ kis) then
        (if bool_decide (k < Z.of_nat (length km)) then Some (Some v) else None)
      else km !! Z.to_nat k.
Proof.
  revert km. induction kis as [|ki kis IH]; intros km Hall.
  - exists km. split_and!; [done..|]. intros k _.
    rewrite bool_decide_eq_false_2; [done|]. apply not_elem_of_nil.
  - change (Keymap.bind_each (ki :: kis) v km) with
      (match py_setitem km ki (Some v) with
       | Some km' => Keymap.bind_each kis v km'
       | None => Raise IndexError km
       end).
    rewrite py_setitem_in_range by (apply Hall, list_elem_of_here).
    destruct (IH (<[Z.to_nat ki := Some v]> km)) as (km' & Hbind & Hlen & Hlook).
    { intros k Hk. rewrite length_insert. apply Hall.
      by apply list_elem_of_further. }
    rewrite length_insert in Hlen, Hlook.
    exists km'. split_and!; [exact Hbind | done |]. intros k Hk0.
    rewrite (Hlook k Hk0).
    pose proof (Hall ki (list_elem_of_here _ _)) as Hki.
    destruct (decide (k ∈ kis)) as [Hin|Hnin].
    + rewrite (bool_decide_eq_true_2 (k ∈ kis)) by done.
      rewrite (bool_decide_eq_true_2 (k ∈ ki :: kis))
        by (by apply list_elem_of_further).
      done.
    + rewrite (bool_decide_eq_false_2 (k ∈ kis)) by done.
      destruct (decide (k = ki)) as [->|Hne].
      * rewrite (bool_decide_eq_true_2 (ki ∈ ki :: kis))
          by apply list_elem_of_here.
        rewrite bool_decide_eq_true_2 by lia.
        apply list_lookup_insert_eq. lia.
      * rewrite (bool_decide_eq_false_2 (k ∈ ki :: kis)).
        2:{ rewrite elem_of_cons. naive_solver. }
        apply list_lookup_insert_ne. lia.
Qed.

(** X22.  [Keymap.bind] with a list of keys, and with a bare integer.
    After [bind([k], method, args)] for a code [k] of the table, [process(k)]
    calls [method] with [args], or with the code itself when [args] is
    [None], and every other code is handled as before.  [bind(k, ...)]
    with [k] a bare integer binds nothing: the keymap is unchanged. *)
Theorem keymap_bind_process km k m args :
  0 <= k < Z.of_nat (length km) ->
  (exists km',
     Keymap.bind (key_seq [item_int k]) m args km = Ok km' /\
     Keymap.process km' k = Some (m, default [FIFOControl.py_num k] args) /\
     forall k', 0 <= k' -> k' <> k ->
                Keymap.process km' k' = Keymap.process km k') /\
  Keymap.bind (key_int k) m args km = Ok km.
Proof.
  intros Hk. split; [|done].
  destruct (bind_each_in_range [k] (m, args) km) as (km' & Hb & _ & Hl).
  { intros k' ->%list_elem_of_singleton. done. }
  exists km'. split_and!; [exact Hb | |].
  - rewrite process_lookup, Hl by lia.
    rewrite bool_decide_eq_true_2 by apply list_elem_of_here.
    by rewrite bool_decide_eq_true_2 by lia.
  - intros k' Hk' Hne. rewrite !process_lookup, Hl by lia.
    rewrite bool_decide_eq_false_2; [done|].
    by intros ->%list_elem_of_singleton.
Qed.


(** X23.  [Keymap.bind] with a range and no arguments, as for the digit
    keys: every code of the range that follows calls the method with the
    code itself as its one argument. *)
Theorem keymap_bind_range km (start stop : Z) m k :
  0 <= start -> stop <= Z.of_nat (length km) -> start <= k < stop ->
  exists km',
    Keymap.bind (key_range start stop) m None km = Ok km' /\
    Keymap.process km' k = Some (m, [FIFOControl.py_num k]).
Proof.
  intros Hs He Hk.
  destruct (bind_each_in_range (seqZ start (stop - start)) (m, None) km)
    as (km' & Hb & _ & Hl).
  { intros k' Hk'%elem_of_seqZ. lia. }
  exists km'. split; [exact Hb|].
  rewrite process_lookup, Hl by lia.
  rewrite bool_decide_eq_true_2 by (apply elem_of_seqZ; lia).
  by rewrite bool_decide_eq_true_2 by lia.
Qed.


(** X24.  [KeymapStack.process]: a code is handled by the first keymap
    from the top of the stack that binds it, and by that one alone; the
    keymaps above it, and the entries that are [None], are passed over. *)
Theorem keymapstack_first_bound (items : Stack.t (option (@Keymap.t M)))
    (code : Z) (c : M * list FIFOControl.PyVal) :
  KeymapStack.process items code = Some c <->
  exists above km below,
    items = above ++ Some km :: below /\
    Keymap.process km code = Some c /\
    forall km', Some km' ∈ above -> Keymap.process km' code = None.
Proof.
  induction items as [|[km|] items IH]; simpl.
  - split; [done|]. intros (above & km & below & Heq & _).
    by destruct above.
  - destruct (Keymap.process km code) as [c'|] eqn:Hp.
    + split.
      * intros [= <-]. exists [], km, items. (split; [done|split; [done|]]).
        by intros km' ?%elem_of_nil.
      * intros (above & km0 & below & Heq & Hc & Hab).
        destruct above as [|x above]; simplify_eq/=; try congruence.
        rewrite (Hab km) in Hp by apply list_elem_of_here. done.
    + rewrite IH. split.
      * intros (above & km0 & below & -> & Hc & Hab).
        exists (Some km :: above), km0, below. (split; [done|split; [done|]]).
        intros km' Hin'. apply elem_of_cons in Hin' as [Heq|Hin].
        -- by simplify_eq.
        -- by apply Hab.
      * intros (above & km0 & below & Heq & Hc & Hab).
        destruct above as [|x above]; simplify_eq/=; try congruence.
        exists above, km0, below.
        (split; [done|split; [done|]]). intros km' Hin.
        apply Hab. by apply list_elem_of_further.
  - rewrite IH. split.
    + intros (above & km0 & below & -> & Hc & Hab).
      exists (None :: above), km0, below. (split; [done|split; [done|]]).
      intros km' Hin'. apply elem_of_cons in Hin' as [Heq|Hin]; [done | by apply Hab].
    + intros (above & km0 & below & Heq & Hc & Hab).
      destruct above as [|x above]; simplify_eq/=.
      exists above, km0, below.
      (split; [done|split; [done|]]). intros km' Hin.
      apply Hab. by apply list_elem_of_further.
Qed.

End KeymapFacts.

Section KeymapExamples.
Local Open Scope Z_scope.

Lemma keymap_bind_process_witness :
  (0 <= 12 < Z.of_nat (length (@Keymap.init bool 511))) /\
  Keymap.bind (key_int 12) true (Some []) (Keymap.init 511) =
    Ok (Keymap.init 511) /\
  Keymap.process (Keymap.init 511 : @Keymap.t bool) 12 = None.
Proof.
  assert (H : 0 <= 12 < Z.of_nat (length (@Keymap.init bool 511))).
  { unfold Keymap.init. rewrite length_replicate. lia. }
  split; [exact H|].
  split; [exact (proj2 (keymap_bind_process _ 12 true (Some []) H))|].
  vm_compute. reflexivity.
Defined.

Lemma keymap_bind_range_witness :
  (0 <= 48) /\ (58 <= Z.of_nat (length (@Keymap.init bool 511))) /\
  exists km', Keymap.bind (key_range 48 58) true None (Keymap.init 511)
              = Ok km' /\
              Keymap.process km' 53 = Some (true, [FIFOControl.py_num 53]).
Proof.
  assert (H : 58 <= Z.of_nat (length (@Keymap.init bool 511))).
  { unfold Keymap.init. rewrite length_replicate. lia. }
  split; [lia|]. split; [exact H|].
  apply (keymap_bind_range (Keymap.init 511) 48 58 true 53); [lia | exact H | lia].
Defined.

End KeymapExamples.

Section VolumeFacts.
Local Open Scope Z_scope.

(** X25.  The digit keys: [key_volume] with the code of the digit [d]
    (48 + d) sets the volume to 10 times [d]. *)
Theorem key_volume_digit env (d : Z) a :
  0 <= d <= 9 ->
  Application.key_volume env (48 + d) a = Application.mixer env "set" (10 * d) a.
Proof.
  intros Hd. unfold Application.key_volume.
  assert (H : d = 0 \/ d = 1 \/ d = 2 \/ d = 3 \/ d = 4 \/ d = 5 \/ d = 6 \/
              d = 7 \/ d = 8 \/ d = 9) by lia.
  destruct H as [->|[->|[->|[->|[->|[->|[->|[->|[->| ->]]]]]]]]]; reflexivity.
Qed.

Lemma key_volume_digit_witness :
  (0 <= 7 <= 9) /\
  Application.calls (Application.key_volume (env_at 0) 55 Application.init) =
  Application.calls (Application.mixer (env_at 0) "set" 70 Application.init).
Proof.
  split; [lia|].
  exact (f_equal Application.calls
           (key_volume_digit (env_at 0) 7 Application.init ltac:(lia))).
Defined.

End VolumeFacts.

(** ** Keys that schedule a play *)

Section ScheduleFacts.
Import Application.
Implicit Types (a : Application.t) (env : Env).

Lemma one_pending_frame a a' :
  play_tid a' = play_tid a -> timeout a' = timeout a ->
  one_pending a -> one_pending a'.
Proof. unfold one_pending. by intros -> ->. Qed.

(** X26.  [Application.seek] while a track is loaded and its process
    lives (the player has then been set up and played, which assign its
    length, step and process): the player's offset is moved at once, and
    one delayed play of the same track at the new offset is left in the
    queue, in place of any delayed play that was pending. *)
Theorem seek_schedules_play env (offset : Q) (relative : bool) a e :
  one_pending a ->
  Player.entry (player a) = Some e ->
  Player.alive (player a) = true ->
  exists a',
    seek env offset relative a = Ok a' /\
    player a' = (Player.seek offset relative (player a)).1 /\
    play_tid a' = Some (Timeout.next (timeout a) + 1) /\
    Timeout.dict (timeout a') =
      {[ Timeout.next (timeout a) + 1 :=
           (cb_play (Some e) (Some (Player.offset (player a'))),
            (now env + (1 # 2))%Q) ]}.
Proof.
  intros Hone He _. unfold seek. rewrite He.
  set (a1 := on_player (Player.seek offset relative) a).
  assert (Hp1 : player a1 = (Player.seek offset relative (player a)).1).
  { subst a1. apply on_player_player. }
  assert (Hq1 : timeout a1 = timeout a /\ play_tid a1 = play_tid a).
  { subst a1. unfold on_player. by destruct (Player.seek _ _ _). }
  destruct Hq1 as [Hq1 Ht1].
  assert (Hone1 : one_pending a1) by (by eapply one_pending_frame).
  clearbody a1.
  destruct (delayed_play_pending env (Player.entry (player a1))
              (Some (Player.offset (player a1))) a1 Hone1) as [-> _].
  eexists. split; [reflexivity|]. simpl. rewrite Hq1, Hp1.
  split_and!; [done..|].
  assert (Hent : Player.entry (Player.seek offset relative (player a)).1 = Some e).
  { unfold Player.seek. destruct relative; simpl; exact He. }
  by rewrite Hent.
Qed.

Lemma seek_schedules_play_witness :
  one_pending playing_app /\
  Player.entry (player playing_app) = Some track_A /\
  Player.alive (player playing_app) = true /\
  exists a', seek (env_at 3) 10 false playing_app = Ok a' /\
             Player.offset (player a') = 10%Q /\
             play_tid a' = Some 1.
Proof.
  assert (H : one_pending playing_app) by reflexivity.
  split_and!; [exact H | reflexivity | reflexivity |].
  destruct (seek_schedules_play (env_at 3) 10 false playing_app track_A H
              eq_refl eq_refl) as (a' & Hseek & Hp & Ht & _).
  exists a'. split_and!; [exact Hseek | by rewrite Hp | exact Ht].
Defined.

(** X27.  The key for the next song at the end of the playlist: when the
    playlist has no next track to give, the delayed play that gets
    scheduled is one of no track; when it falls due it plays nothing and
    stops nothing: the player and the calls made are those of before,
    and the queue is empty again. *)
Theorem next_song_at_end env env' a :
  one_pending a ->
  (PlaylistWindow.change_active_entry 1 (draw env) (win_playlist a)).1 = None ->
  Qle_bool (now env + (1 # 2)) (now env') = true ->
  exists a1 a2,
    next_song env a = Ok a1 /\ check env' a1 = Ok a2 /\
    player a2 = player a /\ calls a2 = calls a /\
    Timeout.dict (timeout a2) = ∅ /\ play_tid a2 = None.
Proof.
  intros Hone Hnone Hdue. unfold next_song.
  destruct (PlaylistWindow.change_active_entry 1 (draw env) (win_playlist a))
    as [o w]. simpl in Hnone. subst o.
  assert (Hone1 : one_pending (with_win_playlist w a)) by exact Hone.
  destruct (delayed_play_pending env None (Some 0%Q) _ Hone1) as [-> _].
  eexists _, _. split; [reflexivity|].
  rewrite (check_singleton env' _ (Timeout.next (timeout a) + 1)
             (cb_play None (Some 0%Q)) (now env + (1 # 2))%Q);
    simpl; [|lia|done].
  rewrite Hdue. done.
Qed.

Lemma next_song_at_end_witness :
  one_pending playing_app /\
  exists a1 a2,
    next_song (env_at 3) playing_app = Ok a1 /\
    check (env_at 4) a1 = Ok a2 /\ player a2 = player playing_app.
Proof.
  assert (H : one_pending playing_app) by reflexivity.
  split; [exact H|].
  destruct (next_song_at_end (env_at 3) (env_at 4) playing_app H)
    as (a1 & a2 & H1 & H2 & H3 & _); [reflexivity | reflexivity |].
  by exists a1, a2.
Defined.

(** X15.  [Application.play] neither removes nor replaces the timer of a
    delayed play: when a delayed play is pending and a track is started
    directly, [play_tid] is cleared but the request stays in the queue,
    and at the first check of the timers after its deadline the delayed
    track is played in place of the one just started.  (A player is
    found for both tracks: no "Player not found!" status, whose timer
    would join the queue.) *)
Theorem play_keeps_pending env env' e o tid e1 o1 deadline a :
  1 <= tid <= Timeout.next (timeout a) ->
  Timeout.dict (timeout a) = {[ tid := (cb_play (Some e1) (Some o1), deadline) ]} ->
  found env e = true -> found env' e1 = true ->
  Qle_bool deadline (now env') = true ->
  let a1 := play env (Some e) (Some o) a in
  play_tid a1 = None /\ timeout a1 = timeout a /\
  Player.entry (player a1) = Some e /\
  exists a2,
    check env' a1 = Ok a2 /\
    a2 = play env' (Some e1) (Some o1)
           (with_timeout (Timeout.Make (Timeout.next (timeout a)) ∅) a1) /\
    Player.entry (player a2) = Some e1 /\
    Timeout.dict (timeout a2) = ∅ /\ play_tid a2 = None.
Proof.
  intros Hr Hd Hf Hf1 Hdue. cbv zeta.
  destruct (play_outcome env e o a) as (_ & _ & Hfound & _ & Hp & _).
  destruct (Hfound Hf) as (He & _ & Hq).
  split_and!; [done..|].
  set (a1 := play env (Some e) (Some o) a) in *.
  set (a1' := with_timeout (Timeout.Make (Timeout.next (timeout a)) ∅) a1).
  exists (play env' (Some e1) (Some o1) a1'). split.
  { rewrite (check_singleton env' _ tid (cb_play (Some e1) (Some o1)) deadline);
      rewrite ?Hq; [|done..].
    rewrite Hdue. reflexivity. }
  split; [reflexivity|].
  destruct (play_outcome env' e1 o1 a1') as (_ & _ & Hfound1 & _ & Hp1 & _).
  destruct (Hfound1 Hf1) as (He1 & _ & Hq1).
  split_and!; [exact He1 | by rewrite Hq1 | exact Hp1].
Qed.

(** Track A is due by a delayed play when track B is started; at the
    next check of the timers track A replaces it. *)
Lemma play_keeps_pending_witness :
  let a := with_timeout
             (Timeout.Make 1 {[ 1 := (cb_play (Some track_A) (Some 0%Q),
                                      (1 # 2)%Q) ]})
             (with_play_tid (Some 1) Application.init) in
  found (env_at 0) track_B = true /\ found (env_at 1) track_A = true /\
  Player.entry (player (play (env_at 0) (Some track_B) (Some 0%Q) a)) =
    Some track_B /\
  exists a', check (env_at 1) (play (env_at 0) (Some track_B) (Some 0%Q) a)
             = Ok a' /\
             Player.entry (player a') = Some track_A.
Proof.
  intros a.
  destruct (play_keeps_pending (env_at 0) (env_at 1) track_B 0%Q
              1 track_A 0%Q (1 # 2)%Q a)
    as (_ & _ & He & a2 & Hc & _ & He2 & _);
    [simpl; lia | reflexivity | reflexivity | reflexivity | reflexivity |].
  split_and!; [reflexivity | reflexivity | exact He |].
  exists a2. split; [exact Hc | exact He2].
Defined.

End ScheduleFacts.
